(** * HugeAllocator (src/util/huge_alloc.h): a shallow embedding and its properties

    The allocator keeps a list of SHM regions obtained from the kernel, a
    freelist of 4K pages and four counters.  All of its arithmetic is on
    [size_t], which we write as [Z] with the wrap-around at [2^64] spelled
    out.  Addresses ([void *]) are 64-bit values as well.

    The kernel (shmget, shmat, mbind) and the key generator are not part of
    the class: they are an explicit world that answers the calls of
    [reserve_hugepages] from a script.  The destructor and [delete_shm] are
    left out: nothing below is about teardown. *)

From Stdlib Require Import ZArith Lia.
From stdpp Require Import base tactics list.

Local Open Scope Z_scope.

(** ** Machine integers *)

Definition two64 : Z := 18446744073709551616.

(** [size_t] and [uintptr_t] arithmetic *)
Definition wrap (x : Z) : Z := x mod two64.
Arguments wrap : simpl never.

Definition is_size_t (x : Z) : Prop := 0 <= x < two64.

(** ** Constants *)

(** Modelled from the spec: [KB] and [MB] are macros of common.h, which is
    not among the sources; the spec writes 4 KiB and 2 MiB. *)
Definition KB (x : Z) : Z := x * 1024.
Definition MB (x : Z) : Z := x * 1024 * 1024.

(** Modelled from the spec: [kPageSize] is declared in common.h; the spec
    says "page size P = 4 KiB". *)
Definition kPageSize : Z := 4096.

(** Modelled from the spec: [kHugepageSize] is declared in common.h; the
    spec says "Hugepage size H = 2 MiB". *)
Definition kHugepageSize : Z := 2097152.

(** [256 * 1024 * 1024 * 1024ull] *)
Definition kMaxAllocSize : Z := 274877906944.

(** Modelled from the spec: [round_up<kHugepageSize>] is a template of
    common.h; the spec calls it [round_up_to(n, H)], the request rounded up
    to a whole number of hugepages.  The result is a [size_t]. *)
Definition round_up (x : Z) : Z :=
  wrap ((x + (kHugepageSize - 1)) / kHugepageSize * kHugepageSize).

(** errno values tested by [reserve_hugepages] *)
Definition ENOMEM : Z := 12.
Definition EACCES : Z := 13.
Definition EEXIST : Z := 17.
Definition EINVAL : Z := 22.

(** [nullptr] *)
Definition nullptr : Z := 0.

(** ** Data *)

(** [struct shm_region_t] *)
Record shm_region_t := {
  key : Z;
  base_buf : Z;
  size : Z;
  cur_buf : Z;
  free_hugepages : Z
}.

(** The data members of [class HugeAllocator] ([slow_rand] belongs to the
    world below). *)
Record HugeAllocator := {
  numa_node : Z;
  shm_list : list shm_region_t;
  page_freelist : list Z;
  tot_free_hugepages : Z;
  prev_allocation_size : Z;
  tot_memory_reserved : Z;
  tot_memory_allocated : Z
}.

(** ** The world

    One [attempt] answers one turn of the [while (true)] loop of
    [reserve_hugepages]: the number drawn from [slow_rand], what [shmget]
    returns and the [errno] it leaves, and, for the turn that leaves the
    loop, what [shmat] and [mbind] return. *)
Record attempt := {
  att_rand : Z;
  att_shmget : Z;
  att_errno : Z;
  att_shmat : Z;
  att_mbind : Z
}.

(** A [shmget] call as the kernel saw it. *)
Record shm_call := {
  call_key : Z;
  call_size : Z;
  call_ret : Z;
  call_errno : Z
}.

Record world := {
  script : list attempt;            (* answers still to come *)
  segments : list (Z * Z);          (* attached segments: address, bytes *)
  shm_log : list shm_call           (* every shmget call so far *)
}.

Record machine := {
  self : HugeAllocator;
  os : world
}.

(** ** Outcomes of a call *)

Inductive runtime_error :=
| insufficient_permissions            (* EACCES *)
| shmmax_mismatch (sz : Z)            (* EINVAL *)
| unexpected_error (errno : Z).       (* default *)

(** The [assert]s of the file, by line. *)
Inductive assertion :=
| assert_region_size          (* size % kHugepageSize == 0 *)
| assert_initial_size         (* initial_size > 0 && initial_size <= kMaxAllocSize *)
| assert_numa_node            (* numa_node <= kMaxNumaNodes *)
| assert_freelist_nonempty    (* page_freelist.size() > 0 *)
| assert_page_aligned         (* (uintptr_t)page % KB(4) == 0 *)
| assert_huge_size            (* size >= kHugepageSize && size <= kMaxAllocSize *)
| assert_reserved_multiple    (* tot_memory_reserved % kHugepageSize == 0 *)
| assert_allocated_multiple   (* tot_memory_allocated % kPageSize == 0 *)
| assert_enough_hugepages.    (* shm_region.free_hugepages >= num_hugepages *)

(** The three [exit(-1)] of the allocation path. *)
Inductive exit_site :=
| exit_alloc_page             (* "We should never get here" *)
| exit_shmat
| exit_mbind.

Inductive res (A : Type) : Type :=
| Ok (a : A) (m : machine)                (* the call returns *)
| Throw (e : runtime_error) (m : machine) (* std::runtime_error leaves the call *)
| Exit (s : exit_site)                    (* the process exits *)
| AssertFail (a : assertion)              (* an assert aborts *)
| Undefined                               (* back() of an empty vector, a dangling reference *)
| Diverge                                 (* a loop of the allocator never ends *)
| Starved                                 (* the script has no answer left *)
| Unrealizable.                           (* the script answers what no kernel answers *)

Arguments Ok {A} a m.
Arguments Throw {A} e m.
Arguments Exit {A} s.
Arguments AssertFail {A} a.
Arguments Undefined {A}.
Arguments Diverge {A}.
Arguments Starved {A}.
Arguments Unrealizable {A}.

Definition M (A : Type) : Type := machine -> res A.

Definition ret {A} (a : A) : M A := fun m => Ok a m.

Definition bind {A B} (c : M A) (k : A -> M B) : M B := fun m =>
  match c m with
  | Ok a m' => k a m'
  | Throw e m' => Throw e m'
  | Exit s => Exit s
  | AssertFail a => AssertFail a
  | Undefined => Undefined
  | Diverge => Diverge
  | Starved => Starved
  | Unrealizable => Unrealizable
  end.

Declare Scope alloc_scope.
Delimit Scope alloc_scope with alloc.
Notation "'do' x <- c ; k" := (bind c (fun x => k))
  (at level 10, x name, c at level 100, k at level 200) : alloc_scope.
Local Open Scope alloc_scope.

Definition get : M HugeAllocator := fun m => Ok (self m) m.

Definition put (a : HugeAllocator) : M unit := fun m =>
  Ok tt {| self := a; os := os m |}.

Definition assert (a : assertion) (b : bool) : M unit := fun m =>
  if b then Ok tt m else AssertFail a.

(** Field updates *)
Definition set_shm_list (l : list shm_region_t) (a : HugeAllocator) :=
  {| numa_node := numa_node a; shm_list := l; page_freelist := page_freelist a;
     tot_free_hugepages := tot_free_hugepages a;
     prev_allocation_size := prev_allocation_size a;
     tot_memory_reserved := tot_memory_reserved a;
     tot_memory_allocated := tot_memory_allocated a |}.

Definition set_page_freelist (l : list Z) (a : HugeAllocator) :=
  {| numa_node := numa_node a; shm_list := shm_list a; page_freelist := l;
     tot_free_hugepages := tot_free_hugepages a;
     prev_allocation_size := prev_allocation_size a;
     tot_memory_reserved := tot_memory_reserved a;
     tot_memory_allocated := tot_memory_allocated a |}.

Definition set_tot_free_hugepages (n : Z) (a : HugeAllocator) :=
  {| numa_node := numa_node a; shm_list := shm_list a;
     page_freelist := page_freelist a; tot_free_hugepages := n;
     prev_allocation_size := prev_allocation_size a;
     tot_memory_reserved := tot_memory_reserved a;
     tot_memory_allocated := tot_memory_allocated a |}.

Definition set_prev_allocation_size (n : Z) (a : HugeAllocator) :=
  {| numa_node := numa_node a; shm_list := shm_list a;
     page_freelist := page_freelist a;
     tot_free_hugepages := tot_free_hugepages a; prev_allocation_size := n;
     tot_memory_reserved := tot_memory_reserved a;
     tot_memory_allocated := tot_memory_allocated a |}.

Definition set_tot_memory_reserved (n : Z) (a : HugeAllocator) :=
  {| numa_node := numa_node a; shm_list := shm_list a;
     page_freelist := page_freelist a;
     tot_free_hugepages := tot_free_hugepages a;
     prev_allocation_size := prev_allocation_size a;
     tot_memory_reserved := n;
     tot_memory_allocated := tot_memory_allocated a |}.

Definition set_tot_memory_allocated (n : Z) (a : HugeAllocator) :=
  {| numa_node := numa_node a; shm_list := shm_list a;
     page_freelist := page_freelist a;
     tot_free_hugepages := tot_free_hugepages a;
     prev_allocation_size := prev_allocation_size a;
     tot_memory_reserved := tot_memory_reserved a;
     tot_memory_allocated := n |}.

Definition modify (f : HugeAllocator -> HugeAllocator) : M unit := fun m =>
  Ok tt {| self := f (self m); os := os m |}.

Definition throw {A} (e : runtime_error) : M A := fun m => Throw e m.

Definition stop {A} (r : res A) : M A := fun _ => r.

(** ** The kernel side

    The script is free to answer anything, with two exceptions that make a
    run [Unrealizable]: [shmget] does not create a segment of 0 bytes (it
    fails with EINVAL below SHMMIN), and a mapping that [mbind] accepted is
    a range of the 64-bit address space that overlaps no segment attached
    before.  Failures of [shmat] and of [mbind] are answers like any
    other. *)

(** The byte ranges [x] and [y] (address, length) share no address. *)
Definition apart (x y : Z * Z) : bool :=
  (x.1 + x.2 <=? y.1) || (y.1 + y.2 <=? x.1).

(** What a kernel can hand out as a bound mapping: a range of at least one
    byte whose end is still an address, away from every segment that is
    attached already. *)
Definition mappable (segs : list (Z * Z)) (buf sz : Z) : bool :=
  (0 <? sz) && (0 <=? buf) && (buf + sz <? two64) &&
  forallb (apart (buf, sz)) segs.

(** [shmget(shm_key, size, IPC_CREAT | IPC_EXCL | 0666 | SHM_HUGETLB)]
    answered by [a]; [rest] is what remains of the script. *)
Definition sys_shmget (shm_key sz : Z) (a : attempt) (rest : list attempt)
  : M unit := fun m =>
  Ok tt {| self := self m;
           os := {| script := rest;
                    segments := segments (os m);
                    shm_log := shm_log (os m) ++
                      [{| call_key := shm_key; call_size := sz;
                          call_ret := att_shmget a;
                          call_errno := att_errno a |}] |} |}.

(** [shmat] followed by a successful [mbind]: the segment is attached at
    [buf]. *)
Definition sys_attach (buf sz : Z) : M unit := fun m =>
  if mappable (segments (os m)) buf sz then
    Ok tt {| self := self m;
             os := {| script := script (os m);
                      segments := segments (os m) ++ [(buf, sz)];
                      shm_log := shm_log (os m) |} |}
  else Unrealizable.

(** ** [HugeAllocator], private part *)

(** [static_cast<int>(slow_rand.next_u64())] *)
Definition to_int (u : Z) : Z :=
  let x := u mod 4294967296 in
  if x <? 2147483648 then x else x - 4294967296.

(** [std::abs] on [int] *)
Definition std_abs (x : Z) : Z := if x =? -2147483648 then x else Z.abs x.

(** [shm_region_t(int key, void *buf, size_t size)] *)
Definition shm_region_t_ctor (k buf sz : Z) : M shm_region_t :=
  do _ <- assert assert_region_size (sz mod kHugepageSize =? 0);
  ret {| key := k; base_buf := buf; size := sz; cur_buf := buf;
         free_hugepages := sz / kHugepageSize |}.

(** [pop_hugepages(shm_region, num_hugepages)]; the reference [shm_region]
    is the position [i] of the region in [shm_list]. *)
Definition pop_hugepages (i : nat) (num_hugepages : Z) : M unit :=
  do s <- get;
  match shm_list s !! i with
  | None => stop Undefined
  | Some shm_region =>
      do _ <- assert assert_enough_hugepages
                (num_hugepages <=? free_hugepages shm_region);
      let popped :=
        {| key := key shm_region;
           base_buf := base_buf shm_region;
           size := size shm_region;
           cur_buf := wrap (cur_buf shm_region +
                            wrap (num_hugepages * kHugepageSize));
           free_hugepages := wrap (free_hugepages shm_region - num_hugepages) |} in
      do _ <- modify (fun s => set_shm_list (<[i := popped]> (shm_list s)) s);
      modify (fun s =>
        set_tot_free_hugepages (wrap (tot_free_hugepages s - num_hugepages)) s)
  end.

(** The [while (true)] loop of [reserve_hugepages].  [None] is the
    [return false] of the ENOMEM case, [Some] the [break]. *)
Fixpoint shmget_loop (sz : Z) (answers : list attempt)
  : M (option (Z * Z * attempt)) :=
  match answers with
  | [] => stop Starved
  | a :: rest =>
      let shm_key := std_abs (to_int (att_rand a)) in
      do _ <- sys_shmget shm_key sz a rest;
      let shm_id := att_shmget a in
      if shm_id =? -1 then
        if att_errno a =? EEXIST then shmget_loop sz rest
        else if att_errno a =? EACCES then throw insufficient_permissions
        else if att_errno a =? EINVAL then throw (shmmax_mismatch sz)
        else if att_errno a =? ENOMEM then ret None
        else throw (unexpected_error (att_errno a))
      else if sz =? 0 then stop Unrealizable   (* SHMMIN is 1 *)
      else ret (Some (shm_key, shm_id, a))
  end.

(** [reserve_hugepages(size, numa_node)] *)
Definition reserve_hugepages (sz numa : Z) : M bool :=
  let sz := round_up sz in
  do found <- (fun m => shmget_loop sz (script (os m)) m);
  match found with
  | None => ret false
  | Some (shm_key, shm_id, a) =>
      let shm_buf := att_shmat a in
      if negb ((0 <=? shm_buf) && (shm_buf <? two64)) then stop Unrealizable
      else if shm_buf =? nullptr then stop (Exit exit_shmat)
      else
        let ret_mbind := att_mbind a in
        if negb (ret_mbind =? 0) then stop (Exit exit_mbind)
        else
          do _ <- sys_attach shm_buf sz;
          do r <- shm_region_t_ctor shm_key shm_buf sz;
          do _ <- modify (fun s => set_shm_list (shm_list s ++ [r]) s);
          do _ <- modify (fun s =>
            set_tot_free_hugepages
              (wrap (tot_free_hugepages s + sz / kHugepageSize)) s);
          do _ <- modify (fun s =>
            set_tot_memory_reserved (wrap (tot_memory_reserved s + sz)) s);
          ret true
  end.

(** ** [HugeAllocator], public part *)

(** The member initializer list of the constructor. *)
Definition member_init (initial_size numa : Z) : HugeAllocator :=
  {| numa_node := numa;
     shm_list := [];
     page_freelist := [];
     tot_free_hugepages := 0;
     prev_allocation_size := initial_size;
     tot_memory_reserved := 0;
     tot_memory_allocated := 0 |}.

Section Constructor.

(** [kMaxNumaNodes] is declared in common.h, which is not among the
    sources, and the spec gives no value for it. *)
Variable kMaxNumaNodes : Z.

(** [HugeAllocator(initial_size, numa_node)] in the world [w].  The value
    of [reserve_hugepages] is dropped, as in the source. *)
Definition HugeAllocator_ctor (initial_size numa : Z) (w : world) : res unit :=
  (do _ <- assert assert_initial_size
             ((0 <? initial_size) && (initial_size <=? kMaxAllocSize));
   do _ <- assert assert_numa_node (numa <=? kMaxNumaNodes);
   do _ <- reserve_hugepages initial_size numa;
   ret tt) {| self := member_init initial_size numa; os := w |}.

End Constructor.

(** [get_numa_node()] *)
Definition get_numa_node : M Z := do s <- get; ret (numa_node s).

(** [page_freelist.back(); page_freelist.pop_back();
    tot_memory_allocated += kPageSize; return free_page;] *)
Definition take_page : M Z :=
  do s <- get;
  match last (page_freelist s) with
  | None => stop Undefined
  | Some free_page =>
      do _ <- modify (fun s =>
        set_page_freelist (removelast (page_freelist s)) s);
      do _ <- modify (fun s =>
        set_tot_memory_allocated (wrap (tot_memory_allocated s + kPageSize)) s);
      ret free_page
  end.

(** [for (size_t i = 0; i < kHugepageSize; i += kPageSize)] pushing
    [cur_buf + i] *)
Fixpoint carve_loop (fuel : nat) (i cur : Z) : M unit :=
  match fuel with
  | O => stop Diverge
  | S fuel' =>
      if i <? kHugepageSize then
        let page_addr := wrap (cur + i) in
        do _ <- modify (fun s =>
          set_page_freelist (page_freelist s ++ [page_addr]) s);
        carve_loop fuel' (wrap (i + kPageSize)) cur
      else ret tt
  end.

(** What [alloc_page] does with the region it picks, [shm_region] at
    position [i]: carve its next hugepage into 4K pages and hand out one. *)
Definition carve_hugepage (i : nat) (shm_region : shm_region_t) : M Z :=
  do _ <- carve_loop 513 0 (cur_buf shm_region);
  do _ <- pop_hugepages i 1;
  do s <- get;
  do _ <- assert assert_freelist_nonempty
            (0 <? Z.of_nat (length (page_freelist s)));
  take_page.

(** The [for (shm_region_t &shm_region : shm_list)] loop of [alloc_page];
    [rest] are the regions from position [i] on.  Falling out of the loop
    leads to [exit(-1)]. *)
Fixpoint alloc_page_scan (i : nat) (rest : list shm_region_t) : M Z :=
  match rest with
  | [] => stop (Exit exit_alloc_page)
  | shm_region :: rest' =>
      if 0 <? free_hugepages shm_region then carve_hugepage i shm_region
      else alloc_page_scan (S i) rest'
  end.

(** [alloc_page()] *)
Definition alloc_page : M Z :=
  do s <- get;
  if negb (Z.of_nat (length (page_freelist s)) =? 0) then take_page
  else
    do success <-
      (if tot_free_hugepages s =? 0 then
         do _ <- modify (fun s =>
           set_prev_allocation_size (wrap (prev_allocation_size s * 2)) s);
         do s <- get;
         reserve_hugepages (prev_allocation_size s) (numa_node s)
       else ret true);
    if negb success then ret nullptr
    else
      do s <- get;
      alloc_page_scan 0 (shm_list s).

(** [free_page(page)] *)
Definition free_page (page : Z) : M unit :=
  do _ <- assert assert_page_aligned (page mod KB 4 =? 0);
  do _ <- modify (fun s => set_page_freelist (page_freelist s ++ [page]) s);
  modify (fun s =>
    set_tot_memory_allocated (wrap (tot_memory_allocated s - kPageSize)) s).

(** What [alloc_huge] does with the region it picks, [shm_region] at
    position [i]: take [reqd_hugepages] from its cursor on. *)
Definition bump (i : nat) (shm_region : shm_region_t)
    (reqd_hugepages sz : Z) : M Z :=
  let hugebuf_addr := cur_buf shm_region in
  do _ <- pop_hugepages i reqd_hugepages;
  do _ <- modify (fun s =>
    set_tot_memory_allocated (wrap (tot_memory_allocated s + sz)) s);
  ret hugebuf_addr.

(** The first [for] loop of [alloc_huge]; [None] when it falls through. *)
Fixpoint alloc_huge_scan (i : nat) (rest : list shm_region_t)
    (reqd_hugepages sz : Z) : M (option Z) :=
  match rest with
  | [] => ret None
  | shm_region :: rest' =>
      if reqd_hugepages <=? free_hugepages shm_region then
        do hugebuf_addr <- bump i shm_region reqd_hugepages sz;
        ret (Some hugebuf_addr)
      else alloc_huge_scan (S i) rest' reqd_hugepages sz
  end.

(** [while (prev_allocation_size < size) prev_allocation_size *= 2;] *)
Fixpoint grow_loop (fuel : nat) (sz : Z) : M unit :=
  match fuel with
  | O => stop Diverge
  | S fuel' =>
      do s <- get;
      if prev_allocation_size s <? sz then
        do _ <- modify (fun s =>
          set_prev_allocation_size (wrap (prev_allocation_size s * 2)) s);
        grow_loop fuel' sz
      else ret tt
  end.

(** [alloc_huge(size)] *)
Definition alloc_huge (sz : Z) : M Z :=
  do _ <- assert assert_huge_size
            ((kHugepageSize <=? sz) && (sz <=? kMaxAllocSize));
  let sz := round_up sz in
  let reqd_hugepages := sz / kHugepageSize in
  do s <- get;
  do found <- alloc_huge_scan 0 (shm_list s) reqd_hugepages sz;
  match found with
  | Some hugebuf_addr => ret hugebuf_addr
  | None =>
      do _ <- modify (fun s =>
        set_prev_allocation_size (wrap (prev_allocation_size s * 2)) s);
      do _ <- grow_loop 65 sz;
      do s <- get;
      do success <- reserve_hugepages (prev_allocation_size s) (numa_node s);
      if negb success then ret nullptr
      else
        do s <- get;
        match last (shm_list s) with
        | None => stop Undefined
        | Some shm_region =>
            bump (length (shm_list s) - 1) shm_region reqd_hugepages sz
        end
  end.

(** [get_reserved_memory()] *)
Definition get_reserved_memory : M Z :=
  do s <- get;
  do _ <- assert assert_reserved_multiple
            (tot_memory_reserved s mod kHugepageSize =? 0);
  ret (tot_memory_reserved s).

(** [get_allocated_memory()] *)
Definition get_allocated_memory : M Z :=
  do s <- get;
  do _ <- assert assert_allocated_multiple
            (tot_memory_allocated s mod kPageSize =? 0);
  ret (tot_memory_allocated s).


(** ** Executions *)

(** The public operations, as a caller issues them. *)
Inductive call :=
| call_alloc_page
| call_free_page (page : Z)
| call_alloc_huge (sz : Z)
| call_get_reserved_memory
| call_get_allocated_memory
| call_get_numa_node.

Inductive value :=
| val_ptr (p : Z)
| val_size (n : Z)
| val_void.

Definition invoke (c : call) : M value :=
  match c with
  | call_alloc_page => do p <- alloc_page; ret (val_ptr p)
  | call_free_page page => do _ <- free_page page; ret val_void
  | call_alloc_huge sz => do p <- alloc_huge sz; ret (val_ptr p)
  | call_get_reserved_memory => do n <- get_reserved_memory; ret (val_size n)
  | call_get_allocated_memory => do n <- get_allocated_memory; ret (val_size n)
  | call_get_numa_node => do n <- get_numa_node; ret (val_size n)
  end.

(** Arguments are a [void *] and a [size_t]. *)
Definition well_typed (c : call) : Prop :=
  match c with
  | call_free_page page => is_size_t page
  | call_alloc_huge sz => is_size_t sz
  | _ => True
  end.

(** The machine a call leaves behind, when the caller goes on: the call
    returned, or it threw and the exception was caught. *)
Definition after {A} (r : res A) : option machine :=
  match r with
  | Ok _ m => Some m
  | Throw _ m => Some m
  | _ => None
  end.

(** The world before the allocator exists: nothing attached, nothing
    asked. *)
Definition boot (answers : list attempt) : world :=
  {| script := answers; segments := []; shm_log := [] |}.

(** States of an allocator after its construction and any number of public
    operations, whatever the kernel answers and whatever [kMaxNumaNodes]
    is. *)
Inductive reachable : machine -> Prop :=
| reachable_ctor kMaxNumaNodes initial_size numa answers m :
    is_size_t initial_size ->
    is_size_t numa ->
    HugeAllocator_ctor kMaxNumaNodes initial_size numa (boot answers) = Ok tt m ->
    reachable m
| reachable_call c m m' :
    reachable m ->
    well_typed c ->
    after (invoke c m) = Some m' ->
    reachable m'.

(** *** Callers that keep track of what they hold *)

(** What a caller holds: the 4K pages it got and has not freed, and the
    huge buffers it got (address and length in bytes). *)
Record client := {
  live_pages : list Z;
  live_bufs : list (Z * Z)
}.

Definition no_buffers : client := {| live_pages := []; live_bufs := [] |}.

Fixpoint remove_one (p : Z) (l : list Z) : list Z :=
  match l with
  | [] => []
  | q :: l' => if p =? q then l' else q :: remove_one p l'
  end.

(** The caller's books after call [c] returned [v]. *)
Definition observe (c : call) (v : value) (k : client) : client :=
  match c, v with
  | call_alloc_page, val_ptr p =>
      if p =? nullptr then k
      else {| live_pages := p :: live_pages k; live_bufs := live_bufs k |}
  | call_free_page page, _ =>
      {| live_pages := remove_one page (live_pages k);
         live_bufs := live_bufs k |}
  | call_alloc_huge sz, val_ptr p =>
      if p =? nullptr then k
      else {| live_pages := live_pages k;
              live_bufs := (p, round_up sz) :: live_bufs k |}
  | _, _ => k
  end.

(** The discipline: only a page that is held is freed. *)
Definition allowed (k : client) (c : call) : Prop :=
  match c with
  | call_free_page page => page ∈ live_pages k
  | _ => True
  end.

Inductive run : machine -> client -> Prop :=
| run_ctor kMaxNumaNodes initial_size numa answers m :
    is_size_t initial_size ->
    is_size_t numa ->
    HugeAllocator_ctor kMaxNumaNodes initial_size numa (boot answers) = Ok tt m ->
    run m no_buffers
| run_ret c m k v m' :
    run m k ->
    well_typed c ->
    allowed k c ->
    invoke c m = Ok v m' ->
    run m' (observe c v k)
| run_throw c m k e m' :
    run m k ->
    well_typed c ->
    allowed k c ->
    invoke c m = Throw e m' ->
    run m' k.

(** ** Invariants *)

Definition sumZ (l : list Z) : Z := foldr Z.add 0 l.
Arguments sumZ : simpl never.

(** Byte ranges as (address, length). *)
Definition extent (r : shm_region_t) : Z * Z := (base_buf r, size r).

Definition page_range (p : Z) : Z * Z := (p, kPageSize).

(** Bytes of a region that lie before its cursor. *)
Definition consumed (r : shm_region_t) : Z :=
  size r - free_hugepages r * kHugepageSize.

Fixpoint all_apart (l : list (Z * Z)) : Prop :=
  match l with
  | [] => True
  | x :: l' => Forall (fun y => apart x y = true) l' /\ all_apart l'
  end.

Record region_ok (r : shm_region_t) : Prop := {
  ok_base : 0 < base_buf r;
  ok_size : 0 < size r;
  ok_end : base_buf r + size r < two64;
  ok_whole : size r mod kHugepageSize = 0;
  ok_free : 0 <= free_hugepages r;
  ok_room : free_hugepages r * kHugepageSize <= size r;
  ok_cursor : cur_buf r = base_buf r + consumed r
}.

Record invariant (m : machine) : Prop := {
  inv_segments : segments (os m) = map extent (shm_list (self m));
  inv_apart : all_apart (segments (os m));
  inv_regions : Forall region_ok (shm_list (self m));
  inv_free :
    tot_free_hugepages (self m) = sumZ (map free_hugepages (shm_list (self m)));
  inv_reserved :
    tot_memory_reserved (self m) = sumZ (map size (shm_list (self m)));
  inv_prev : is_size_t (prev_allocation_size (self m))
}.

(** The range [x] lies in the part of some region that the cursor has
    passed. *)
Definition inside_carved (rs : list shm_region_t) (x : Z * Z) : Prop :=
  0 < x.2 /\
  exists i r, rs !! i = Some r /\ base_buf r <= x.1 /\ x.1 + x.2 <= cur_buf r.

(** Every range the allocator has carved: the free pages, the pages held
    and the huge buffers held. *)
Definition owned (m : machine) (k : client) : list (Z * Z) :=
  map page_range (page_freelist (self m)) ++
  map page_range (live_pages k) ++ live_bufs k.

Record client_invariant (m : machine) (k : client) : Prop := {
  ci_inv : invariant m;
  ci_inside : Forall (inside_carved (shm_list (self m))) (owned m k);
  ci_apart : all_apart (owned m k);
  ci_bytes :
    sumZ (map snd (owned m k)) = sumZ (map consumed (shm_list (self m)));
  ci_allocated :
    tot_memory_allocated (self m) =
    kPageSize * Z.of_nat (length (live_pages k)) +
    sumZ (map snd (live_bufs k))
}.

(** ** Vocabulary of the properties *)

Definition with_self (f : HugeAllocator -> HugeAllocator) (m : machine) : machine :=
  {| self := f (self m); os := os m |}.

(** The kernel answered ENOMEM. *)
Definition out_of_hugepages (c : shm_call) : Prop :=
  call_ret c = -1 /\ call_errno c = ENOMEM.

(** Between [m] and [m'] the acquirer asked the kernel and its last
    [shmget] failed with ENOMEM. *)
Definition acquirer_failed (m m' : machine) : Prop :=
  exists calls c,
    shm_log (os m') = shm_log (os m) ++ calls ++ [c] /\ out_of_hugepages c.

(** Between [m] and [m'] the acquirer asked the kernel, every time for
    [sz] bytes. *)
Definition acquirer_asked (sz : Z) (m m' : machine) : Prop :=
  exists calls c,
    shm_log (os m') = shm_log (os m) ++ calls ++ [c] /\
    Forall (fun c => call_size c = sz) (calls ++ [c]).

(** The 4K pages of the hugepage at [cur], lowest first. *)
Definition sub_pages (cur : Z) (n : nat) : list Z :=
  map (fun j => cur + Z.of_nat j * kPageSize) (seq 0 n).
Arguments sub_pages : simpl never.

(** No region can give [k] hugepages: the first loop of [alloc_huge] falls
    through. *)
Definition no_region_fits (k : Z) (rs : list shm_region_t) : Prop :=
  Forall (fun r => free_hugepages r < k) rs.

(** The growth rule in the spec's words: [prev] doubled, and doubled again
    until it is at least [need]. *)
Definition grown_to (prev need p : Z) : Prop :=
  exists j : nat,
    p = prev * 2 ^ (Z.of_nat j + 1) /\
    need <= p /\
    (forall i : nat, (i < j)%nat -> prev * 2 ^ (Z.of_nat i + 1) < need).

(** A region after [pop_hugepages] took [n] hugepages from it. *)
Definition pop_region (r : shm_region_t) (n : Z) : shm_region_t :=
  {| key := key r;
     base_buf := base_buf r;
     size := size r;
     cur_buf := wrap (cur_buf r + wrap (n * kHugepageSize));
     free_hugepages := wrap (free_hugepages r - n) |}.

(** The allocator after [pop_hugepages] on the region at position [i]. *)
Definition popped (i : nat) (r : shm_region_t) (n : Z) (s : HugeAllocator)
  : HugeAllocator :=
  set_tot_free_hugepages (wrap (tot_free_hugepages s - n))
    (set_shm_list (<[i := pop_region r n]> (shm_list s)) s).

(** A region as [shm_region_t]'s constructor builds it. *)
Definition fresh_region (k buf sz : Z) : shm_region_t :=
  {| key := k; base_buf := buf; size := sz; cur_buf := buf;
     free_hugepages := sz / kHugepageSize |}.

(** The allocator after [reserve_hugepages] recorded the region [r]. *)
Definition recorded (r : shm_region_t) (s : HugeAllocator) : HugeAllocator :=
  set_tot_memory_reserved (wrap (tot_memory_reserved s + size r))
    (set_tot_free_hugepages
       (wrap (tot_free_hugepages s + size r / kHugepageSize))
       (set_shm_list (shm_list s ++ [r]) s)).

(** The allocator after a page left the freelist for the caller. *)
Definition page_taken (fl : list Z) (s : HugeAllocator) : HugeAllocator :=
  set_tot_memory_allocated (wrap (tot_memory_allocated s + kPageSize))
    (set_page_freelist fl s).

(** The allocator after [alloc_page] carved the next hugepage of the region
    [r] at position [i] into an empty freelist and handed out the last of
    its pages. *)
Definition carved (i : nat) (r : shm_region_t) (s : HugeAllocator)
  : HugeAllocator :=
  page_taken (sub_pages (cur_buf r) 511) (popped i r 1 s).

(** The allocator after [alloc_huge] took [k] hugepages, [sz] bytes, from
    the region [r] at position [i]. *)
Definition bumped (i : nat) (r : shm_region_t) (k sz : Z) (s : HugeAllocator)
  : HugeAllocator :=
  set_tot_memory_allocated (wrap (tot_memory_allocated s + sz))
    (popped i r k s).

(** [r], at position [i], is the first region of [rs] with at least [k]
    free hugepages. *)
Definition first_with (k : Z) (rs : list shm_region_t) (i : nat)
    (r : shm_region_t) : Prop :=
  rs !! i = Some r /\ k <= free_hugepages r /\
  (forall j y, rs !! j = Some y -> (j < i)%nat -> free_hugepages y < k).

(** What the acquirer, asked for [p] bytes after [prev_allocation_size]
    became [p], made of [m]: a new region, *)
Definition acquired (p : Z) (m m1 : machine) : Prop :=
  exists k buf calls c,
    buf <> nullptr /\
    mappable (segments (os m)) buf (round_up p) = true /\
    self m1 = recorded (fresh_region k buf (round_up p))
                (set_prev_allocation_size p (self m)) /\
    segments (os m1) = segments (os m) ++ [(buf, round_up p)] /\
    shm_log (os m1) = shm_log (os m) ++ calls ++ [c] /\
    Forall (fun c => call_size c = round_up p) (calls ++ [c]) /\
    call_ret c <> -1.

(** or nothing, the kernel being out of hugepages, *)
Definition refused (p : Z) (m m1 : machine) : Prop :=
  self m1 = set_prev_allocation_size p (self m) /\
  segments (os m1) = segments (os m) /\
  exists calls c,
    shm_log (os m1) = shm_log (os m) ++ calls ++ [c] /\
    Forall (fun c => call_size c = round_up p) (calls ++ [c]) /\
    out_of_hugepages c.

(** or nothing, with an exception. *)
Definition broke (p : Z) (m m1 : machine) : Prop :=
  self m1 = set_prev_allocation_size p (self m) /\
  segments (os m1) = segments (os m) /\
  exists calls c,
    shm_log (os m1) = shm_log (os m) ++ calls ++ [c] /\
    Forall (fun c => call_size c = round_up p) (calls ++ [c]) /\
    ~ out_of_hugepages c.

(** [prev_allocation_size *= 2] *)
Definition twice (x : Z) : Z := wrap (x * 2).

(** [prev] after [j + 1] executions of [prev_allocation_size *= 2]. *)
Definition doubled (prev : Z) (j : nat) : Z :=
  wrap (prev * 2 ^ (Z.of_nat j + 1)).

(** The growth of [alloc_huge] as the code computes it: the first of
    [doubled prev 0], [doubled prev 1], ... that is not below [need]. *)
Definition grows_to (prev need p : Z) : Prop :=
  exists j : nat,
    p = doubled prev j /\ need <= p /\
    (forall i : nat, (i < j)%nat -> doubled prev i < need).

(** Everything [alloc_page] can do in the state [m]. *)
Inductive alloc_page_does (m : machine) : res Z -> Prop :=
| page_popped fl p :
    page_freelist (self m) = fl ++ [p] ->
    alloc_page_does m (Ok p (with_self (page_taken fl) m))
| page_carved m1 i r :
    page_freelist (self m) = [] ->
    (tot_free_hugepages (self m) <> 0 /\ m1 = m \/
     tot_free_hugepages (self m) = 0 /\
     acquired (wrap (prev_allocation_size (self m) * 2)) m m1) ->
    invariant m1 ->
    first_with 1 (shm_list (self m1)) i r ->
    alloc_page_does m
      (Ok (cur_buf r + (kHugepageSize - kPageSize)) (with_self (carved i r) m1))
| page_refused m1 :
    page_freelist (self m) = [] ->
    tot_free_hugepages (self m) = 0 ->
    refused (wrap (prev_allocation_size (self m) * 2)) m m1 ->
    alloc_page_does m (Ok nullptr m1)
| page_broke e m1 :
    page_freelist (self m) = [] ->
    tot_free_hugepages (self m) = 0 ->
    broke (wrap (prev_allocation_size (self m) * 2)) m m1 ->
    alloc_page_does m (Throw e m1)
| page_exit s :
    s <> exit_alloc_page ->
    alloc_page_does m (Exit s)
| page_starved : alloc_page_does m Starved
| page_unrealizable : alloc_page_does m Unrealizable.

(** Everything [alloc_huge(sz)] can do in the state [m]. *)
Inductive alloc_huge_does (sz : Z) (m : machine) : res Z -> Prop :=
| huge_bad_size :
    ~ (kHugepageSize <= sz <= kMaxAllocSize) ->
    alloc_huge_does sz m (AssertFail assert_huge_size)
| huge_fitted i r :
    kHugepageSize <= sz <= kMaxAllocSize ->
    first_with (round_up sz / kHugepageSize) (shm_list (self m)) i r ->
    alloc_huge_does sz m
      (Ok (cur_buf r)
          (with_self (bumped i r (round_up sz / kHugepageSize) (round_up sz)) m))
| huge_grown q m1 r :
    kHugepageSize <= sz <= kMaxAllocSize ->
    no_region_fits (round_up sz / kHugepageSize) (shm_list (self m)) ->
    grows_to (prev_allocation_size (self m)) (round_up sz) q ->
    acquired q m m1 ->
    invariant m1 ->
    last (shm_list (self m1)) = Some r ->
    cur_buf r = base_buf r ->
    round_up sz / kHugepageSize <= free_hugepages r ->
    alloc_huge_does sz m
      (Ok (cur_buf r)
          (with_self (bumped (length (shm_list (self m))) r
                        (round_up sz / kHugepageSize) (round_up sz)) m1))
| huge_refused q m1 :
    kHugepageSize <= sz <= kMaxAllocSize ->
    no_region_fits (round_up sz / kHugepageSize) (shm_list (self m)) ->
    grows_to (prev_allocation_size (self m)) (round_up sz) q ->
    refused q m m1 ->
    alloc_huge_does sz m (Ok nullptr m1)
| huge_broke q e m1 :
    kHugepageSize <= sz <= kMaxAllocSize ->
    no_region_fits (round_up sz / kHugepageSize) (shm_list (self m)) ->
    grows_to (prev_allocation_size (self m)) (round_up sz) q ->
    broke q m m1 ->
    alloc_huge_does sz m (Throw e m1)
| huge_diverges :
    kHugepageSize <= sz <= kMaxAllocSize ->
    no_region_fits (round_up sz / kHugepageSize) (shm_list (self m)) ->
    (forall j, doubled (prev_allocation_size (self m)) j < round_up sz) ->
    alloc_huge_does sz m Diverge
| huge_exit s :
    s <> exit_alloc_page ->
    alloc_huge_does sz m (Exit s)
| huge_starved : alloc_huge_does sz m Starved
| huge_unrealizable : alloc_huge_does sz m Unrealizable.

(** Every region of [rs] is still there in [rs'], with its cursor not
    moved back. *)
Definition registry_grows (rs rs' : list shm_region_t) : Prop :=
  forall i r, rs !! i = Some r ->
    exists r', rs' !! i = Some r' /\ base_buf r' = base_buf r /\
               size r' = size r /\ cur_buf r <= cur_buf r'.

(** What a caller holds, as byte ranges. *)
Definition held (k : client) : list (Z * Z) :=
  map page_range (live_pages k) ++ live_bufs k.

(** ** Sample kernels *)

(** The kernel gives a segment and attaches it at [buf]. *)
Definition grant (buf : Z) : attempt :=
  {| att_rand := 5; att_shmget := 3; att_errno := 0;
     att_shmat := buf; att_mbind := 0 |}.

(** The kernel is out of hugepages. *)
Definition deny : attempt :=
  {| att_rand := 7; att_shmget := -1; att_errno := ENOMEM;
     att_shmat := 0; att_mbind := 0 |}.

(** The machine an outcome leaves, for outcomes that leave one. *)
Definition left_by {A} (r : res A) (otherwise : machine) : machine :=
  match after r with
  | Some m => m
  | None => otherwise
  end.

Definition nowhere : machine :=
  {| self := member_init 0 0; os := boot [] |}.

(** A 2 MiB allocator on a kernel that has two more segments to give and
    then none. *)
Definition m_2M : machine :=
  left_by (HugeAllocator_ctor 8 2097152 0
             (boot [grant 1073741824; grant 2147483648; deny])) nowhere.

(** An allocator whose construction met a kernel without hugepages. *)
Definition m_starved : machine :=
  left_by (HugeAllocator_ctor 8 2097152 0 (boot [deny; deny])) nowhere.

(** A 2.75 MiB allocator. *)
Definition m_odd : machine :=
  left_by (HugeAllocator_ctor 8 2883584 0
             (boot [grant 1073741824; grant 2147483648])) nowhere.

(** The caller of [m_2M] frees a null pointer. *)
Definition m_null_freed : machine :=
  left_by (free_page nullptr m_2M) nowhere.

(** [m_odd] after [alloc_huge] for 5.5 MiB. *)
Definition m_odd_huge : machine :=
  left_by (alloc_huge 5767168 m_odd) nowhere.

(** [m_2M] after one and after two [alloc_page], and what the caller then
    holds. *)
Definition m_one_page : machine := left_by (alloc_page m_2M) nowhere.

Definition k_one_page : client :=
  {| live_pages := [1075834880]; live_bufs := [] |}.

Definition m_two_pages : machine := left_by (alloc_page m_one_page) nowhere.

Definition k_two_pages : client :=
  {| live_pages := [1075830784; 1075834880]; live_bufs := [] |}.

(** ** Teardown

    [~HugeAllocator] and [delete_shm] talk to the kernel again; their answers
    come from a script of their own, one [removal] for each call of
    [delete_shm]. *)

Definition ENOENT : Z := 2.

Record removal := {
  rm_shmget : Z;      (* shmget(shm_key, 0, 0) *)
  rm_errno : Z;
  rm_shmctl : Z;      (* shmctl(shmid, IPC_RMID, nullptr) *)
  rm_shmdt : Z        (* shmdt(shm_buf) *)
}.

(** The system calls of teardown, as the kernel sees them. *)
Inductive rm_call :=
| shmget_call (shm_key : Z)
| shmctl_call (shmid : Z)
| shmdt_call (shm_buf : Z).

(** The five ways of [delete_shm] into [exit(-1)], by what it prints. *)
Inductive rm_exit :=
| rm_no_permission              (* EACCES *)
| rm_no_such_key                (* ENOENT *)
| rm_wild_error (errno : Z)     (* default *)
| rm_not_removed (shmid : Z)    (* shmctl failed *)
| rm_not_detached (shm_buf : Z) (* shmdt failed *).

(** [delete_shm(shm_key, shm_buf)] answered by [a]: the calls made and,
    when the process exits, why. *)
Definition delete_shm (shm_key shm_buf : Z) (a : removal)
  : list rm_call * option rm_exit :=
  let shmid := rm_shmget a in
  if shmid =? -1 then
    ([shmget_call shm_key],
     Some (if rm_errno a =? EACCES then rm_no_permission
           else if rm_errno a =? ENOENT then rm_no_such_key
           else rm_wild_error (rm_errno a)))
  else
    let ret := rm_shmctl a in
    if negb (ret =? 0) then
      ([shmget_call shm_key; shmctl_call shmid], Some (rm_not_removed shmid))
    else
      let ret := rm_shmdt a in
      if negb (ret =? 0) then
        ([shmget_call shm_key; shmctl_call shmid; shmdt_call shm_buf],
         Some (rm_not_detached shm_buf))
      else
        ([shmget_call shm_key; shmctl_call shmid; shmdt_call shm_buf], None).

(** How teardown ends. *)
Inductive torn :=
| torn_down                     (* the destructor returns *)
| torn_exit (s : rm_exit)       (* exit(-1) inside delete_shm *)
| torn_starved.                 (* the script has no answer left *)

(** The loop of [~HugeAllocator] over the regions [rs]. *)
Fixpoint dtor_loop (rs : list shm_region_t) (answers : list removal)
  : list rm_call * torn :=
  match rs with
  | [] => ([], torn_down)
  | shm_region :: rs' =>
      match answers with
      | [] => ([], torn_starved)
      | a :: answers' =>
          match delete_shm (key shm_region) (base_buf shm_region) a with
          | (calls, Some s) => (calls, torn_exit s)
          | (calls, None) =>
              let (more, t) := dtor_loop rs' answers' in (calls ++ more, t)
          end
      end
  end.

(** [~HugeAllocator()] *)
Definition HugeAllocator_dtor (s : HugeAllocator) (answers : list removal)
  : list rm_call * torn :=
  dtor_loop (shm_list s) answers.

(** The kernel finds the key, removes the segment and detaches it. *)
Definition removes (a : removal) : Prop :=
  rm_shmget a <> -1 /\ rm_shmctl a = 0 /\ rm_shmdt a = 0.

(** The keys looked up and the buffers handed to [shmdt], in call order. *)
Definition keys_asked (calls : list rm_call) : list Z :=
  omap (fun c => match c with shmget_call k => Some k | _ => None end) calls.

Definition bufs_detached (calls : list rm_call) : list Z :=
  omap (fun c => match c with shmdt_call b => Some b | _ => None end) calls.

(** ** Callers that free and allocate in a row *)

(** [free_page] on each of [pages], first to last. *)
Fixpoint free_pages (pages : list Z) : M unit :=
  match pages with
  | [] => ret tt
  | page :: pages' => do _ <- free_page page; free_pages pages'
  end.

(** [n] calls of [alloc_page]; the results in call order. *)
Fixpoint alloc_pages (n : nat) : M (list Z) :=
  match n with
  | O => ret []
  | S n' => do p <- alloc_page; do ps <- alloc_pages n'; ret (p :: ps)
  end.

(** ** Machines up to the log of the kernel *)

(** [m] without the record of the [shmget] calls made. *)
Definition forget_log (m : machine) : machine :=
  {| self := self m;
     os := {| script := script (os m); segments := segments (os m);
              shm_log := [] |} |}.

Definition res_map {A} (f : machine -> machine) (r : res A) : res A :=
  match r with
  | Ok a m => Ok a (f m)
  | Throw e m => Throw e (f m)
  | Exit s => Exit s
  | AssertFail a => AssertFail a
  | Undefined => Undefined
  | Diverge => Diverge
  | Starved => Starved
  | Unrealizable => Unrealizable
  end.

(** An answer of [shmget] that says the key is taken. *)
Definition collision (a : attempt) : Prop :=
  att_shmget a = -1 /\ att_errno a = EEXIST.

(** [m] with [answers] as the script of the kernel. *)
Definition with_script (answers : list attempt) (m : machine) : machine :=
  {| self := self m;
     os := {| script := answers; segments := segments (os m);
              shm_log := shm_log (os m) |} |}.

(** A computation that does not look at the log. *)
Definition log_blind {A} (c : M A) : Prop :=
  forall m1 m2, forget_log m1 = forget_log m2 ->
    res_map forget_log (c m1) = res_map forget_log (c m2).

(** What an exception of [reserve_hugepages] says about the [errno] that
    the last [shmget], asked for [sz] bytes, left. *)
Definition tells (e : runtime_error) (sz errno : Z) : Prop :=
  match e with
  | insufficient_permissions => errno = EACCES
  | shmmax_mismatch n => errno = EINVAL /\ n = sz
  | unexpected_error n =>
      n = errno /\ errno <> EEXIST /\ errno <> EACCES /\ errno <> EINVAL /\
      errno <> ENOMEM
  end.

(** ** Alignment *)

(** Every region of [rs] starts at a multiple of [a] bytes. *)
Definition bases_aligned (a : Z) (rs : list shm_region_t) : Prop :=
  Forall (fun r => base_buf r mod a = 0) rs.

(** ** More sample kernels and states *)

(** The kernel refuses for want of permission. *)
Definition no_access : attempt :=
  {| att_rand := 9; att_shmget := -1; att_errno := EACCES;
     att_shmat := 0; att_mbind := 0 |}.

(** The key is taken. *)
Definition taken : attempt :=
  {| att_rand := 11; att_shmget := -1; att_errno := EEXIST;
     att_shmat := 0; att_mbind := 0 |}.

(** [m_2M] after a caller freed a page that it never got. *)
Definition m_stray_free : machine := left_by (free_page 4096 m_2M) nowhere.

(** A 2 MiB allocator whose only hugepage went to [alloc_huge], on a kernel
    that will refuse the next segment for want of permission. *)
Definition m_spent : machine :=
  left_by (alloc_huge 2097152
             (left_by (HugeAllocator_ctor 8 2097152 0
                         (boot [grant 1073741824; no_access])) nowhere))
    nowhere.

(** An allocator of 256 GiB on a kernel without hugepages, after 26 calls
    of [alloc_page]. *)
Definition m_wrapped : machine :=
  Nat.iter 26 (fun m => left_by (alloc_page m) m)
    (left_by (HugeAllocator_ctor 8 274877906944 0 (boot (repeat deny 27)))
       nowhere).

(** The kernel finds the segment and removes it. *)
Definition removing : removal :=
  {| rm_shmget := 3; rm_errno := 0; rm_shmctl := 0; rm_shmdt := 0 |}.

(** The key is gone. *)
Definition missing : removal :=
  {| rm_shmget := -1; rm_errno := ENOENT; rm_shmctl := 0; rm_shmdt := 0 |}.

(** [m_2M] after a huge buffer of 4 MiB, which took a second region. *)
Definition m_two_regions : machine :=
  left_by (alloc_huge 4194304 m_2M) nowhere.

(** * Arithmetic *)

Ltac consts :=
  unfold is_size_t, round_up, wrap, two64, kHugepageSize, kPageSize,
    kMaxAllocSize, KB, MB, nullptr in *.

Lemma wrap_small x : 0 <= x < two64 -> wrap x = x.
Proof. consts. intros. apply Z.mod_small. lia. Qed.

Lemma wrap_range x : 0 <= wrap x < two64.
Proof. consts. Z.div_mod_to_equations. lia. Qed.

Lemma round_up_whole x : round_up x mod kHugepageSize = 0.
Proof. consts. Z.div_mod_to_equations. lia. Qed.

Lemma round_up_range x : 0 <= round_up x < two64.
Proof. apply wrap_range. Qed.

Lemma round_up_ge x :
  0 <= x < two64 -> round_up x <> 0 -> x <= round_up x < x + kHugepageSize.
Proof. consts. intros. Z.div_mod_to_equations. lia. Qed.

Lemma round_up_small x :
  0 <= x <= kMaxAllocSize ->
  x <= round_up x < x + kHugepageSize /\ round_up x <= kMaxAllocSize.
Proof. consts. intros. Z.div_mod_to_equations. lia. Qed.

Lemma whole_hugepages sz :
  0 <= sz -> sz mod kHugepageSize = 0 -> sz / kHugepageSize * kHugepageSize = sz.
Proof. consts. intros. Z.div_mod_to_equations. lia. Qed.

(** * Lists of numbers and of ranges *)

Lemma sumZ_nil : sumZ [] = 0.
Proof. reflexivity. Qed.

Lemma sumZ_cons x l : sumZ (x :: l) = x + sumZ l.
Proof. reflexivity. Qed.

Ltac sums := cbn [map] in *; rewrite ?sumZ_cons, ?sumZ_nil in *.

Lemma sumZ_app l l' : sumZ (l ++ l') = sumZ l + sumZ l'.
Proof. unfold sumZ. induction l; simpl; lia. Qed.

Lemma sumZ_perm l l' : l ≡ₚ l' -> sumZ l = sumZ l'.
Proof. unfold sumZ. induction 1; simpl; lia. Qed.

Lemma apart_sym x y : apart x y = apart y x.
Proof. unfold apart. apply orb_comm. Qed.

Lemma all_apart_perm l l' : l ≡ₚ l' -> all_apart l -> all_apart l'.
Proof.
  induction 1 as [|x l l' Hp IH|x y l|l l' l'' _ IH1 _ IH2]; simpl; auto.
  - intros [Hx Hl]. split; [by rewrite <- Hp | auto].
  - intros [Hy [Hx Hl]]. inversion Hy as [|? ? Hyx Hyl]; subst.
    repeat split; auto. constructor; auto. by rewrite apart_sym.
Qed.

Lemma all_apart_app l l' :
  all_apart (l ++ l') <->
  all_apart l /\ all_apart l' /\
  Forall (fun x => Forall (fun y => apart x y = true) l') l.
Proof.
  induction l as [|x l IH]; simpl.
  - intuition.
  - rewrite Forall_app, IH, Forall_cons. tauto.
Qed.

Lemma all_apart_snoc l x :
  all_apart (l ++ [x]) <-> all_apart l /\ Forall (fun y => apart x y = true) l.
Proof.
  rewrite all_apart_app. simpl. split.
  - intros (Hl & _ & H). split; [done|].
    eapply Forall_impl; [exact H|]. intros y Hy. inversion Hy; subst.
    by rewrite apart_sym.
  - intros [Hl H]. repeat split; auto.
    eapply Forall_impl; [exact H|]. intros y Hy. constructor; [|constructor].
    by rewrite apart_sym.
Qed.

Lemma all_apart_lookup l i j x y :
  all_apart l -> i <> j -> l !! i = Some x -> l !! j = Some y ->
  apart x y = true.
Proof.
  revert i j. induction l as [|z l IH]; intros i j Hl Hij Hi Hj; [done|].
  destruct Hl as [Hz Hl]. destruct i as [|i], j as [|j]; simpl in *.
  - done.
  - inversion Hi; subst. rewrite Forall_forall in Hz. apply Hz.
    eapply list_elem_of_lookup_2; eauto.
  - inversion Hj; subst. rewrite apart_sym. rewrite Forall_forall in Hz.
    apply Hz. eapply list_elem_of_lookup_2; eauto.
  - apply (IH i j); auto with lia.
Qed.

(** * The steps of the allocator, one by one *)

Ltac monad :=
  unfold bind, get, put, modify, ret, assert, stop, throw in *.

Lemma pop_hugepages_ok i n m r :
  shm_list (self m) !! i = Some r ->
  n <= free_hugepages r ->
  pop_hugepages i n m = Ok tt (with_self (popped i r n) m).
Proof.
  intros Hi Hn. unfold pop_hugepages. monad. cbn beta. rewrite Hi.
  destruct (Z.leb_spec n (free_hugepages r)); [reflexivity | lia].
Qed.

Lemma pop_hugepages_short i n m r :
  shm_list (self m) !! i = Some r ->
  free_hugepages r < n ->
  pop_hugepages i n m = AssertFail assert_enough_hugepages.
Proof.
  intros Hi Hn. unfold pop_hugepages. monad. cbn beta. rewrite Hi.
  destruct (Z.leb_spec n (free_hugepages r)); [lia | reflexivity].
Qed.

Lemma take_page_ok fl p m :
  page_freelist (self m) = fl ++ [p] ->
  take_page m = Ok p (with_self (page_taken fl) m).
Proof.
  intros Hfl. unfold take_page. monad. cbn beta. rewrite Hfl, last_snoc.
  unfold with_self, page_taken. cbn. rewrite Hfl, removelast_last.
  reflexivity.
Qed.

(** The pages pushed by the inner loop of [alloc_page], as it computes
    them. *)
Lemma carve_loop_from fuel : forall (j : nat) cur m,
  (j <= 512)%nat -> (512 - j < fuel)%nat ->
  carve_loop fuel (Z.of_nat j * kPageSize) cur m =
  Ok tt (with_self (fun s => set_page_freelist
    (page_freelist s ++
     map (fun j => wrap (cur + Z.of_nat j * kPageSize)) (seq j (512 - j))) s) m).
Proof.
  induction fuel as [|fuel IH]; intros j cur m Hj Hfuel; [lia|].
  cbn [carve_loop].
  destruct (Z.ltb_spec (Z.of_nat j * kPageSize) kHugepageSize) as [Hlt|Hge].
  - assert (j < 512)%nat by (consts; lia).
    monad. cbn beta.
    replace (wrap (Z.of_nat j * kPageSize + kPageSize))
      with (Z.of_nat (S j) * kPageSize)
      by (rewrite wrap_small; consts; lia).
    rewrite IH by lia.
    replace (512 - j)%nat with (S (512 - S j)) by lia.
    unfold with_self. cbn. rewrite <- app_assoc. reflexivity.
  - assert (j = 512)%nat as -> by (consts; lia).
    monad. destruct m as [[] ?]. unfold with_self. cbn.
    rewrite app_nil_r. reflexivity.
Qed.

Lemma carve_loop_ok cur m :
  carve_loop 513 0 cur m =
  Ok tt (with_self (fun s => set_page_freelist
    (page_freelist s ++
     map (fun j => wrap (cur + Z.of_nat j * kPageSize)) (seq 0 512)) s) m).
Proof. apply (carve_loop_from 513 0); lia. Qed.

Lemma sub_pages_plain cur n :
  0 <= cur -> cur + Z.of_nat n * kPageSize <= two64 ->
  map (fun j => wrap (cur + Z.of_nat j * kPageSize)) (seq 0 n) = sub_pages cur n.
Proof.
  intros H0 Hn. unfold sub_pages. apply map_ext_in. intros j Hj.
  apply in_seq in Hj. apply wrap_small. consts. lia.
Qed.

Lemma sub_pages_S cur n :
  sub_pages cur (S n) = sub_pages cur n ++ [cur + Z.of_nat n * kPageSize].
Proof. unfold sub_pages. rewrite seq_S, map_app. reflexivity. Qed.

Lemma length_sub_pages cur n : length (sub_pages cur n) = n.
Proof. unfold sub_pages. by rewrite length_map, length_seq. Qed.

Lemma bind_ok {A B} (c : M A) (k : A -> M B) m a m' :
  c m = Ok a m' -> bind c k m = k a m'.
Proof. unfold bind. by intros ->. Qed.

(** The body of the scan of [alloc_page], for any freelist. *)
Lemma carve_hugepage_ok i r m :
  shm_list (self m) !! i = Some r ->
  1 <= free_hugepages r ->
  carve_hugepage i r m =
  Ok (wrap (cur_buf r + 511 * kPageSize))
     (with_self (fun s =>
        page_taken
          (page_freelist s ++
           map (fun j => wrap (cur_buf r + Z.of_nat j * kPageSize)) (seq 0 511))
          (popped i r 1 s)) m).
Proof.
  intros Hi Hfree. unfold carve_hugepage.
  rewrite (bind_ok _ _ _ _ _ (carve_loop_ok _ _)).
  erewrite bind_ok; [|apply (pop_hugepages_ok i 1 _ r); [exact Hi | lia]].
  unfold bind at 1, get. unfold bind at 1, assert.
  match goal with |- context [0 <? ?n] => destruct (Z.ltb_spec 0 n) as [_|Hlen] end.
  - erewrite take_page_ok; [reflexivity|].
    cbn [with_self self popped set_tot_free_hugepages set_shm_list
      set_page_freelist page_freelist].
    rewrite (seq_S 511 0), map_app, app_assoc. reflexivity.
  - exfalso. revert Hlen. cbn [with_self self popped set_tot_free_hugepages
      set_shm_list set_page_freelist page_freelist].
    rewrite length_app, length_map, length_seq. lia.
Qed.

(** The scan of [alloc_page] stops at the first region with a free
    hugepage. *)
Lemma alloc_page_scan_find rest : forall i m,
  alloc_page_scan i rest m =
  match list_find (fun r => 0 < free_hugepages r) rest with
  | Some (j, r) => carve_hugepage (i + j) r m
  | None => Exit exit_alloc_page
  end.
Proof.
  induction rest as [|r rest IH]; intros i m; [reflexivity|].
  cbn [alloc_page_scan list_find]. case_decide as Hr.
  - destruct (Z.ltb_spec 0 (free_hugepages r)); [|lia].
    by rewrite Nat.add_0_r.
  - destruct (Z.ltb_spec 0 (free_hugepages r)); [lia|].
    rewrite IH. destruct (list_find _ rest) as [[j r']|]; cbn; [|done].
    by rewrite Nat.add_succ_r.
Qed.

(** The first scan of [alloc_huge] stops at the first region with enough
    hugepages. *)
Lemma alloc_huge_scan_find rest reqd sz : forall i m,
  alloc_huge_scan i rest reqd sz m =
  match list_find (fun r => reqd <= free_hugepages r) rest with
  | Some (j, r) => (do a <- bump (i + j) r reqd sz; ret (Some a)) m
  | None => Ok None m
  end.
Proof.
  induction rest as [|r rest IH]; intros i m; [reflexivity|].
  cbn [alloc_huge_scan list_find]. case_decide as Hr.
  - destruct (Z.leb_spec reqd (free_hugepages r)); [|lia].
    by rewrite Nat.add_0_r.
  - destruct (Z.leb_spec reqd (free_hugepages r)); [lia|].
    rewrite IH. destruct (list_find _ rest) as [[j r']|]; cbn; [|done].
    by rewrite Nat.add_succ_r.
Qed.

Lemma bump_ok i r reqd sz m :
  shm_list (self m) !! i = Some r ->
  reqd <= free_hugepages r ->
  bump i r reqd sz m =
  Ok (cur_buf r)
     (with_self (fun s =>
        set_tot_memory_allocated (wrap (tot_memory_allocated s + sz))
          (popped i r reqd s)) m).
Proof.
  intros Hi Hfree. unfold bump.
  erewrite bind_ok; [|apply (pop_hugepages_ok i reqd _ r); done].
  reflexivity.
Qed.

(** * The acquirer *)

Lemma shmget_loop_spec sz answers : forall m,
  match shmget_loop sz answers m with
  | Ok found m' =>
      self m' = self m /\ segments (os m') = segments (os m) /\
      exists calls c,
        shm_log (os m') = shm_log (os m) ++ calls ++ [c] /\
        Forall (fun c => call_size c = sz) (calls ++ [c]) /\
        match found with
        | None => out_of_hugepages c
        | Some _ => call_ret c <> -1 /\ sz <> 0
        end
  | Throw e m' =>
      self m' = self m /\ segments (os m') = segments (os m) /\
      exists calls c,
        shm_log (os m') = shm_log (os m) ++ calls ++ [c] /\
        Forall (fun c => call_size c = sz) (calls ++ [c]) /\
        ~ out_of_hugepages c
  | Starved | Unrealizable => True
  | _ => False
  end.
Proof.
  induction answers as [|a rest IH]; intros m; [exact I|].
  cbn [shmget_loop]. unfold bind at 1, sys_shmget at 1.
  set (c0 := {| call_key := _; call_size := sz |}).
  set (m1 := {| self := self m |}).
  assert (Hone : shm_log (os m1) = shm_log (os m) ++ [] ++ [c0]) by done.
  assert (Hsz : Forall (fun c => call_size c = sz) ([] ++ [c0]))
    by (repeat constructor).
  destruct (Z.eqb_spec (att_shmget a) (-1)) as [Hret|Hret].
  - destruct (Z.eqb_spec (att_errno a) EEXIST) as [Hex|Hex].
    { specialize (IH m1).
      destruct (shmget_loop sz rest m1) as [found m'|e m'| | | | | |];
        try done.
      - destruct IH as (-> & -> & calls & c & Hlog & Hall & Hc).
        repeat split; try done. exists (c0 :: calls), c.
        split; [by rewrite Hlog, Hone, <- app_assoc|]. split; [|done].
        constructor; done.
      - destruct IH as (-> & -> & calls & c & Hlog & Hall & Hc).
        repeat split; try done. exists (c0 :: calls), c.
        split; [by rewrite Hlog, Hone, <- app_assoc|]. split; [|done].
        constructor; done. }
    destruct (Z.eqb_spec (att_errno a) EACCES) as [Hac|Hac].
    { unfold throw. repeat split; try done. exists [], c0.
      repeat split; try done. intros [_ He]. cbn in He. unfold ENOMEM, EACCES in *. lia. }
    destruct (Z.eqb_spec (att_errno a) EINVAL) as [Hin|Hin].
    { unfold throw. repeat split; try done. exists [], c0.
      repeat split; try done. intros [_ He]. cbn in He. unfold ENOMEM, EINVAL in *. lia. }
    destruct (Z.eqb_spec (att_errno a) ENOMEM) as [Hno|Hno].
    { unfold ret. repeat split; try done. exists [], c0. repeat split; done. }
    unfold throw. repeat split; try done. exists [], c0.
    repeat split; try done. intros [_ He]. cbn in He. done.
  - destruct (Z.eqb_spec sz 0) as [Hz|Hz]; [exact I|].
    unfold ret. repeat split; try done. exists [], c0. repeat split; done.
Qed.

Lemma reserve_hugepages_spec sz numa m :
  match reserve_hugepages sz numa m with
  | Ok b m' =>
      exists calls c,
        shm_log (os m') = shm_log (os m) ++ calls ++ [c] /\
        Forall (fun c => call_size c = round_up sz) (calls ++ [c]) /\
        if b then
          call_ret c <> -1 /\
          exists k buf,
            buf <> nullptr /\
            mappable (segments (os m)) buf (round_up sz) = true /\
            self m' = recorded (fresh_region k buf (round_up sz)) (self m) /\
            segments (os m') = segments (os m) ++ [(buf, round_up sz)]
        else
          out_of_hugepages c /\
          self m' = self m /\ segments (os m') = segments (os m)
  | Throw e m' =>
      self m' = self m /\ segments (os m') = segments (os m) /\
      exists calls c,
        shm_log (os m') = shm_log (os m) ++ calls ++ [c] /\
        Forall (fun c => call_size c = round_up sz) (calls ++ [c]) /\
        ~ out_of_hugepages c
  | Exit s => s <> exit_alloc_page
  | AssertFail _ | Undefined | Diverge => False
  | _ => True
  end.
Proof.
  unfold reserve_hugepages. unfold bind at 1.
  pose proof (shmget_loop_spec (round_up sz) (script (os m)) m) as Hloop.
  destruct (shmget_loop (round_up sz) (script (os m)) m)
    as [found m1|e m1| | | | | |]; try done.
  destruct Hloop as (Hself & Hseg & calls & c & Hlog & Hall & Hc).
  destruct found as [[[shm_key shm_id] a]|]; [|unfold ret; eauto 10].
  destruct Hc as [Hret Hsz].
  destruct (_ && _); cbn [negb]; [|exact I].
  destruct (Z.eqb_spec (att_shmat a) nullptr) as [Hnull|Hnull]; [done|].
  destruct (att_mbind a =? 0); cbn [negb]; [|done].
  unfold bind at 1, sys_attach at 1.
  destruct (mappable (segments (os m1)) (att_shmat a) (round_up sz)) eqn:Hmap;
    [|exact I].
  unfold bind at 1, shm_region_t_ctor at 1, bind at 1, assert at 1.
  rewrite round_up_whole. cbn [Z.eqb]. unfold ret at 1. monad. cbn.
  exists calls, c. repeat split; try done.
  exists shm_key, (att_shmat a). rewrite <- Hseg, <- Hself. done.
Qed.

(** * Ranges that are apart fit side by side *)

Lemma pick_highest (l : list (Z * Z)) :
  l <> [] ->
  exists x l', l ≡ₚ x :: l' /\ Forall (fun y => y.1 <= x.1) l'.
Proof.
  induction l as [|a l IH]; [done|]. intros _.
  destruct l as [|b l].
  - exists a, []. split; [done | constructor].
  - destruct IH as (x & l' & Hp & Hle); [done|].
    destruct (Z.le_gt_cases a.1 x.1) as [Hax|Hax].
    + exists x, (a :: l'). split.
      * rewrite Hp. apply perm_swap.
      * constructor; done.
    + exists a, (x :: l'). split.
      * by rewrite Hp.
      * constructor; [lia|]. eapply Forall_impl; [exact Hle|].
        intros y Hy. cbn in *. lia.
Qed.

Lemma apart_fit (n : nat) : forall (l : list (Z * Z)) lo hi,
  length l = n ->
  lo <= hi ->
  all_apart l ->
  Forall (fun x => 0 < x.2 /\ lo <= x.1 /\ x.1 + x.2 <= hi) l ->
  sumZ (map snd l) <= hi - lo.
Proof.
  induction n as [|n IH]; intros l lo hi Hlen Hlohi Hap Hin.
  - destruct l; [sums; lia | done].
  - destruct (pick_highest l) as (x & l' & Hp & Hle); [by destruct l|].
    rewrite (sumZ_perm _ _ (Permutation_map snd Hp)).
    apply (all_apart_perm _ _ Hp) in Hap. rewrite Hp in Hin, Hlen.
    destruct Hap as [Hx Hap]. inversion Hin as [|? ? (Hx2 & Hx1 & Hxe) Hin']; subst.
    sums.
    assert (sumZ (map snd l') <= x.1 - lo); [|lia].
    apply IH; [by inversion Hlen | lia | done |].
    rewrite Forall_forall in *. intros y Hy.
    specialize (Hx y Hy). specialize (Hle y Hy). specialize (Hin' y Hy).
    unfold apart in Hx. cbn beta in *. lia.
Qed.

(** * The invariant of the region registry *)

Lemma map_fmap {A B} (f : A -> B) (l : list A) : map f l = f <$> l.
Proof. reflexivity. Qed.

Lemma map_insert {A B} (f : A -> B) (l : list A) i x :
  map f (<[i := x]> l) = <[i := f x]> (map f l).
Proof. rewrite !map_fmap. apply list_fmap_insert. Qed.

Lemma sumZ_insert (l : list Z) i x y :
  l !! i = Some x -> sumZ (<[i := y]> l) = sumZ l - x + y.
Proof.
  revert i. induction l as [|z l IH]; intros [|i] Hi; try done.
  - inversion Hi; subst. change (<[0%nat:=y]> (x :: l)) with (y :: l).
    sums. lia.
  - change (<[S i:=y]> (z :: l)) with (z :: <[i:=y]> l). cbn in Hi. sums.
    rewrite (IH i Hi). lia.
Qed.

Lemma map_lookup {A B} (f : A -> B) (l : list A) i x :
  l !! i = Some x -> map f l !! i = Some (f x).
Proof. intros H. rewrite map_fmap, list_lookup_fmap, H. done. Qed.

Lemma regions_fit rs :
  Forall region_ok rs ->
  all_apart (map extent rs) ->
  0 <= sumZ (map free_hugepages rs) /\
  sumZ (map consumed rs) =
    sumZ (map size rs) - sumZ (map free_hugepages rs) * kHugepageSize /\
  0 <= sumZ (map consumed rs) /\
  sumZ (map size rs) < two64 /\
  sumZ (map size rs) mod kHugepageSize = 0.
Proof.
  intros Hok Hap.
  assert (Hfit : sumZ (map size rs) <= (two64 - 1) - 1).
  { replace (map size rs) with (map snd (map extent rs))
      by (rewrite map_map; reflexivity).
    apply (apart_fit (length (map extent rs))); [done | consts; lia | done |].
    rewrite Forall_forall. intros x Hx. rewrite map_fmap in Hx.
    apply list_elem_of_fmap in Hx as (r & -> & Hr).
    rewrite Forall_forall in Hok.
    destruct (Hok r Hr) as [? ? ? _ _ _ _]. cbn. lia. }
  clear Hap. split_and!; [| | |lia|].
  - clear Hfit. induction Hok as [|r rs Hr _ IH]; sums; [lia|].
    destruct Hr as [_ _ _ _ ? _ _]. lia.
  - clear Hfit. induction Hok as [|r rs Hr _ IH]; sums; [lia|].
    unfold consumed at 1. lia.
  - clear Hfit. induction Hok as [|r rs Hr _ IH]; sums; [lia|].
    destruct Hr as [_ _ _ _ _ ? _]. unfold consumed at 1. lia.
  - clear Hfit. induction Hok as [|r rs Hr _ IH]; sums; [done|].
    destruct Hr as [_ _ _ Hw _ _ _]. revert IH Hw. consts. intros.
    Z.div_mod_to_equations. lia.
Qed.

Lemma region_ok_fresh k buf sz :
  0 < buf -> 0 < sz -> buf + sz < two64 -> sz mod kHugepageSize = 0 ->
  region_ok (fresh_region k buf sz) /\
  1 <= free_hugepages (fresh_region k buf sz).
Proof.
  intros Hbuf Hsz Hend Hwhole.
  pose proof (whole_hugepages sz ltac:(lia) Hwhole) as Hw.
  split; [split; unfold consumed; cbn; try lia|].
  - revert Hw. consts. lia.
  - cbn. revert Hw. consts. lia.
Qed.

Lemma region_ok_pop r n :
  region_ok r -> 0 <= n <= free_hugepages r ->
  region_ok (pop_region r n) /\
  cur_buf (pop_region r n) = cur_buf r + n * kHugepageSize /\
  free_hugepages (pop_region r n) = free_hugepages r - n.
Proof.
  intros [ok_base ok_size ok_end ok_whole ok_free ok_room ok_cursor] Hn.
  unfold consumed in *.
  assert (Hcur : cur_buf (pop_region r n) = cur_buf r + n * kHugepageSize).
  { cbn. rewrite (wrap_small (n * _)) by (consts; nia).
    apply wrap_small. consts. nia. }
  assert (Hfree : free_hugepages (pop_region r n) = free_hugepages r - n).
  { cbn. apply wrap_small. consts. nia. }
  split; [|done]. split; unfold consumed; rewrite ?Hcur, ?Hfree; cbn [pop_region base_buf size]; try lia.
  consts. nia.
Qed.

Lemma mappable_spec segs buf sz :
  mappable segs buf sz = true ->
  0 < sz /\ 0 <= buf /\ buf + sz < two64 /\
  Forall (fun y => apart (buf, sz) y = true) segs.
Proof.
  unfold mappable. rewrite !andb_true_iff, forallb_forall, Forall_forall.
  intros [[[? ?] ?] Hall]. split_and!; try lia.
  intros y Hy. apply Hall. by apply list_elem_of_In.
Qed.

(** The invariant looks at the registry, the two hugepage counters,
    [prev_allocation_size] and the attached segments only. *)
Lemma invariant_same m m' :
  invariant m ->
  shm_list (self m') = shm_list (self m) ->
  tot_free_hugepages (self m') = tot_free_hugepages (self m) ->
  tot_memory_reserved (self m') = tot_memory_reserved (self m) ->
  is_size_t (prev_allocation_size (self m')) ->
  segments (os m') = segments (os m) ->
  invariant m'.
Proof.
  intros [Hseg Hap Hoks Hfree Hres Hprev] Hl Hf Hr Hp Hs.
  split; rewrite ?Hl, ?Hf, ?Hr, ?Hs; done.
Qed.

Lemma invariant_popped m m' i r n :
  invariant m ->
  shm_list (self m) !! i = Some r ->
  0 <= n <= free_hugepages r ->
  shm_list (self m') = <[i := pop_region r n]> (shm_list (self m)) ->
  tot_free_hugepages (self m') = wrap (tot_free_hugepages (self m) - n) ->
  tot_memory_reserved (self m') = tot_memory_reserved (self m) ->
  is_size_t (prev_allocation_size (self m')) ->
  segments (os m') = segments (os m) ->
  invariant m'.
Proof.
  intros Hinv Hi Hn Hl Hf Hr Hp Hs.
  pose proof Hinv as
    [inv_segments0 inv_apart0 inv_regions0 inv_free0 inv_reserved0 _].
  assert (Hok : region_ok r).
  { rewrite Forall_forall in inv_regions0. apply inv_regions0.
    eapply list_elem_of_lookup_2; eauto. }
  destruct (region_ok_pop r n Hok Hn) as (Hok' & Hcur & Hfree).
  rewrite inv_segments0 in inv_apart0.
  destruct (regions_fit _ inv_regions0 inv_apart0) as (H0 & _ & _ & Hlt & _).
  assert (Hrs : sumZ (map free_hugepages (shm_list (self m'))) =
                sumZ (map free_hugepages (shm_list (self m))) - n).
  { rewrite Hl, map_insert.
    rewrite (sumZ_insert _ _ (free_hugepages r)) by (by apply map_lookup).
    lia. }
  assert (Hext : map extent (shm_list (self m')) = map extent (shm_list (self m))).
  { rewrite Hl, map_insert. apply list_insert_id.
    change (extent (pop_region r n)) with (extent r). by apply map_lookup. }
  assert (Hsize : map size (shm_list (self m')) = map size (shm_list (self m))).
  { rewrite Hl, map_insert. apply list_insert_id.
    change (size (pop_region r n)) with (size r). by apply map_lookup. }
  split.
  - by rewrite Hs, Hext.
  - by rewrite Hs, inv_segments0.
  - rewrite Hl. by apply Forall_insert.
  - rewrite Hf, Hrs, inv_free0. apply wrap_small.
    assert (free_hugepages r <= sumZ (map free_hugepages (shm_list (self m)))).
    { clear -Hi inv_regions0. revert i Hi.
      induction inv_regions0 as [|x l Hx Hl IH]; intros [|i] Hi; try done.
      - inversion Hi; subst. sums.
        assert (0 <= sumZ (map free_hugepages l)); [|lia].
        clear -Hl. induction Hl as [|y l [_ _ _ _ ? _ _] _ IH]; sums; lia.
      - cbn in Hi. specialize (IH i Hi). destruct Hx as [_ _ _ _ ? _ _].
        sums. lia. }
    destruct (regions_fit _ inv_regions0 inv_apart0) as (_ & Hc & Hc0 & _ & _).
    revert Hc Hc0 Hlt. consts. lia.
  - by rewrite Hr, Hsize.
  - done.
Qed.

Lemma invariant_recorded m m' k buf sz :
  invariant m ->
  buf <> nullptr ->
  mappable (segments (os m)) buf sz = true ->
  sz mod kHugepageSize = 0 ->
  shm_list (self m') = shm_list (self m) ++ [fresh_region k buf sz] ->
  tot_free_hugepages (self m') =
    wrap (tot_free_hugepages (self m) + sz / kHugepageSize) ->
  tot_memory_reserved (self m') = wrap (tot_memory_reserved (self m) + sz) ->
  is_size_t (prev_allocation_size (self m')) ->
  segments (os m') = segments (os m) ++ [(buf, sz)] ->
  invariant m'.
Proof.
  intros [inv_segments0 inv_apart0 inv_regions0 inv_free0 inv_reserved0 _]
    Hbuf Hmap Hwhole Hl Hf Hr Hp Hs.
  apply mappable_spec in Hmap as (Hsz & Hbuf0 & Hend & Hall).
  destruct (region_ok_fresh k buf sz) as [Hok Hone];
    [unfold nullptr in *; lia | done..|].
  assert (Hext : segments (os m') = map extent (shm_list (self m')))
    by (rewrite Hs, Hl, map_app, inv_segments0; reflexivity).
  assert (Hap : all_apart (segments (os m')))
    by (rewrite Hs; apply all_apart_snoc; done).
  assert (Hoks : Forall region_ok (shm_list (self m')))
    by (rewrite Hl; apply Forall_app; split; [done | by constructor]).
  rewrite Hext in Hap.
  destruct (regions_fit _ Hoks Hap) as (H0 & Hc & Hc0 & Hlt & _).
  rewrite <- Hext in Hap.
  assert (Hfs : sumZ (map free_hugepages (shm_list (self m'))) =
                sumZ (map free_hugepages (shm_list (self m))) +
                sz / kHugepageSize).
  { rewrite Hl, map_app, sumZ_app. cbn [map free_hugepages fresh_region].
    rewrite sumZ_cons, sumZ_nil. lia. }
  assert (Hss : sumZ (map size (shm_list (self m'))) =
                sumZ (map size (shm_list (self m))) + sz).
  { rewrite Hl, map_app, sumZ_app. cbn [map size fresh_region].
    rewrite sumZ_cons, sumZ_nil. lia. }
  rewrite inv_segments0 in inv_apart0.
  destruct (regions_fit _ inv_regions0 inv_apart0) as (G0 & Gc & Gc0 & Glt & _).
  pose proof (whole_hugepages sz ltac:(lia) Hwhole) as Hw.
  split; try done.
  - rewrite Hfs, Hf, inv_free0. apply wrap_small.
    revert H0 Hc Hc0 Hlt G0 Gc Gc0 Glt Hw. rewrite Hss, Hfs. consts. lia.
  - rewrite Hss, Hr, inv_reserved0. apply wrap_small.
    revert H0 Hc Hc0 Hlt G0 Gc Gc0 Glt Hw. rewrite Hss, Hfs. consts. lia.
Qed.

(** * What the public operations do in a state that satisfies the invariant *)

Lemma lookup_region_ok m i r :
  invariant m -> shm_list (self m) !! i = Some r -> region_ok r.
Proof.
  intros [_ _ Hoks _ _ _] Hi. rewrite Forall_forall in Hoks. apply Hoks.
  eapply list_elem_of_lookup_2; eauto.
Qed.

Lemma first_with_find k rs i r :
  list_find (fun r => k <= free_hugepages r) rs = Some (i, r) ->
  first_with k rs i r.
Proof.
  intros (Hi & Hr & Hbefore)%list_find_Some. split_and!; [done..|].
  intros j y Hj Hlt. specialize (Hbefore j y Hj Hlt). lia.
Qed.

Lemma no_region_fits_find k rs :
  list_find (fun r => k <= free_hugepages r) rs = None ->
  no_region_fits k rs.
Proof.
  intros H%list_find_None. eapply Forall_impl; [exact H|].
  intros r Hr. cbn in Hr. lia.
Qed.

(** With a free hugepage counted, the scan of [alloc_page] finds a
    region. *)
Lemma free_region_found m :
  invariant m ->
  tot_free_hugepages (self m) <> 0 ->
  exists i r,
    list_find (fun r => 0 < free_hugepages r) (shm_list (self m)) = Some (i, r).
Proof.
  intros [_ _ Hoks Hfree _ _] Hne.
  destruct (list_find _ (shm_list (self m))) as [[i r]|] eqn:Hfind; [eauto|].
  exfalso. apply Hne. rewrite Hfree. apply list_find_None in Hfind.
  clear -Hoks Hfind. induction Hoks as [|r rs Hr _ IH]; [done|].
  inversion Hfind; subst. sums. destruct Hr as [_ _ _ _ ? _ _].
  rewrite IH by done. lia.
Qed.

Lemma carve_found m i r :
  invariant m ->
  page_freelist (self m) = [] ->
  list_find (fun r => 0 < free_hugepages r) (shm_list (self m)) = Some (i, r) ->
  alloc_page_scan 0 (shm_list (self m)) m =
    Ok (cur_buf r + (kHugepageSize - kPageSize)) (with_self (carved i r) m) /\
  first_with 1 (shm_list (self m)) i r /\
  invariant (with_self (carved i r) m).
Proof.
  intros Hinv Hfl Hfind. rewrite alloc_page_scan_find, Hfind. cbn [Nat.add].
  assert (Hfirst : first_with 1 (shm_list (self m)) i r).
  { apply first_with_find. rewrite <- Hfind. apply list_find_ext.
    intros ?. lia. } 
  destruct Hfirst as (Hi & Hone & Hbefore).
  pose proof (lookup_region_ok _ _ _ Hinv Hi) as Hok.
  pose proof Hok as [ok_base ok_size ok_end ok_whole ok_free ok_room ok_cursor].
  unfold consumed in ok_cursor.
  split_and!.
  - rewrite (carve_hugepage_ok i r m Hi Hone). f_equal.
    + apply wrap_small. consts. lia.
    + unfold with_self, carved. f_equal. rewrite Hfl. cbn [app].
      rewrite sub_pages_plain; [done | lia | consts; lia].
  - done.
  - eapply (invariant_popped m _ i r 1); try done; try lia.
    destruct Hinv; done.
Qed.

Lemma invariant_set_prev m p :
  invariant m ->
  invariant (with_self (set_prev_allocation_size (wrap p)) m).
Proof.
  intros Hinv. eapply invariant_same; try done. apply wrap_range.
Qed.

Lemma acquired_invariant p m m1 :
  invariant m -> is_size_t p -> acquired p m m1 ->
  invariant m1 /\
  exists r,
    shm_list (self m1) = shm_list (self m) ++ [r] /\
    page_freelist (self m1) = page_freelist (self m) /\
    tot_memory_allocated (self m1) = tot_memory_allocated (self m) /\
    prev_allocation_size (self m1) = p /\
    cur_buf r = base_buf r /\ size r = round_up p /\
    free_hugepages r = round_up p / kHugepageSize /\
    1 <= free_hugepages r /\ p <= round_up p /\ region_ok r.
Proof.
  intros Hinv Hp (k & buf & calls & c & Hbuf & Hmap & Hself & Hseg & _).
  assert (Hinv1 : invariant m1).
  { eapply (invariant_recorded m m1 k buf (round_up p)); try done;
      rewrite ?Hself; try done. apply round_up_whole. }
  split; [done|]. exists (fresh_region k buf (round_up p)).
  pose proof Hmap as (Hsz & Hbuf0 & Hend & _)%mappable_spec.
  destruct (region_ok_fresh k buf (round_up p)) as [Hok Hone];
    [unfold nullptr in *; lia | done.. | apply round_up_whole |].
  rewrite Hself. split_and!; try done.
  apply round_up_ge; [done | lia].
Qed.

Lemma alloc_page_spec m : invariant m -> alloc_page_does m (alloc_page m).
Proof.
  intros Hinv. unfold alloc_page. unfold bind at 1, get at 1. cbn beta iota.
  destruct (Z.eqb_spec (Z.of_nat (length (page_freelist (self m)))) 0)
    as [Hlen|Hlen]; cbn [negb].
  2:{ assert (Hfl : page_freelist (self m) <> []) by (by intros Hfl; rewrite Hfl in Hlen).
      destruct (exists_last Hfl) as (fl & p & Hsnoc).
      rewrite (take_page_ok fl p m Hsnoc). by apply page_popped. }
  assert (Hfl : page_freelist (self m) = [])
    by (destruct (page_freelist (self m)); [done | cbn in Hlen; lia]).
  destruct (Z.eqb_spec (tot_free_hugepages (self m)) 0) as [Hz|Hnz].
  - unfold bind at 1. unfold bind at 1, modify at 1. unfold bind at 1, get at 1.
    set (p := wrap (prev_allocation_size (self m) * 2)).
    set (m0 := {| self := set_prev_allocation_size p (self m); os := os m |}).
    change (prev_allocation_size (self m0)) with p.
    assert (Hinv0 : invariant m0) by (by apply invariant_set_prev).
    pose proof (reserve_hugepages_spec p (numa_node (self m0)) m0) as Hres.
    destruct (reserve_hugepages p (numa_node (self m0)) m0)
      as [[] m1|e m1|s| | | | |]; try done; try by constructor.
    + destruct Hres as (calls & c & Hlog & Hall & Hret & k & buf & Hb & Hmap & Hself & Hseg).
      assert (Hacq : acquired p m m1) by (exists k, buf, calls, c; done).
      destruct (acquired_invariant p m m1 Hinv (wrap_range _) Hacq)
        as (Hinv1 & r & Hl & Hfl1 & _ & _ & _ & _ & _ & Hone & _).
      cbn [negb]. unfold bind at 1, get at 1.
      destruct (free_region_found m1 Hinv1) as (i & r' & Hfind).
      { destruct Hinv1 as [_ _ Hoks Hfree _ _]. rewrite Hfree, Hl.
        rewrite map_app, sumZ_app. sums.
        assert (0 <= sumZ (map free_hugepages (shm_list (self m)))); [|lia].
        destruct Hinv as [_ _ _ Hf _ _]. rewrite <- Hf. lia. }
      rewrite Hfl in Hfl1.
      destruct (carve_found m1 i r' Hinv1 Hfl1 Hfind) as (-> & Hfirst & _).
      eapply page_carved; eauto.
    + destruct Hres as (calls & c & Hlog & Hall & Hc & Hself & Hseg).
      cbn [negb]. unfold ret. apply page_refused; try done.
      split_and!; try done. eauto.
  - unfold bind at 1, ret at 1. cbn [negb]. unfold bind at 1, get at 1.
    destruct (free_region_found m Hinv Hnz) as (i & r & Hfind).
    destruct (carve_found m i r Hinv Hfl Hfind) as (-> & Hfirst & _).
    eapply page_carved; eauto.
Qed.

(** ** The growth loop *)

Lemma twice_doubled prev (j : nat) :
  Nat.iter j twice (wrap (prev * 2)) = doubled prev j.
Proof.
  induction j as [|j IH]; [reflexivity|].
  rewrite Nat.iter_succ, IH. unfold twice, doubled, wrap.
  rewrite Z.mul_mod_idemp_l by (unfold two64; lia). f_equal.
  replace (Z.of_nat (S j) + 1) with (Z.succ (Z.of_nat j + 1)) by lia.
  rewrite Z.pow_succ_r by lia. lia.
Qed.

Lemma doubled_high prev (j : nat) : (63 <= j)%nat -> doubled prev j = 0.
Proof.
  intros Hj. unfold doubled, wrap.
  replace (Z.of_nat j + 1) with (64 + (Z.of_nat j - 63)) by lia.
  rewrite Z.pow_add_r by lia. change (2 ^ 64) with two64.
  rewrite Z.mul_assoc, (Z.mul_comm prev), <- Z.mul_assoc.
  rewrite Z.mul_comm. apply Z.mod_mul. unfold two64. lia.
Qed.

Lemma grow_loop_spec fuel sz : forall m,
  match grow_loop fuel sz m with
  | Ok _ m' =>
      os m' = os m /\
      exists j : nat,
        (j < fuel)%nat /\
        self m' =
          set_prev_allocation_size
            (Nat.iter j twice (prev_allocation_size (self m))) (self m) /\
        sz <= Nat.iter j twice (prev_allocation_size (self m)) /\
        forall i : nat, (i < j)%nat ->
          Nat.iter i twice (prev_allocation_size (self m)) < sz
  | Diverge =>
      forall i : nat, (i < fuel)%nat ->
        Nat.iter i twice (prev_allocation_size (self m)) < sz
  | _ => False
  end.
Proof.
  induction fuel as [|fuel IH]; intros m; [cbn; intros; lia|].
  cbn [grow_loop]. unfold bind at 1, get at 1. cbn beta iota.
  destruct (Z.ltb_spec (prev_allocation_size (self m)) sz) as [Hlt|Hge].
  - unfold bind at 1, modify at 1.
    set (m1 := {| self := _; os := os m |}). specialize (IH m1).
    assert (Hiter : forall i, Nat.iter i twice (prev_allocation_size (self m1)) =
                              Nat.iter (S i) twice (prev_allocation_size (self m)))
      by (intros i; rewrite Nat.iter_succ_r; reflexivity).
    destruct (grow_loop fuel sz m1) as [[] m'|e m'|s| | | | |]; try done.
    + destruct IH as (Hos & j & Hj & Hself & Hle & Hbefore).
      split; [done|]. exists (S j). split_and!; [lia| | |].
      * rewrite Hself, Hiter. reflexivity.
      * by rewrite <- Hiter.
      * intros [|i] Hi; [done|]. rewrite <- Hiter. apply Hbefore. lia.
    + intros [|i] Hi; [done|]. rewrite <- Hiter. apply IH. lia.
  - unfold ret. split; [done|]. exists 0%nat. split_and!; [lia | | done |].
    + by destruct (self m).
    + intros i Hi. lia.
Qed.

Lemma free_page_ok page m :
  page mod 4096 = 0 ->
  free_page page m =
  Ok tt (with_self (fun s =>
    set_tot_memory_allocated (wrap (tot_memory_allocated s - kPageSize))
      (set_page_freelist (page_freelist s ++ [page]) s)) m).
Proof.
  intros Hal. unfold free_page. unfold bind at 1, assert at 1.
  change (KB 4) with 4096. rewrite Hal. reflexivity.
Qed.

Lemma free_page_misaligned page m :
  page mod 4096 <> 0 ->
  free_page page m = AssertFail assert_page_aligned.
Proof.
  intros Hal. unfold free_page. unfold bind at 1, assert at 1.
  change (KB 4) with 4096.
  by destruct (Z.eqb_spec (page mod 4096) 0).
Qed.

Lemma alloc_huge_spec sz m :
  invariant m -> alloc_huge_does sz m (alloc_huge sz m).
Proof.
  intros Hinv. unfold alloc_huge. unfold bind at 1, assert at 1.
  destruct (Z.leb_spec kHugepageSize sz) as [Hlo|Hlo]; cbn [andb];
    [|apply huge_bad_size; lia].
  destruct (Z.leb_spec sz kMaxAllocSize) as [Hhi|Hhi];
    [|apply huge_bad_size; lia].
  assert (Hsz : kHugepageSize <= sz <= kMaxAllocSize) by lia.
  set (S := round_up sz). set (k := S / kHugepageSize).
  unfold bind at 1, get at 1. cbn beta iota. unfold bind at 1.
  rewrite alloc_huge_scan_find. cbn [Nat.add].
  destruct (list_find _ (shm_list (self m))) as [[i r]|] eqn:Hfind.
  { pose proof (first_with_find _ _ _ _ Hfind) as Hfirst.
    destruct Hfirst as (Hi & Hk & Hbefore).
    unfold bind at 1. rewrite (bump_ok i r k S m Hi Hk). unfold ret.
    apply huge_fitted; [done|]. split_and!; done. }
  pose proof (no_region_fits_find _ _ Hfind) as Hnone.
  unfold bind at 1, modify at 1.
  set (m0 := {| self := _; os := os m |}).
  unfold bind at 1. pose proof (grow_loop_spec 65 S m0) as Hgrow.
  change (prev_allocation_size (self m0))
    with (wrap (prev_allocation_size (self m) * 2)) in Hgrow.
  destruct (grow_loop 65 S m0) as [[] m0'|e m0'|s| | | | |]; try done.
  2:{ apply huge_diverges; try done. intros j.
      destruct (Nat.lt_ge_cases j 65) as [Hj|Hj].
      - rewrite <- twice_doubled. by apply Hgrow.
      - rewrite doubled_high by lia. fold S.
        pose proof (round_up_small sz). revert H. consts. lia. }
  destruct Hgrow as (Hos & j & Hj & Hself & Hle & Hbefore).
  rewrite twice_doubled in Hself, Hle.
  set (q := doubled (prev_allocation_size (self m)) j) in *.
  assert (Hgrows : grows_to (prev_allocation_size (self m)) S q).
  { exists j. split_and!; [done..|]. intros i Hi. rewrite <- twice_doubled.
    by apply Hbefore. }
  assert (Hself' : self m0' = set_prev_allocation_size q (self m)) by done.
  unfold bind at 1, get at 1. cbn beta iota.
  replace (prev_allocation_size (self m0')) with q by (by rewrite Hself').
  pose proof (reserve_hugepages_spec q (numa_node (self m0')) m0') as Hres.
  rewrite Hos in Hres. change (os m0) with (os m) in Hres.
  unfold bind at 1.
  destruct (reserve_hugepages q (numa_node (self m0')) m0')
    as [[] m1|e m1|s| | | | |]; try done; cbn [negb];
    try rewrite Hself' in Hres.
  - destruct Hres as (calls & c & Hlog & Hall & Hret & k0 & buf & Hb & Hmap & Hs & Hseg).
    assert (Hacq : acquired q m m1) by (exists k0, buf, calls, c; done).
    destruct (acquired_invariant q m m1 Hinv (wrap_range _) Hacq)
      as (Hinv1 & r & Hl & _ & _ & _ & Hcur & Hsize & Hfree & Hone & Hq & _).
    unfold bind at 1, get at 1. cbn beta iota.
    assert (Hlast : last (shm_list (self m1)) = Some r)
      by (by rewrite Hl, last_snoc).
    rewrite Hlast.
    assert (Hk : k <= free_hugepages r).
    { rewrite Hfree. apply Z.div_le_mono; [consts; lia | lia]. }
    rewrite (bump_ok _ r k S m1); [| |done].
    2:{ rewrite Hl, length_app, Nat.add_1_r, Nat.sub_1_r. cbn [pred].
        by rewrite lookup_app_r, Nat.sub_diag. }
    replace (length (shm_list (self m1)) - 1)%nat
      with (length (shm_list (self m)))
      by (rewrite Hl, length_app; cbn; lia).
    eapply huge_grown; eauto.
  - destruct Hres as (calls & c & Hlog & Hall & Hc & Hs & Hseg).
    unfold ret. eapply huge_refused; eauto. split_and!; try done. eauto.
  - destruct Hres as (Hs & Hseg & calls & c & Hlog & Hall & Hc).
    eapply huge_broke; eauto. split_and!; try done. eauto.
  - by apply huge_exit.
  - apply huge_starved.
  - apply huge_unrealizable.
Qed.

(** ** The invariant holds in every reachable state *)

Lemma ctor_spec kMaxNumaNodes initial_size numa w m :
  HugeAllocator_ctor kMaxNumaNodes initial_size numa w = Ok tt m ->
  0 < initial_size <= kMaxAllocSize /\ numa <= kMaxNumaNodes /\
  exists b,
    reserve_hugepages initial_size numa
      {| self := member_init initial_size numa; os := w |} = Ok b m.
Proof.
  unfold HugeAllocator_ctor. unfold bind at 1, assert at 1.
  destruct (Z.ltb_spec 0 initial_size); cbn [andb]; [|done].
  destruct (Z.leb_spec initial_size kMaxAllocSize); [|done].
  unfold bind at 1, assert at 1.
  destruct (Z.leb_spec numa kMaxNumaNodes); [|done].
  unfold bind at 1.
  destruct (reserve_hugepages _ _ _) as [b m1| | | | | | |]; try done.
  unfold ret. intros [= <-]. split_and!; try lia. by exists b.
Qed.

Lemma ctor_invariant kMaxNumaNodes initial_size numa answers m :
  HugeAllocator_ctor kMaxNumaNodes initial_size numa (boot answers) = Ok tt m ->
  invariant m /\ page_freelist (self m) = [] /\
  tot_memory_allocated (self m) = 0 /\
  Forall (fun r => cur_buf r = base_buf r) (shm_list (self m)).
Proof.
  intros (Hsz & _ & b & Hres)%ctor_spec.
  set (m0 := {| self := member_init initial_size numa; os := boot answers |}) in *.
  assert (Hinv0 : invariant m0).
  { split; cbn; try done. consts. lia. }
  pose proof (reserve_hugepages_spec initial_size numa m0) as Hspec.
  rewrite Hres in Hspec.
  destruct Hspec as (calls & c & Hlog & Hall & Hb). destruct b.
  - destruct Hb as (Hret & k & buf & Hbuf & Hmap & Hself & Hseg).
    split.
    + eapply (invariant_recorded m0 m k buf (round_up initial_size));
        try done; rewrite ?Hself; try done; [apply round_up_whole|].
      cbn. consts. lia.
    + rewrite Hself. cbn. split_and!; try done.
      constructor; [reflexivity | constructor].
  - destruct Hb as (Hc & Hself & Hseg). split.
    + eapply invariant_same; try done; rewrite ?Hself; try done.
      cbn. consts. lia.
    + rewrite Hself. cbn. split_and!; try done.
Qed.

Lemma alloc_page_does_invariant m r m' :
  invariant m -> alloc_page_does m r -> after r = Some m' -> invariant m'.
Proof.
  intros Hinv Hdoes Hafter.
  destruct Hdoes as [fl p Hfl|m1 i r0 Hfl Hgrow Hinv1 (Hi & Hone & _)
    |m1 Hfl Hz (Hself & Hseg & _)|e m1 Hfl Hz (Hself & Hseg & _)|s Hs| |];
    cbn in Hafter; try done; injection Hafter as <-.
  - eapply invariant_same; try done. by destruct Hinv.
  - eapply (invariant_popped m1 _ i r0 1); try done; try lia.
    by destruct Hinv1.
  - eapply invariant_same; try done; rewrite ?Hself; try done.
    apply wrap_range.
  - eapply invariant_same; try done; rewrite ?Hself; try done.
    apply wrap_range.
Qed.

Lemma grows_to_size_t prev need q : grows_to prev need q -> is_size_t q.
Proof. intros (j & -> & _). apply wrap_range. Qed.

Lemma hugepages_needed sz :
  kHugepageSize <= sz <= kMaxAllocSize ->
  1 <= round_up sz / kHugepageSize /\
  round_up sz / kHugepageSize * kHugepageSize = round_up sz /\
  kHugepageSize <= round_up sz <= kMaxAllocSize.
Proof.
  intros Hsz. pose proof (round_up_small sz ltac:(consts; lia)) as [Hr Hm].
  pose proof (round_up_whole sz) as Hw.
  pose proof (whole_hugepages (round_up sz) ltac:(consts; lia) Hw) as He.
  split_and!; try lia. revert He Hr. consts. lia.
Qed.

Lemma alloc_huge_does_invariant sz m r m' :
  invariant m -> alloc_huge_does sz m r -> after r = Some m' -> invariant m'.
Proof.
  intros Hinv Hdoes Hafter.
  destruct Hdoes as [Hbad|i r0 Hsz (Hi & Hk & _)
    |q m1 r0 Hsz Hnone Hgrows Hacq Hinv1 Hlast Hcur Hk
    |q m1 Hsz Hnone Hgrows (Hself & Hseg & _)
    |q e m1 Hsz Hnone Hgrows (Hself & Hseg & _)|Hsz Hnone Hdiv|s Hs| |];
    cbn in Hafter; try done; injection Hafter as <-.
  - destruct (hugepages_needed sz Hsz) as (Hone & _).
    eapply (invariant_popped m _ i r0); try done; try lia. by destruct Hinv.
  - destruct (hugepages_needed sz Hsz) as (Hone & _).
    eapply (invariant_popped m1 _ _ r0); try done; try lia; [|by destruct Hinv1].
    destruct (acquired_invariant q m m1 Hinv (grows_to_size_t _ _ _ Hgrows) Hacq)
      as (_ & r1 & Hl & _).
    rewrite Hl, last_snoc in Hlast. injection Hlast as ->.
    by rewrite Hl, lookup_app_r, Nat.sub_diag.
  - eapply invariant_same; try done; rewrite ?Hself; try done.
    by eapply grows_to_size_t.
  - eapply invariant_same; try done; rewrite ?Hself; try done.
    by eapply grows_to_size_t.
Qed.

Lemma after_ret_bind {A B} (c : M A) (f : A -> B) m :
  after ((do x <- c; ret (f x)) m) = after (c m).
Proof. unfold bind, ret. by destruct (c m). Qed.

Lemma getter_same {A} (c : M A) m m' :
  (forall m, match c m with
             | Ok _ m1 => m1 = m
             | Throw _ _ => False
             | _ => True
             end) ->
  after (c m) = Some m' -> m' = m.
Proof.
  intros Hc Hafter. specialize (Hc m). destruct (c m); cbn in *; try done.
  congruence.
Qed.

Lemma get_reserved_memory_same m :
  match get_reserved_memory m with
  | Ok _ m1 => m1 = m
  | Throw _ _ => False
  | _ => True
  end.
Proof.
  unfold get_reserved_memory. monad. cbn beta iota. by destruct (_ =? _).
Qed.

Lemma get_allocated_memory_same m :
  match get_allocated_memory m with
  | Ok _ m1 => m1 = m
  | Throw _ _ => False
  | _ => True
  end.
Proof.
  unfold get_allocated_memory. monad. cbn beta iota. by destruct (_ =? _).
Qed.

Lemma invoke_invariant c m m' :
  invariant m -> after (invoke c m) = Some m' -> invariant m'.
Proof.
  intros Hinv. destruct c as [|page|sz| | |]; cbn [invoke];
    rewrite after_ret_bind.
  - apply (alloc_page_does_invariant m); [done|]. by apply alloc_page_spec.
  - destruct (Z.eq_dec (page mod 4096) 0) as [Hal|Hal].
    + rewrite free_page_ok by done. intros [= <-].
      eapply invariant_same; try done. by destruct Hinv.
    + by rewrite free_page_misaligned.
  - apply (alloc_huge_does_invariant sz m); [done|]. by apply alloc_huge_spec.
  - intros ->%(getter_same get_reserved_memory _ _ get_reserved_memory_same).
    done.
  - intros ->%(getter_same get_allocated_memory _ _ get_allocated_memory_same).
    done.
  - intros [= <-]. done.
Qed.

Lemma reachable_invariant m : reachable m -> invariant m.
Proof.
  induction 1 as [kMax initial_size numa answers m _ _ Hctor|c m m' _ IH _ Hafter].
  - by apply ctor_invariant in Hctor as [? _].
  - by eapply invoke_invariant.
Qed.

Lemma alloc_huge_ok_range sz m p m' :
  alloc_huge sz m = Ok p m' -> kHugepageSize <= sz <= kMaxAllocSize.
Proof.
  unfold alloc_huge. unfold bind at 1, assert at 1.
  destruct (Z.leb_spec kHugepageSize sz); cbn [andb]; [|done].
  destruct (Z.leb_spec sz kMaxAllocSize); [lia|done].
Qed.

(** * Callers that free what they hold: the books agree with the allocator *)

(** ** Regions only grow *)

Lemma registry_grows_refl rs : registry_grows rs rs.
Proof. intros i r Hi. exists r. split_and!; [done..|lia]. Qed.

Lemma registry_grows_trans rs1 rs2 rs3 :
  registry_grows rs1 rs2 -> registry_grows rs2 rs3 -> registry_grows rs1 rs3.
Proof.
  intros H12 H23 i r Hi. destruct (H12 i r Hi) as (r2 & Hi2 & ? & ? & ?).
  destruct (H23 i r2 Hi2) as (r3 & Hi3 & ? & ? & ?).
  exists r3. split_and!; [done|congruence..|lia].
Qed.

Lemma registry_grows_app rs l : registry_grows rs (rs ++ l).
Proof.
  intros i r Hi. exists r. split_and!; [|done..|lia].
  by apply lookup_app_l_Some.
Qed.

Lemma registry_grows_pop rs i r n :
  rs !! i = Some r -> region_ok r -> 0 <= n <= free_hugepages r ->
  registry_grows rs (<[i := pop_region r n]> rs).
Proof.
  intros Hi Hok Hn j y Hj.
  destruct (region_ok_pop r n Hok Hn) as (_ & Hcur & _).
  destruct (decide (j = i)) as [->|Hne].
  - assert (y = r) as -> by congruence. exists (pop_region r n).
    split_and!; [|done..|].
    + apply list_lookup_insert_eq. by eapply lookup_lt_Some.
    + rewrite Hcur. consts. nia.
  - exists y. split_and!; [|done..|lia]. by rewrite list_lookup_insert_ne.
Qed.

Lemma inside_carved_grows rs rs' x :
  registry_grows rs rs' -> inside_carved rs x -> inside_carved rs' x.
Proof.
  intros Hg (Hpos & i & r & Hi & Hlo & Hhi).
  destruct (Hg i r Hi) as (r' & Hi' & Hb & _ & Hc).
  split; [done|]. exists i, r'. split_and!; [done|lia..].
Qed.

(** ** Ranges in different places are apart *)

Lemma apart_true x y :
  apart x y = true <-> x.1 + x.2 <= y.1 \/ y.1 + y.2 <= x.1.
Proof. unfold apart. rewrite orb_true_iff, !Z.leb_le. done. Qed.

(** A range above the cursor of a region is apart from everything carved
    so far. *)
Lemma fresh_range_apart m i r x y :
  invariant m ->
  shm_list (self m) !! i = Some r ->
  cur_buf r <= x.1 -> x.1 + x.2 <= base_buf r + size r ->
  inside_carved (shm_list (self m)) y ->
  apart x y = true.
Proof.
  intros Hinv Hi Hlo Hhi (Hpos & j & r' & Hj & Hylo & Hyhi).
  apply apart_true. destruct x as [xa xn], y as [ya yn]. cbn [fst snd] in *.
  destruct (decide (j = i)) as [->|Hne].
  - assert (r' = r) as -> by congruence. lia.
  - pose proof (lookup_region_ok _ _ _ Hinv Hi)
      as [? ? ? _ ? ? Hc].
    pose proof (lookup_region_ok _ _ _ Hinv Hj)
      as [? ? ? _ ? ? Hc'].
    destruct Hinv as [Hseg Hap _ _ _ _]. rewrite Hseg in Hap.
    pose proof (all_apart_lookup _ i j (extent r) (extent r') Hap
      ltac:(done) (map_lookup extent _ _ _ Hi) (map_lookup extent _ _ _ Hj))
      as Hrr.
    apply apart_true in Hrr. unfold consumed in *. cbn in Hrr. consts. lia.
Qed.

(** The pages of one hugepage are apart from each other. *)
Lemma sub_pages_apart cur n : all_apart (map page_range (sub_pages cur n)).
Proof.
  induction n as [|n IH]; [done|].
  rewrite sub_pages_S, map_app. apply all_apart_snoc. split; [done|].
  rewrite Forall_forall. intros y Hy. rewrite map_fmap in Hy.
  apply list_elem_of_fmap in Hy as (p & -> & Hp).
  unfold sub_pages in Hp. rewrite map_fmap in Hp.
  apply list_elem_of_fmap in Hp as (j & -> & Hj).
  apply elem_of_seq in Hj. apply apart_true. cbn. consts. lia.
Qed.

Lemma sub_pages_bytes cur n :
  sumZ (map snd (map page_range (sub_pages cur n))) = Z.of_nat n * kPageSize.
Proof.
  induction n as [|n IH]; [done|].
  rewrite sub_pages_S, !map_app, sumZ_app, IH. sums. cbn. lia.
Qed.

Lemma sub_pages_inside start n x :
  x ∈ map page_range (sub_pages start n) ->
  0 < x.2 /\ start <= x.1 /\ x.1 + x.2 <= start + Z.of_nat n * kPageSize.
Proof.
  intros Hx. rewrite map_fmap in Hx.
  apply list_elem_of_fmap in Hx as (p & -> & Hp).
  unfold sub_pages in Hp. rewrite map_fmap in Hp.
  apply list_elem_of_fmap in Hp as (j & -> & Hj).
  apply elem_of_seq in Hj. cbn. consts. lia.
Qed.

(** ** The books of the caller *)

Lemma remove_one_perm p l : p ∈ l -> l ≡ₚ p :: remove_one p l.
Proof.
  induction l as [|q l IH]; intros Hp; [by apply elem_of_nil in Hp|].
  cbn [remove_one]. destruct (Z.eqb_spec p q) as [->|Hne]; [done|].
  apply elem_of_cons in Hp as [->|Hp]; [done|].
  rewrite (IH Hp) at 1. apply perm_swap.
Qed.

Lemma owned_bytes m k :
  sumZ (map snd (owned m k)) =
  kPageSize * Z.of_nat (length (page_freelist (self m))) +
  kPageSize * Z.of_nat (length (live_pages k)) +
  sumZ (map snd (live_bufs k)).
Proof.
  assert (Hpages : forall l : list Z,
    sumZ (map snd (map page_range l)) = kPageSize * Z.of_nat (length l)).
  { induction l as [|p l IH]; [done|]. sums. rewrite IH. cbn [length snd page_range].
    lia. }
  unfold owned. rewrite !map_app, !sumZ_app, !Hpages. lia.
Qed.

Lemma bufs_bytes_nonneg m k :
  Forall (inside_carved (shm_list (self m))) (owned m k) ->
  0 <= sumZ (map snd (live_bufs k)).
Proof.
  unfold owned. rewrite !Forall_app. intros (_ & _ & Hb).
  induction Hb as [|x l [Hx _] _ IH]; sums; lia.
Qed.

Lemma consumed_bound m :
  invariant m -> sumZ (map consumed (shm_list (self m))) < two64.
Proof.
  intros [Hseg Hap Hoks _ _ _]. rewrite Hseg in Hap.
  destruct (regions_fit _ Hoks Hap) as (H0 & Hc & _ & Hlt & _).
  revert H0 Hc Hlt. consts. lia.
Qed.

(** The counter of allocated bytes need only be right modulo [2^64]: the
    bytes carved so far bound it. *)
Lemma client_invariant_intro m k :
  invariant m ->
  Forall (inside_carved (shm_list (self m))) (owned m k) ->
  all_apart (owned m k) ->
  sumZ (map snd (owned m k)) = sumZ (map consumed (shm_list (self m))) ->
  tot_memory_allocated (self m) =
    wrap (kPageSize * Z.of_nat (length (live_pages k)) +
          sumZ (map snd (live_bufs k))) ->
  client_invariant m k.
Proof.
  intros Hinv Hin Hap Hbytes Halloc. split; try done.
  rewrite Halloc. apply wrap_small.
  pose proof (consumed_bound m Hinv) as Hlt. rewrite <- Hbytes in Hlt.
  rewrite owned_bytes in Hlt. pose proof (bufs_bytes_nonneg m k Hin).
  revert Hlt. consts. lia.
Qed.

(** A step that moves no cursor. *)
Lemma client_keep m k m' k' l :
  client_invariant m k ->
  invariant m' ->
  shm_list (self m') = shm_list (self m) ++ l ->
  Forall (fun r => consumed r = 0) l ->
  owned m' k' ≡ₚ owned m k ->
  tot_memory_allocated (self m') =
    wrap (kPageSize * Z.of_nat (length (live_pages k')) +
          sumZ (map snd (live_bufs k'))) ->
  client_invariant m' k'.
Proof.
  intros [Hinv Hin Hap Hbytes Halloc] Hinv' Hl Hzero Hperm Halloc'.
  apply client_invariant_intro; try done.
  - rewrite Hperm. eapply Forall_impl; [exact Hin|]. intros x.
    apply inside_carved_grows. rewrite Hl. apply registry_grows_app.
  - eapply all_apart_perm; [symmetry; exact Hperm | done].
  - rewrite (sumZ_perm _ _ (Permutation_map snd Hperm)), Hbytes, Hl.
    rewrite map_app, sumZ_app.
    assert (sumZ (map consumed l) = 0) as ->; [|lia].
    clear -Hzero. induction Hzero as [|r l Hr _ IH]; sums; lia.
Qed.

(** A step that moves the cursor of the region at [i] over [n] hugepages
    and hands out the ranges [news] from there. *)
Lemma client_pop m k m' k' i r n news :
  client_invariant m k ->
  shm_list (self m) !! i = Some r ->
  0 <= n <= free_hugepages r ->
  invariant m' ->
  shm_list (self m') = <[i := pop_region r n]> (shm_list (self m)) ->
  owned m' k' ≡ₚ news ++ owned m k ->
  Forall (fun x => 0 < x.2 /\ cur_buf r <= x.1 /\
                   x.1 + x.2 <= cur_buf r + n * kHugepageSize) news ->
  all_apart news ->
  sumZ (map snd news) = n * kHugepageSize ->
  tot_memory_allocated (self m') =
    wrap (kPageSize * Z.of_nat (length (live_pages k')) +
          sumZ (map snd (live_bufs k'))) ->
  client_invariant m' k'.
Proof.
  intros [Hinv Hin Hap Hbytes Halloc] Hi Hn Hinv' Hl Hperm Hnews Hapn Hsum Halloc'.
  pose proof (lookup_region_ok _ _ _ Hinv Hi) as Hok.
  destruct (region_ok_pop r n Hok Hn) as (Hok' & Hcur & Hfree).
  pose proof Hok as [? ? ? _ ? ? Hc]. unfold consumed in Hc.
  apply client_invariant_intro; try done.
  - rewrite Hperm. apply Forall_app. split.
    + eapply Forall_impl; [exact Hnews|]. intros x (Hx & Hlo & Hhi).
      split; [done|]. exists i, (pop_region r n). split_and!.
      * rewrite Hl. apply list_lookup_insert_eq. by eapply lookup_lt_Some.
      * cbn. revert Hc. consts. lia.
      * rewrite Hcur. lia.
    + eapply Forall_impl; [exact Hin|]. intros x.
      apply inside_carved_grows. rewrite Hl. by apply registry_grows_pop.
  - eapply all_apart_perm; [symmetry; exact Hperm|].
    apply all_apart_app. split_and!; [done..|].
    rewrite Forall_forall. intros x Hx. rewrite Forall_forall. intros y Hy.
    rewrite Forall_forall in Hnews. destruct (Hnews x Hx) as (Hxn & Hlo & Hhi).
    rewrite Forall_forall in Hin.
    apply (fresh_range_apart m i r x y Hinv Hi); [done| |by apply Hin].
    revert Hc Hhi. consts. nia.
  - rewrite (sumZ_perm _ _ (Permutation_map snd Hperm)).
    rewrite map_app, sumZ_app, Hsum, Hbytes, Hl, map_insert.
    rewrite (sumZ_insert _ _ (consumed r)) by (by apply map_lookup).
    assert (consumed (pop_region r n) = consumed r + n * kHugepageSize) as ->
      by (unfold consumed; rewrite Hfree; cbn [size pop_region]; lia).
    lia.
Qed.

Lemma client_bound m k :
  client_invariant m k ->
  0 <= sumZ (map snd (live_bufs k)) /\
  kPageSize * Z.of_nat (length (page_freelist (self m))) +
  kPageSize * Z.of_nat (length (live_pages k)) +
  sumZ (map snd (live_bufs k)) < two64.
Proof.
  intros [Hinv Hin Hap Hbytes Halloc]. split; [by eapply bufs_bytes_nonneg|].
  rewrite <- owned_bytes, Hbytes. by apply consumed_bound.
Qed.

Lemma owned_not_null m k x :
  client_invariant m k -> x ∈ owned m k -> 0 < x.1.
Proof.
  intros [Hinv Hin _ _ _] Hx. rewrite Forall_forall in Hin.
  destruct (Hin x Hx) as (_ & i & r & Hi & Hlo & _).
  pose proof (lookup_region_ok _ _ _ Hinv Hi) as [? _ _ _ _ _ _]. lia.
Qed.

Lemma client_set_prev m k m' :
  client_invariant m k ->
  invariant m' ->
  shm_list (self m') = shm_list (self m) ->
  page_freelist (self m') = page_freelist (self m) ->
  tot_memory_allocated (self m') = tot_memory_allocated (self m) ->
  client_invariant m' k.
Proof.
  intros Hci Hinv' Hl Hfl Hal.
  destruct (client_bound m k Hci) as [H0 Hlt].
  apply (client_keep m k m' k []); try done.
  - by rewrite app_nil_r.
  - unfold owned. by rewrite Hfl.
  - rewrite Hal. destruct Hci as [_ _ _ _ ->]. symmetry. apply wrap_small.
    revert H0 Hlt. consts. lia.
Qed.

Lemma client_acquired m k p m1 :
  client_invariant m k -> is_size_t p -> acquired p m m1 ->
  client_invariant m1 k.
Proof.
  intros Hci Hp Hacq. pose proof Hci as [Hinv _ _ _ Halloc].
  destruct (acquired_invariant p m m1 Hinv Hp Hacq)
    as (Hinv1 & r & Hl & Hfl & Hal & _ & Hcur & _ & _ & _ & _ & Hok).
  destruct (client_bound m k Hci) as [H0 Hlt].
  apply (client_keep m k m1 k [r]); try done.
  - constructor; [|constructor]. destruct Hok as [_ _ _ _ _ _ Hc]. lia.
  - unfold owned. by rewrite Hfl.
  - rewrite Hal, Halloc. symmetry. apply wrap_small.
    revert H0 Hlt. consts. lia.
Qed.

Lemma client_alloc_page m k r :
  client_invariant m k -> alloc_page_does m r ->
  match r with
  | Ok p m' => client_invariant m' (observe call_alloc_page (val_ptr p) k)
  | Throw _ m' => client_invariant m' k
  | _ => True
  end.
Proof.
  intros Hci Hdoes. pose proof Hci as [Hinv Hin Hap Hbytes Halloc].
  pose proof (alloc_page_does_invariant m r) as Hnext.
  destruct Hdoes as [fl p Hfl|m1 i r0 Hfl Hgrow Hinv1 (Hi & Hone & _)
    |m1 Hfl Hz Href|e m1 Hfl Hz Hbrk|s Hs| |];
    try done.
  - (* a page from the freelist *)
    specialize (Hnext _ Hinv (page_popped m fl p Hfl) eq_refl).
    assert (Hp : 0 < p).
    { apply (owned_not_null m k (page_range p) Hci). unfold owned.
      rewrite Hfl, map_app. apply elem_of_app. left. apply elem_of_app.
      right. by apply list_elem_of_singleton. }
    cbn [observe]. destruct (Z.eqb_spec p nullptr) as [Hnull|_];
      [unfold nullptr in *; lia|].
    destruct (client_bound m k Hci) as [H0 Hlt].
    apply (client_keep m k _ _ []); try done.
    + by rewrite app_nil_r.
    + unfold owned. cbn. rewrite Hfl, map_app, <- app_assoc. done.
    + cbn. rewrite Halloc. f_equal. lia.
  - (* a page from a fresh hugepage *)
    assert (Hci1 : client_invariant m1 k).
    { destruct Hgrow as [[_ ->]|[_ Hacq]]; [done|].
      eapply client_acquired; [done| |exact Hacq]. apply wrap_range. }
    assert (Hfl1 : page_freelist (self m1) = []).
    { destruct Hgrow as [[_ ->]|[_ Hacq]]; [done|].
      destruct (acquired_invariant _ m m1 Hinv (wrap_range _) Hacq)
        as (_ & _ & _ & -> & _). done. }
    pose proof (lookup_region_ok _ _ _ Hinv1 Hi) as Hok.
    pose proof Hok as [? ? ? _ ? ? Hc]. unfold consumed in Hc.
    cbn [observe].
    destruct (Z.eqb_spec (cur_buf r0 + (kHugepageSize - kPageSize)) nullptr)
      as [Hnull|_]; [revert Hnull Hc; consts; lia|].
    pose proof Hci1 as [_ _ _ _ Halloc1].
    eapply (client_pop m1 k _ _ i r0 1
              (map page_range (sub_pages (cur_buf r0) 512)));
      [done | done | lia | | done | | | | | ].
    + eapply (invariant_popped m1 _ i r0 1); try done; try lia.
      by destruct Hinv1.
    + unfold owned. cbn. rewrite Hfl1. cbn [map app].
      rewrite (sub_pages_S _ 511), map_app, <- app_assoc. cbn.
      replace (cur_buf r0 + 511 * kPageSize)
        with (cur_buf r0 + (kHugepageSize - kPageSize)) by (consts; lia).
      done.
    + rewrite Forall_forall. intros x Hx.
      apply sub_pages_inside in Hx. revert Hx. consts. lia.
    + apply sub_pages_apart.
    + rewrite sub_pages_bytes. consts. lia.
    + cbn. rewrite Halloc1. f_equal. lia.
  - (* out of hugepages *)
    specialize (Hnext _ Hinv (page_refused m m1 Hfl Hz Href) eq_refl).
    destruct Href as (Hself & Hseg & _). cbn [observe Z.eqb nullptr].
    eapply client_set_prev; try done; by rewrite Hself.
  - (* an exception *)
    specialize (Hnext _ Hinv (page_broke m e m1 Hfl Hz Hbrk) eq_refl).
    destruct Hbrk as (Hself & Hseg & _).
    eapply client_set_prev; try done; by rewrite Hself.
Qed.

Lemma client_alloc_huge sz m k r :
  client_invariant m k -> alloc_huge_does sz m r ->
  match r with
  | Ok p m' => client_invariant m' (observe (call_alloc_huge sz) (val_ptr p) k)
  | Throw _ m' => client_invariant m' k
  | _ => True
  end.
Proof.
  intros Hci Hdoes. pose proof Hci as [Hinv Hin Hap Hbytes Halloc].
  pose proof (fun m' => alloc_huge_does_invariant sz m r m' Hinv Hdoes)
    as Hnext.
  destruct Hdoes as [Hbad|i r0 Hsz (Hi & Hk & _)
    |q m1 r0 Hsz Hnone Hgrows Hacq Hinv1 Hlast Hcur Hk
    |q m1 Hsz Hnone Hgrows (Hself & Hseg & _)
    |q e m1 Hsz Hnone Hgrows (Hself & Hseg & _)|Hsz Hnone Hdiv|s Hs| |];
    try done; specialize (Hnext _ eq_refl).
  - (* from a region that has room *)
    destruct (hugepages_needed sz Hsz) as (Hone & Hwhole & Hrange).
    pose proof (lookup_region_ok _ _ _ Hinv Hi) as Hok.
    pose proof Hok as [? ? ? _ ? ? Hc]. unfold consumed in Hc.
    cbn [observe]. destruct (Z.eqb_spec (cur_buf r0) nullptr) as [Hnull|_];
      [revert Hnull Hc; consts; lia|].
    eapply (client_pop m k _ _ i r0 (round_up sz / kHugepageSize)
              [(cur_buf r0, round_up sz)]);
      [done | done | lia | done | done | | | | | ].
    + unfold owned. cbn. rewrite !app_assoc. symmetry.
      apply Permutation_middle.
    + constructor; [|constructor]. cbn. revert Hrange. consts. lia.
    + done.
    + sums. cbn. lia.
    + cbn. sums. rewrite Halloc. f_equal. cbn. lia.
  - (* from the region just acquired *)
    destruct (hugepages_needed sz Hsz) as (Hone & Hwhole & Hrange).
    pose proof (grows_to_size_t _ _ _ Hgrows) as Hq.
    pose proof (client_acquired m k q m1 Hci Hq Hacq) as Hci1.
    destruct (acquired_invariant q m m1 Hinv Hq Hacq) as (_ & r1 & Hl & _).
    rewrite Hl, last_snoc in Hlast. injection Hlast as ->.
    assert (Hi : shm_list (self m1) !! length (shm_list (self m)) = Some r0)
      by (by rewrite Hl, lookup_app_r, Nat.sub_diag).
    pose proof (lookup_region_ok _ _ _ Hinv1 Hi) as Hok.
    pose proof Hok as [? ? ? _ ? ? Hc]. unfold consumed in Hc.
    pose proof Hci1 as [_ _ _ _ Halloc1].
    cbn [observe]. destruct (Z.eqb_spec (cur_buf r0) nullptr) as [Hnull|_];
      [revert Hnull Hc; consts; lia|].
    eapply (client_pop m1 k _ _ _ r0 (round_up sz / kHugepageSize)
              [(cur_buf r0, round_up sz)]);
      [done | done | lia | done | done | | | | | ].
    + unfold owned. cbn. rewrite !app_assoc. symmetry.
      apply Permutation_middle.
    + constructor; [|constructor]. cbn. revert Hrange. consts. lia.
    + done.
    + sums. cbn. lia.
    + cbn. sums. rewrite Halloc1. f_equal. cbn. lia.
  - cbn [observe Z.eqb nullptr].
    eapply client_set_prev; try done; by rewrite Hself.
  - eapply client_set_prev; try done; by rewrite Hself.
Qed.

Lemma client_free_page m k page :
  client_invariant m k -> page ∈ live_pages k ->
  match free_page page m with
  | Ok _ m' => client_invariant m' (observe (call_free_page page) val_void k)
  | Throw _ _ => False
  | _ => True
  end.
Proof.
  intros Hci Hlive. pose proof Hci as [Hinv Hin Hap Hbytes Halloc].
  destruct (Z.eq_dec (page mod 4096) 0) as [Hal|Hal];
    [|by rewrite free_page_misaligned].
  rewrite free_page_ok by done.
  pose proof (remove_one_perm page _ Hlive) as Hperm.
  apply (client_keep m k _ _ []); try done.
  - eapply invariant_same; try done. by destruct Hinv.
  - by rewrite app_nil_r.
  - unfold owned. cbn. rewrite map_app, <- app_assoc. cbn.
    apply Permutation_app_head. rewrite (Permutation_map page_range Hperm) at 1.
    cbn. rewrite !app_comm_cons. done. 
  - cbn. rewrite Halloc. f_equal.
    apply Permutation_length in Hperm. cbn in Hperm. rewrite Hperm. lia.
Qed.

Lemma invoke_ok c m v m' :
  invoke c m = Ok v m' ->
  match c with
  | call_alloc_page => exists p, v = val_ptr p /\ alloc_page m = Ok p m'
  | call_free_page page => v = val_void /\ free_page page m = Ok tt m'
  | call_alloc_huge sz => exists p, v = val_ptr p /\ alloc_huge sz m = Ok p m'
  | call_get_reserved_memory =>
      exists n, v = val_size n /\ get_reserved_memory m = Ok n m'
  | call_get_allocated_memory =>
      exists n, v = val_size n /\ get_allocated_memory m = Ok n m'
  | call_get_numa_node => v = val_size (numa_node (self m)) /\ m' = m
  end.
Proof.
  destruct c; cbn [invoke]; unfold bind at 1, ret at 1.
  - destruct (alloc_page m); try done. intros [= <- <-]. eauto.
  - destruct (free_page page m) as [[] ?| | | | | | |]; try done.
    by intros [= <- <-].
  - destruct (alloc_huge sz m); try done. intros [= <- <-]. eauto.
  - destruct (get_reserved_memory m); try done. intros [= <- <-]. eauto.
  - destruct (get_allocated_memory m); try done. intros [= <- <-]. eauto.
  - cbn. by intros [= <- <-].
Qed.

Lemma invoke_throw c m e m' :
  invoke c m = Throw e m' ->
  match c with
  | call_alloc_page => alloc_page m = Throw e m'
  | call_alloc_huge sz => alloc_huge sz m = Throw e m'
  | call_free_page page => free_page page m = Throw e m'
  | call_get_reserved_memory => get_reserved_memory m = Throw e m'
  | call_get_allocated_memory => get_allocated_memory m = Throw e m'
  | call_get_numa_node => False
  end.
Proof.
  destruct c; cbn [invoke]; unfold bind at 1.
  - destruct (alloc_page m); try done. by intros [= -> ->].
  - destruct (free_page page m); try done. by intros [= -> ->].
  - destruct (alloc_huge sz m); try done. by intros [= -> ->].
  - destruct (get_reserved_memory m); try done. by intros [= -> ->].
  - destruct (get_allocated_memory m); try done. by intros [= -> ->].
  - done.
Qed.

Lemma run_client_invariant m k : run m k -> client_invariant m k.
Proof.
  induction 1 as [kMax initial_size numa answers m _ _ Hctor
    |c m k v m' _ IH _ Hallowed Hinv|c m k e m' _ IH _ Hallowed Hinv].
  - apply ctor_invariant in Hctor as (Hinv & Hfl & Hal & Hcur).
    apply client_invariant_intro; try done.
    + unfold owned. rewrite Hfl. cbn. constructor.
    + unfold owned. by rewrite Hfl.
    + unfold owned. rewrite Hfl. cbn. symmetry.
      destruct Hinv as [_ _ Hoks _ _ _].
      induction Hoks as [|r rs [_ _ _ _ _ _ Hc] _ IHrs]; [done|].
      inversion Hcur; subst. sums. rewrite IHrs by done. lia.
  - apply invoke_ok in Hinv. destruct c.
    + destruct Hinv as (p & -> & Hcall).
      pose proof (client_alloc_page m k _ IH
        (alloc_page_spec m ltac:(by destruct IH))) as Hstep.
      by rewrite Hcall in Hstep.
    + destruct Hinv as (-> & Hcall).
      pose proof (client_free_page m k page IH Hallowed) as Hstep.
      by rewrite Hcall in Hstep.
    + destruct Hinv as (p & -> & Hcall).
      pose proof (client_alloc_huge sz m k _ IH
        (alloc_huge_spec sz m ltac:(by destruct IH))) as Hstep.
      by rewrite Hcall in Hstep.
    + destruct Hinv as (n & -> & Hcall).
      pose proof (get_reserved_memory_same m) as Hsame.
      rewrite Hcall in Hsame. by subst.
    + destruct Hinv as (n & -> & Hcall).
      pose proof (get_allocated_memory_same m) as Hsame.
      rewrite Hcall in Hsame. by subst.
    + destruct Hinv as (-> & ->). done.
  - apply invoke_throw in Hinv. destruct c; try done.
    + pose proof (client_alloc_page m k _ IH
        (alloc_page_spec m ltac:(by destruct IH))) as Hstep.
      by rewrite Hinv in Hstep.
    + pose proof (client_free_page m k page IH Hallowed) as Hstep.
      by rewrite Hinv in Hstep.
    + pose proof (client_alloc_huge sz m k _ IH
        (alloc_huge_spec sz m ltac:(by destruct IH))) as Hstep.
      by rewrite Hinv in Hstep.
    + pose proof (get_reserved_memory_same m) as Hsame.
      by rewrite Hinv in Hsame.
    + pose proof (get_allocated_memory_same m) as Hsame.
      by rewrite Hinv in Hsame.
Qed.

Lemma run_reachable m k : run m k -> reachable m.
Proof.
  induction 1 as [kMax initial_size numa answers m ? ? Hctor
    |c m k v m' _ IH ? _ Hinv|c m k e m' _ IH ? _ Hinv].
  - by apply (reachable_ctor kMax initial_size numa answers).
  - eapply (reachable_call c m); [done..|]. by rewrite Hinv.
  - eapply (reachable_call c m); [done..|]. by rewrite Hinv.
Qed.

(** * The properties *)

Lemma reachable_m_2M : reachable m_2M.
Proof.
  apply (reachable_ctor 8 2097152 0 [grant 1073741824; grant 2147483648; deny]);
    [by vm_compute..|]. by vm_compute.
Qed.

Lemma reachable_m_starved : reachable m_starved.
Proof.
  apply (reachable_ctor 8 2097152 0 [deny; deny]); [by vm_compute..|].
  by vm_compute.
Qed.

Lemma reachable_m_odd : reachable m_odd.
Proof.
  apply (reachable_ctor 8 2883584 0 [grant 1073741824; grant 2147483648]);
    [by vm_compute..|]. by vm_compute.
Qed.

Lemma run_m_2M : run m_2M no_buffers.
Proof.
  apply (run_ctor 8 2097152 0 [grant 1073741824; grant 2147483648; deny]);
    [by vm_compute..|]. by vm_compute.
Qed.

(** C1: when the first reservation meets a kernel that is out of hugepages,
    [reserve_hugepages] returns false; the constructor drops that value and
    returns normally, leaving an allocator with no region and nothing
    reserved.  (The claim asks for a failed construction.) *)
Theorem ctor_swallows_out_of_memory kMaxNumaNodes initial_size numa w m :
  0 < initial_size <= kMaxAllocSize ->
  numa <= kMaxNumaNodes ->
  reserve_hugepages initial_size numa
    {| self := member_init initial_size numa; os := w |} = Ok false m ->
  HugeAllocator_ctor kMaxNumaNodes initial_size numa w = Ok tt m /\
  shm_list (self m) = [] /\
  get_reserved_memory m = Ok 0 m.
Proof.
  intros Hsz Hnuma Hres.
  pose proof (reserve_hugepages_spec initial_size numa
    {| self := member_init initial_size numa; os := w |}) as Hspec.
  rewrite Hres in Hspec. destruct Hspec as (_ & _ & _ & _ & _ & Hself & _).
  split_and!.
  - unfold HugeAllocator_ctor. unfold bind at 1, assert at 1.
    destruct (Z.ltb_spec 0 initial_size); [|lia].
    destruct (Z.leb_spec initial_size kMaxAllocSize); [|lia]. cbn [andb].
    unfold bind at 1, assert at 1.
    destruct (Z.leb_spec numa kMaxNumaNodes); [|lia].
    unfold bind at 1. by rewrite Hres.
  - by rewrite Hself.
  - unfold get_reserved_memory. monad. cbn beta iota. by rewrite Hself.
Qed.

Lemma ctor_swallows_out_of_memory_witness :
  HugeAllocator_ctor 8 2097152 0 (boot [deny; deny]) = Ok tt m_starved /\
  shm_list (self m_starved) = [] /\
  get_reserved_memory m_starved = Ok 0 m_starved.
Proof.
  apply (ctor_swallows_out_of_memory 8 2097152 0 (boot [deny; deny]) m_starved).
  - unfold kMaxAllocSize. lia.
  - lia.
  - vm_compute. reflexivity.
Defined.

(** ** Null returns *)

Lemma log_tail {A} (l a a' : list A) c c' :
  l ++ a ++ [c] = l ++ a' ++ [c'] -> c = c'.
Proof. intros H%app_inv_head. by apply app_inj_tail in H as [_ ?]. Qed.

Lemma same_log_not_failed m m' :
  shm_log (os m') = shm_log (os m) -> ~ acquirer_failed m m'.
Proof.
  intros Hlog (calls & c & Hfail & _). rewrite Hlog in Hfail.
  apply (f_equal length) in Hfail. rewrite !length_app in Hfail.
  cbn in Hfail. lia.
Qed.

Lemma acquired_not_failed p m m1 : acquired p m m1 -> ~ acquirer_failed m m1.
Proof.
  intros (k & buf & calls & c & _ & _ & _ & _ & Hlog & _ & Hret)
    (calls' & c' & Hlog' & Hret' & _).
  rewrite Hlog in Hlog'. apply log_tail in Hlog'. congruence.
Qed.

Lemma refused_failed p m m1 : refused p m m1 -> acquirer_failed m m1.
Proof. intros (_ & _ & calls & c & Hlog & _ & Hc). by exists calls, c. Qed.

Lemma alloc_page_pop fl p m :
  page_freelist (self m) = fl ++ [p] ->
  alloc_page m = Ok p (with_self (page_taken fl) m).
Proof.
  intros Hfl. unfold alloc_page. unfold bind at 1, get at 1. cbn beta iota.
  destruct (Z.eqb_spec (Z.of_nat (length (page_freelist (self m)))) 0)
    as [Hlen|Hlen]; cbn [negb]; [|by apply take_page_ok].
  rewrite Hfl, length_app in Hlen. cbn in Hlen. lia.
Qed.

(** A page that is freed comes back from the next [alloc_page]. *)
Lemma free_then_alloc page m m1 :
  free_page page m = Ok tt m1 ->
  alloc_page m1 =
    Ok page (with_self (page_taken (page_freelist (self m))) m1).
Proof.
  intros Hfree. destruct (Z.eq_dec (page mod 4096) 0) as [Hal|Hal];
    [|by rewrite free_page_misaligned in Hfree].
  rewrite free_page_ok in Hfree by done. injection Hfree as <-.
  by apply alloc_page_pop.
Qed.

Lemma carved_not_null m i r :
  invariant m -> shm_list (self m) !! i = Some r ->
  cur_buf r <> nullptr /\ cur_buf r + (kHugepageSize - kPageSize) <> nullptr.
Proof.
  intros Hinv Hi. pose proof (lookup_region_ok _ _ _ Hinv Hi)
    as [? ? ? _ ? ? Hc]. unfold consumed in Hc. revert Hc. consts. lia.
Qed.

(** C2, amended: in a reachable state [alloc_huge] returns null exactly
    when the acquirer was refused by the kernel with ENOMEM, and so does
    [alloc_page] as long as no null pointer sits in the freelist.  After a
    null return only [prev_allocation_size] has changed, the state is
    reachable, and a page that is freed comes back from [alloc_page]. *)
Theorem null_iff_out_of_hugepages m :
  reachable m ->
  (forall p m',
     nullptr ∉ page_freelist (self m) ->
     alloc_page m = Ok p m' ->
     (p = nullptr <-> acquirer_failed m m')) /\
  (forall sz p m',
     alloc_huge sz m = Ok p m' ->
     (p = nullptr <-> acquirer_failed m m')) /\
  (forall p m',
     alloc_page m = Ok p m' \/ (exists sz, alloc_huge sz m = Ok p m') ->
     acquirer_failed m m' ->
     p = nullptr /\ reachable m' /\
     (exists q, self m' = set_prev_allocation_size q (self m)) /\
     (forall page, page mod 4096 = 0 ->
        exists m2 m3, free_page page m' = Ok tt m2 /\
                      alloc_page m2 = Ok page m3)).
Proof.
  intros Hreach. pose proof (reachable_invariant m Hreach) as Hinv.
  assert (Hpage : forall p m', alloc_page m = Ok p m' ->
    (acquirer_failed m m' ->
       p = nullptr /\ exists q, self m' = set_prev_allocation_size q (self m)) /\
    (nullptr ∉ page_freelist (self m) -> p = nullptr -> acquirer_failed m m')).
  { intros p m' Hcall. pose proof (alloc_page_spec m Hinv) as Hdoes.
    rewrite Hcall in Hdoes.
    inversion Hdoes as [fl p0 Hfl|m1 i r Hfl Hgrow Hinv1 (Hi & _)
      |m1 Hfl Hz Href| | | |]; subst.
    - split.
      + intros Hfail. by apply same_log_not_failed in Hfail.
      + intros Hnot ->. exfalso. apply Hnot. rewrite Hfl.
        apply elem_of_app. right. by apply list_elem_of_singleton.
    - split.
      + intros Hfail. exfalso.
        destruct Hgrow as [[_ ->]|[_ Hacq]].
        * by apply same_log_not_failed in Hfail.
        * by apply (acquired_not_failed _ _ _ Hacq).
      + intros _ Hnull.
        by destruct (carved_not_null m1 i r Hinv1 Hi) as [_ Hn].
    - split; intros; [|by eapply refused_failed].
      split; [done|]. destruct Href as (Hself & _). eauto. }
  assert (Hhuge : forall sz p m', alloc_huge sz m = Ok p m' ->
    (acquirer_failed m m' ->
       p = nullptr /\ exists q, self m' = set_prev_allocation_size q (self m)) /\
    (p = nullptr -> acquirer_failed m m')).
  { intros sz p m' Hcall. pose proof (alloc_huge_spec sz m Hinv) as Hdoes.
    rewrite Hcall in Hdoes.
    inversion Hdoes as [|i r Hsz (Hi & _)
      |q m1 r Hsz Hnone Hgrows Hacq Hinv1 Hlast Hcur Hk
      |q m1 Hsz Hnone Hgrows Href| | | | |]; subst.
    - split.
      + intros Hfail. by apply same_log_not_failed in Hfail.
      + intros Hnull. by destruct (carved_not_null m i r Hinv Hi) as [Hn _].
    - split.
      + intros Hfail. exfalso. by apply (acquired_not_failed _ _ _ Hacq).
      + intros Hnull. exfalso.
        destruct (acquired_invariant q m m1 Hinv
          (grows_to_size_t _ _ _ Hgrows) Hacq) as (_ & r1 & Hl & _).
        rewrite Hl, last_snoc in Hlast. injection Hlast as ->.
        assert (Hi : shm_list (self m1) !! length (shm_list (self m)) = Some r)
          by (by rewrite Hl, lookup_app_r, Nat.sub_diag).
        by destruct (carved_not_null m1 _ r Hinv1 Hi) as [Hn _].
    - split; intros; [|by eapply refused_failed].
      split; [done|]. destruct Href as (Hself & _). eauto. }
  split_and!.
  - intros p m' Hnot Hcall. destruct (Hpage p m' Hcall) as [H1 H2].
    split; [by apply H2 | by intros []%H1].
  - intros sz p m' Hcall. destruct (Hhuge sz p m' Hcall) as [H1 H2].
    split; [done | by intros []%H1].
  - intros p m' Hcall Hfail.
    assert (p = nullptr /\
            exists q, self m' = set_prev_allocation_size q (self m))
      as [-> Hq].
    { destruct Hcall as [Hcall|[sz Hcall]];
        [by apply (Hpage p m') | by apply (Hhuge sz p m')]. }
    split_and!; [done| |done|].
    + destruct Hcall as [Hcall|[sz Hcall]].
      * apply (reachable_call call_alloc_page m); [done..|].
        cbn [invoke]. by rewrite after_ret_bind, Hcall.
      * apply (reachable_call (call_alloc_huge sz) m); [done| |].
        -- pose proof (alloc_huge_ok_range sz m _ _ Hcall) as Hsz.
           cbn. revert Hsz. consts. lia.
        -- cbn [invoke]. by rewrite after_ret_bind, Hcall.
    + intros page Hal. eexists _, _. split.
      * by apply free_page_ok.
      * by apply alloc_page_pop.
Qed.

Lemma null_iff_out_of_hugepages_witness :
  reachable m_2M /\
  forall p m', alloc_page m_2M = Ok p m' ->
    (p = nullptr <-> acquirer_failed m_2M m').
Proof.
  split; [exact reachable_m_2M|]. intros p m' Hcall.
  assert (Hnot : nullptr ∉ page_freelist (self m_2M)).
  { vm_compute. apply not_elem_of_nil. }
  exact (proj1 (null_iff_out_of_hugepages m_2M reachable_m_2M) p m' Hnot Hcall).
Defined.

(** C2, as stated, fails: after [free_page(nullptr)], which passes the
    alignment assertion, [alloc_page] returns null from the freelist while
    the acquirer is not even called. *)
Lemma null_without_out_of_hugepages :
  reachable m_null_freed /\
  exists m',
    alloc_page m_null_freed = Ok nullptr m' /\
    ~ acquirer_failed m_null_freed m'.
Proof.
  split.
  - apply (reachable_call (call_free_page nullptr) m_2M).
    + exact reachable_m_2M.
    + by vm_compute.
    + by vm_compute.
  - exists (left_by (alloc_page m_null_freed) nowhere). split.
    + by vm_compute.
    + apply same_log_not_failed. by vm_compute.
Qed.

(** ** The region registry *)

Lemma alloc_page_grows m r m' :
  invariant m -> alloc_page_does m r -> after r = Some m' ->
  registry_grows (shm_list (self m)) (shm_list (self m')).
Proof.
  intros Hinv Hdoes Hafter.
  destruct Hdoes as [fl p Hfl|m1 i r0 Hfl Hgrow Hinv1 (Hi & Hone & _)
    |m1 Hfl Hz (Hself & _)|e m1 Hfl Hz (Hself & _)|s Hs| |];
    cbn in Hafter; try done; injection Hafter as <-.
  - apply registry_grows_refl.
  - eapply (registry_grows_trans _ (shm_list (self m1))).
    + destruct Hgrow as [[_ ->]|[_ Hacq]]; [apply registry_grows_refl|].
      destruct (acquired_invariant _ m m1 Hinv (wrap_range _) Hacq)
        as (_ & r1 & -> & _). apply registry_grows_app.
    + apply registry_grows_pop; [done| |lia].
      by eapply lookup_region_ok.
  - rewrite Hself. apply registry_grows_refl.
  - rewrite Hself. apply registry_grows_refl.
Qed.

Lemma alloc_huge_grows sz m r m' :
  invariant m -> alloc_huge_does sz m r -> after r = Some m' ->
  registry_grows (shm_list (self m)) (shm_list (self m')).
Proof.
  intros Hinv Hdoes Hafter.
  destruct Hdoes as [Hbad|i r0 Hsz (Hi & Hk & _)
    |q m1 r0 Hsz Hnone Hgrows Hacq Hinv1 Hlast Hcur Hk
    |q m1 Hsz Hnone Hgrows (Hself & _)
    |q e m1 Hsz Hnone Hgrows (Hself & _)|Hsz Hnone Hdiv|s Hs| |];
    cbn in Hafter; try done; injection Hafter as <-.
  - destruct (hugepages_needed sz Hsz) as (Hone & _).
    apply registry_grows_pop; [done| |lia]. by eapply lookup_region_ok.
  - destruct (hugepages_needed sz Hsz) as (Hone & _).
    destruct (acquired_invariant q m m1 Hinv (grows_to_size_t _ _ _ Hgrows) Hacq)
      as (_ & r1 & Hl & _).
    rewrite Hl, last_snoc in Hlast. injection Hlast as ->.
    assert (Hi : shm_list (self m1) !! length (shm_list (self m)) = Some r0)
      by (by rewrite Hl, lookup_app_r, Nat.sub_diag).
    eapply (registry_grows_trans _ (shm_list (self m1))).
    + rewrite Hl. apply registry_grows_app.
    + apply registry_grows_pop; [done| |lia]. by eapply lookup_region_ok.
  - rewrite Hself. apply registry_grows_refl.
  - rewrite Hself. apply registry_grows_refl.
Qed.

Lemma invoke_grows c m m' :
  invariant m -> after (invoke c m) = Some m' ->
  registry_grows (shm_list (self m)) (shm_list (self m')).
Proof.
  intros Hinv. destruct c as [|page|sz| | |]; cbn [invoke];
    rewrite after_ret_bind.
  - apply (alloc_page_grows m); [done|]. by apply alloc_page_spec.
  - destruct (Z.eq_dec (page mod 4096) 0) as [Hal|Hal].
    + rewrite free_page_ok by done. intros [= <-]. apply registry_grows_refl.
    + by rewrite free_page_misaligned.
  - apply (alloc_huge_grows sz m); [done|]. by apply alloc_huge_spec.
  - intros ->%(getter_same get_reserved_memory _ _ get_reserved_memory_same).
    apply registry_grows_refl.
  - intros ->%(getter_same get_allocated_memory _ _ get_allocated_memory_same).
    apply registry_grows_refl.
  - intros [= <-]. apply registry_grows_refl.
Qed.

(** C3: in every state after construction and after any public operation,
    each region satisfies [cur_buf = base_buf + (size - free_hugepages * H)]
    with [H] = 2 MiB, hence [free_hugepages * H <= size] and
    [cur_buf <= base_buf + size]; and a public operation leaves every region
    in place, with the same base and size and a cursor that has not moved
    back. *)
Theorem cursor_invariant m :
  reachable m ->
  (forall r, r ∈ shm_list (self m) ->
     cur_buf r = base_buf r + (size r - free_hugepages r * 2097152) /\
     free_hugepages r * 2097152 <= size r /\
     cur_buf r <= base_buf r + size r) /\
  (forall c m' i r,
     well_typed c ->
     after (invoke c m) = Some m' ->
     shm_list (self m) !! i = Some r ->
     exists r',
       shm_list (self m') !! i = Some r' /\
       base_buf r' = base_buf r /\ size r' = size r /\
       cur_buf r <= cur_buf r').
Proof.
  intros Hreach. pose proof (reachable_invariant m Hreach) as Hinv. split.
  - intros r Hr. destruct Hinv as [_ _ Hoks _ _ _].
    rewrite Forall_forall in Hoks.
    destruct (Hoks r Hr) as [? ? ? _ ? Hroom Hc]. unfold consumed in Hc.
    revert Hroom Hc. consts. lia.
  - intros c m' i r _ Hafter Hi. by apply (invoke_grows c m m' Hinv Hafter).
Qed.

Lemma cursor_invariant_witness :
  reachable m_2M /\
  forall r, r ∈ shm_list (self m_2M) ->
    cur_buf r = base_buf r + (size r - free_hugepages r * 2097152) /\
    free_hugepages r * 2097152 <= size r /\
    cur_buf r <= base_buf r + size r.
Proof.
  split; [exact reachable_m_2M|].
  exact (proj1 (cursor_invariant m_2M reachable_m_2M)).
Defined.

(** ** Accounting *)

Lemma consumed_whole rs :
  Forall region_ok rs -> sumZ (map consumed rs) mod kPageSize = 0.
Proof.
  induction 1 as [|r rs [_ _ _ Hw _ _ _] _ IH]; sums; [done|].
  unfold consumed at 1. revert Hw IH. consts. intros.
  Z.div_mod_to_equations. lia.
Qed.

(** C4: in every reachable state [get_reserved_memory()] returns the sum
    of the sizes of the regions, a multiple of 2 MiB; and for a caller that
    frees only pages it holds, [get_allocated_memory()] returns 4 KiB times
    the number of pages held plus the rounded-up sizes of the huge buffers
    obtained. *)
Theorem accounting :
  (forall m, reachable m ->
     get_reserved_memory m = Ok (sumZ (map size (shm_list (self m)))) m /\
     sumZ (map size (shm_list (self m))) mod 2097152 = 0) /\
  (forall m k, run m k ->
     get_allocated_memory m =
       Ok (4096 * Z.of_nat (length (live_pages k)) +
           sumZ (map snd (live_bufs k))) m).
Proof.
  split.
  - intros m Hinv%reachable_invariant.
    destruct Hinv as [Hseg Hap Hoks _ Hres _]. rewrite Hseg in Hap.
    destruct (regions_fit _ Hoks Hap) as (_ & _ & _ & _ & Hwhole).
    split; [|exact Hwhole].
    unfold get_reserved_memory. monad. cbn beta iota.
    rewrite Hres, Hwhole. reflexivity.
  - intros m k Hci%run_client_invariant.
    pose proof Hci as [Hinv Hin _ Hbytes Halloc].
    assert (Hwhole : tot_memory_allocated (self m) mod kPageSize = 0).
    { destruct Hinv as [_ _ Hoks _ _ _].
      pose proof (consumed_whole _ Hoks) as Hc. rewrite <- Hbytes in Hc.
      rewrite owned_bytes in Hc. rewrite Halloc. revert Hc. consts. intros.
      Z.div_mod_to_equations. lia. }
    unfold get_allocated_memory. monad. cbn beta iota.
    rewrite Hwhole. cbn [Z.eqb]. by rewrite Halloc.
Qed.

Lemma accounting_witness :
  reachable m_2M /\
  get_reserved_memory m_2M = Ok (sumZ (map size (shm_list (self m_2M)))) m_2M /\
  run m_2M no_buffers /\
  get_allocated_memory m_2M =
    Ok (4096 * Z.of_nat (length (live_pages no_buffers)) +
        sumZ (map snd (live_bufs no_buffers))) m_2M.
Proof.
  split; [exact reachable_m_2M|].
  split; [exact (proj1 (proj1 accounting m_2M reachable_m_2M))|].
  split; [exact run_m_2M|].
  exact (proj2 accounting m_2M no_buffers run_m_2M).
Defined.

(** ** The freelist *)

(** C5: the freelist is last-in first-out.  A page that [free_page] took is
    what the next [alloc_page] returns, and the freelist is then as it was;
    in particular after [a = alloc_page(); b = alloc_page(); free_page(a)]
    the next [alloc_page] returns [a]. *)
Theorem freelist_lifo :
  (forall m page m1,
     free_page page m = Ok tt m1 ->
     exists m2, alloc_page m1 = Ok page m2 /\
                page_freelist (self m2) = page_freelist (self m)) /\
  (forall m a b m1 m2 m3,
     alloc_page m = Ok a m1 ->
     alloc_page m1 = Ok b m2 ->
     free_page a m2 = Ok tt m3 ->
     exists m4, alloc_page m3 = Ok a m4).
Proof.
  split.
  - intros m page m1 Hfree. eexists. split; [by apply free_then_alloc|done].
  - intros m a b m1 m2 m3 _ _ Hfree. eexists. by apply free_then_alloc.
Qed.

Lemma freelist_lifo_witness :
  exists a b m1 m2 m3 m4,
    alloc_page m_2M = Ok a m1 /\ alloc_page m1 = Ok b m2 /\
    free_page a m2 = Ok tt m3 /\ alloc_page m3 = Ok a m4.
Proof.
  set (m1 := left_by (alloc_page m_2M) nowhere).
  set (m2 := left_by (alloc_page m1) nowhere).
  set (m3 := left_by (free_page 1075834880 m2) nowhere).
  assert (H1 : alloc_page m_2M = Ok 1075834880 m1) by (vm_compute; reflexivity).
  assert (H2 : alloc_page m1 = Ok 1075830784 m2) by (vm_compute; reflexivity).
  assert (H3 : free_page 1075834880 m2 = Ok tt m3) by (vm_compute; reflexivity).
  destruct (proj2 freelist_lifo m_2M 1075834880 1075830784 m1 m2 m3 H1 H2 H3)
    as [m4 H4].
  exists 1075834880, 1075830784, m1, m2, m3, m4.
  exact (conj H1 (conj H2 (conj H3 H4))).
Defined.

(** ** Carving *)

Lemma sub_pages_lookup cur n (j : nat) :
  (j < n)%nat -> sub_pages cur n !! j = Some (cur + Z.of_nat j * kPageSize).
Proof.
  intros Hj. unfold sub_pages. rewrite map_fmap, list_lookup_fmap.
  rewrite lookup_seq_lt by done. reflexivity.
Qed.

Lemma carve_loop_empty m cur :
  page_freelist (self m) = [] ->
  0 <= cur -> cur + kHugepageSize <= two64 ->
  carve_loop 513 0 cur m =
  Ok tt (with_self (set_page_freelist (sub_pages cur 512)) m).
Proof.
  intros Hfl H0 Hend. rewrite carve_loop_ok. unfold with_self.
  rewrite Hfl. cbn [app].
  rewrite sub_pages_plain; [done | done | revert Hend; consts; lia].
Qed.

(** C6: when [alloc_page] finds the freelist empty and carves, the inner
    loop pushes the 512 addresses [cursor], [cursor + 4 KiB], ...,
    [cursor + 2 MiB - 4 KiB] of the first region with a free hugepage, in
    this order; the call returns the last one pushed, [cursor + 2 MiB -
    4 KiB], and leaves the other 511 in the freelist. *)
Theorem carve_order m p m' :
  reachable m ->
  page_freelist (self m) = [] ->
  alloc_page m = Ok p m' ->
  p <> nullptr ->
  exists m1 i r,
    (m1 = m \/
     acquired (wrap (prev_allocation_size (self m) * 2)) m m1) /\
    first_with 1 (shm_list (self m1)) i r /\
    carve_loop 513 0 (cur_buf r) m1 =
      Ok tt (with_self (set_page_freelist (sub_pages (cur_buf r) 512)) m1) /\
    (forall j : nat, (j < 512)%nat ->
       sub_pages (cur_buf r) 512 !! j = Some (cur_buf r + Z.of_nat j * 4096)) /\
    last (sub_pages (cur_buf r) 512) = Some p /\
    p = cur_buf r + (2097152 - 4096) /\
    page_freelist (self m') = sub_pages (cur_buf r) 511.
Proof.
  intros Hreach Hfl Hcall Hp.
  pose proof (reachable_invariant m Hreach) as Hinv.
  pose proof (alloc_page_spec m Hinv) as Hdoes. rewrite Hcall in Hdoes.
  inversion Hdoes as [fl p0 Hfl'|m1 i r Hfl' Hgrow Hinv1 Hfirst
    |m1 Hfl' Hz Href| | | |]; subst.
  - rewrite Hfl in Hfl'. by destruct fl.
  - exists m1, i, r.
    assert (Hfl1 : page_freelist (self m1) = []).
    { destruct Hgrow as [[_ ->]|[_ Hacq]]; [done|].
      destruct (acquired_invariant _ m m1 Hinv (wrap_range _) Hacq)
        as (_ & _ & _ & -> & _). done. }
    pose proof Hfirst as (Hi & Hone & _).
    pose proof (lookup_region_ok _ _ _ Hinv1 Hi) as [? ? ? _ ? ? Hc].
    unfold consumed in Hc.
    split_and!.
    + destruct Hgrow as [[_ ->]|[_ Hacq]]; [by left | by right].
    + done.
    + apply carve_loop_empty; [done | lia | revert Hc; consts; lia].
    + intros j Hj. by apply sub_pages_lookup.
    + rewrite (sub_pages_S _ 511), last_snoc. f_equal.
    + reflexivity.
    + reflexivity.
  - done.
Qed.

Lemma carve_order_witness :
  exists m1 i r,
    first_with 1 (shm_list (self m1)) i r /\
    last (sub_pages (cur_buf r) 512) = Some 1075834880 /\
    page_freelist (self (left_by (alloc_page m_2M) nowhere)) =
      sub_pages (cur_buf r) 511.
Proof.
  assert (Hfl : page_freelist (self m_2M) = []) by (vm_compute; reflexivity).
  assert (Hcall : alloc_page m_2M =
                  Ok 1075834880 (left_by (alloc_page m_2M) nowhere))
    by (vm_compute; reflexivity).
  assert (Hp : 1075834880 <> nullptr) by (unfold nullptr; lia).
  destruct (carve_order m_2M 1075834880 _ reachable_m_2M Hfl Hcall Hp)
    as (m1 & i & r & _ & Hfirst & _ & _ & Hlast & _ & Hleft).
  exists m1, i, r. exact (conj Hfirst (conj Hlast Hleft)).
Defined.

(** ** Growth *)

Lemma grows_to_plain prev need p :
  0 < prev -> prev * 2 < two64 -> need <= kMaxAllocSize ->
  grows_to prev need p -> grown_to prev need p.
Proof.
  intros Hpos Htwice Hneed (j & -> & Hle & Hbefore).
  assert (Hplain : forall i : nat, (i <= j)%nat ->
            doubled prev i = prev * 2 ^ (Z.of_nat i + 1)).
  { induction i as [|i IH]; intros Hi.
    - unfold doubled. cbn. apply wrap_small. consts. lia.
    - specialize (IH ltac:(lia)). pose proof (Hbefore i ltac:(lia)) as Hlt.
      rewrite IH in Hlt. unfold doubled.
      replace (Z.of_nat (S i) + 1) with (Z.succ (Z.of_nat i + 1)) by lia.
      rewrite Z.pow_succ_r by lia. apply wrap_small.
      assert (0 < 2 ^ (Z.of_nat i + 1)) by (apply Z.pow_pos_nonneg; lia).
      revert Hlt Hneed. consts. nia. }
  exists j. split_and!.
  - by apply Hplain.
  - done.
  - intros i Hi. rewrite <- Hplain by lia. by apply Hbefore.
Qed.

Lemma asked_same_log sz m m1 m' :
  shm_log (os m') = shm_log (os m1) ->
  acquirer_asked sz m m1 -> acquirer_asked sz m m'.
Proof. intros Hlog (calls & c & H & Hall). exists calls, c. by rewrite Hlog. Qed.

Lemma acquired_asked p m m1 :
  acquired p m m1 ->
  prev_allocation_size (self m1) = p /\ acquirer_asked (round_up p) m m1.
Proof.
  intros (k & buf & calls & c & _ & _ & Hself & _ & Hlog & Hall & _).
  split; [by rewrite Hself|]. by exists calls, c.
Qed.

Lemma refused_asked p m m1 :
  refused p m m1 ->
  prev_allocation_size (self m1) = p /\ acquirer_asked (round_up p) m m1.
Proof.
  intros (Hself & _ & calls & c & Hlog & Hall & _).
  split; [by rewrite Hself|]. by exists calls, c.
Qed.

Lemma broke_asked p m m1 :
  broke p m m1 ->
  prev_allocation_size (self m1) = p /\ acquirer_asked (round_up p) m m1.
Proof.
  intros (Hself & _ & calls & c & Hlog & Hall & _).
  split; [by rewrite Hself|]. by exists calls, c.
Qed.

Lemma fit_or_not k rs i r :
  no_region_fits k rs -> first_with k rs i r -> False.
Proof.
  intros Hnone (Hi & Hk & _). unfold no_region_fits in Hnone.
  rewrite Forall_forall in Hnone.
  pose proof (Hnone r (list_elem_of_lookup_2 _ _ _ Hi)). lia.
Qed.

(** C7, amended: when [alloc_page] finds neither a free page nor a free
    hugepage it doubles [prev_allocation_size] (on 64 bits) and asks the
    acquirer for that many bytes; when no region fits [alloc_huge(size)] it
    doubles [prev_allocation_size] and goes on doubling until the value is
    at least [size] rounded up to whole hugepages, then asks for that.  The
    new value stays in [prev_allocation_size] whether the kernel gives the
    region, answers ENOMEM or the acquirer throws.  As long as the first
    doubling does not overflow, these are the doublings of the spec. *)
Theorem growth_rule m :
  reachable m ->
  (forall m',
     page_freelist (self m) = [] ->
     tot_free_hugepages (self m) = 0 ->
     after (alloc_page m) = Some m' ->
     prev_allocation_size (self m') =
       wrap (prev_allocation_size (self m) * 2) /\
     acquirer_asked (round_up (prev_allocation_size (self m'))) m m') /\
  (forall sz m',
     no_region_fits (round_up sz / kHugepageSize) (shm_list (self m)) ->
     after (alloc_huge sz m) = Some m' ->
     grows_to (prev_allocation_size (self m)) (round_up sz)
       (prev_allocation_size (self m')) /\
     acquirer_asked (round_up (prev_allocation_size (self m'))) m m' /\
     (0 < prev_allocation_size (self m) ->
      prev_allocation_size (self m) * 2 < two64 ->
      grown_to (prev_allocation_size (self m)) (round_up sz)
        (prev_allocation_size (self m')))).
Proof.
  intros Hreach. pose proof (reachable_invariant m Hreach) as Hinv. split.
  - intros m' Hfl Hz Hafter.
    pose proof (alloc_page_spec m Hinv) as Hdoes.
    destruct Hdoes as [fl p Hfl'|m1 i r Hfl' Hgrow Hinv1 Hfirst
      |m1 Hfl' Hz' Href|e m1 Hfl' Hz' Hbrk|s Hs| |];
      cbn in Hafter; try done; injection Hafter as <-.
    + rewrite Hfl in Hfl'. by destruct fl.
    + destruct Hgrow as [[Hnz _]|[_ Hacq]]; [done|].
      destruct (acquired_asked _ _ _ Hacq) as [Hprev Hasked].
      cbn. rewrite Hprev. split; [done|].
      by apply (asked_same_log _ m m1).
    + destruct (refused_asked _ _ _ Href) as [Hprev Hasked].
      rewrite Hprev. done.
    + destruct (broke_asked _ _ _ Hbrk) as [Hprev Hasked].
      rewrite Hprev. done.
  - intros sz m' Hnone Hafter.
    pose proof (alloc_huge_spec sz m Hinv) as Hdoes.
    assert (Hgoal : forall q m1,
      kHugepageSize <= sz <= kMaxAllocSize ->
      grows_to (prev_allocation_size (self m)) (round_up sz) q ->
      prev_allocation_size (self m1) = q ->
      acquirer_asked (round_up q) m m1 ->
      grows_to (prev_allocation_size (self m)) (round_up sz)
        (prev_allocation_size (self m1)) /\
      acquirer_asked (round_up (prev_allocation_size (self m1))) m m1 /\
      (0 < prev_allocation_size (self m) ->
       prev_allocation_size (self m) * 2 < two64 ->
       grown_to (prev_allocation_size (self m)) (round_up sz)
         (prev_allocation_size (self m1)))).
    { intros q m1 Hsz Hgrows Hprev Hasked. rewrite Hprev.
      split_and!; [done..|]. intros Hpos Htwice.
      apply grows_to_plain; [done..| |done].
      by destruct (hugepages_needed sz Hsz) as (_ & _ & _ & ?). }
    destruct Hdoes as [Hbad|i r0 Hsz Hfirst
      |q m1 r0 Hsz _ Hgrows Hacq Hinv1 Hlast Hcur Hk
      |q m1 Hsz _ Hgrows Href
      |q e m1 Hsz _ Hgrows Hbrk|Hsz _ Hdiv|s Hs| |];
      cbn in Hafter; try done; injection Hafter as <-.
    + destruct (fit_or_not _ _ _ _ Hnone Hfirst).
    + destruct (acquired_asked _ _ _ Hacq) as [Hprev Hasked].
      apply (Hgoal q); [done..|by apply (asked_same_log _ m m1)].
    + destruct (refused_asked _ _ _ Href) as [Hprev Hasked].
      by apply (Hgoal q).
    + destruct (broke_asked _ _ _ Hbrk) as [Hprev Hasked].
      by apply (Hgoal q).
Qed.

Lemma no_region_fits_m_odd :
  no_region_fits (round_up 5767168 / kHugepageSize) (shm_list (self m_odd)).
Proof.
  unfold no_region_fits.
  assert (Hl : map free_hugepages (shm_list (self m_odd)) = [2])
    by (vm_compute; reflexivity).
  assert (Hk : round_up 5767168 / kHugepageSize = 3)
    by (vm_compute; reflexivity).
  rewrite Hk. destruct (shm_list (self m_odd)) as [|r [|r' l]]; try done.
  injection Hl as Hr. constructor; [lia|constructor].
Qed.

Lemma growth_rule_witness :
  reachable m_odd /\
  grows_to (prev_allocation_size (self m_odd)) (round_up 5767168)
    (prev_allocation_size (self m_odd_huge)) /\
  acquirer_asked (round_up (prev_allocation_size (self m_odd_huge)))
    m_odd m_odd_huge.
Proof.
  assert (Hafter : after (alloc_huge 5767168 m_odd) = Some m_odd_huge)
    by (vm_compute; reflexivity).
  split; [exact reachable_m_odd|].
  destruct (proj2 (growth_rule m_odd reachable_m_odd) 5767168 m_odd_huge
              no_region_fits_m_odd Hafter) as (Hgrows & Hasked & _).
  exact (conj Hgrows Hasked).
Defined.

(** C7, as stated, fails: an allocator built for 2.75 MiB and asked for a
    huge buffer of 5.5 MiB doubles 2.75 MiB to 5.5 MiB, which is the raw
    request, and then once more, to 11 MiB, because it compares with the
    6 MiB that the request rounds up to. *)
Lemma growth_not_to_raw_size :
  reachable m_odd /\
  no_region_fits (round_up 5767168 / kHugepageSize) (shm_list (self m_odd)) /\
  exists p,
    alloc_huge 5767168 m_odd = Ok p m_odd_huge /\
    prev_allocation_size (self m_odd) = 2883584 /\
    prev_allocation_size (self m_odd_huge) = 11534336 /\
    ~ grown_to (prev_allocation_size (self m_odd)) 5767168
        (prev_allocation_size (self m_odd_huge)).
Proof.
  split; [exact reachable_m_odd|]. split; [exact no_region_fits_m_odd|].
  assert (H0 : prev_allocation_size (self m_odd) = 2883584)
    by (vm_compute; reflexivity).
  assert (H1 : prev_allocation_size (self m_odd_huge) = 11534336)
    by (vm_compute; reflexivity).
  exists 2147483648. split; [vm_compute; reflexivity|].
  split; [exact H0|]. split; [exact H1|].
  rewrite H0, H1. intros (j & Hp & Hle & Hbefore). destruct j as [|j].
  - cbn in Hp. lia.
  - specialize (Hbefore 0%nat ltac:(lia)). cbn in Hbefore. lia.
Qed.

(** ** Disjointness *)

(** C8: the world attaches a segment only where it overlaps no segment
    attached before.  For a caller that frees only pages it holds, any two
    ranges held at the same time, 4 KiB for a page and the rounded-up size
    for a huge buffer, share no address. *)
Theorem held_ranges_apart m k i j x y :
  run m k ->
  i <> j ->
  held k !! i = Some x ->
  held k !! j = Some y ->
  x.1 + x.2 <= y.1 \/ y.1 + y.2 <= x.1.
Proof.
  intros Hci%run_client_invariant Hij Hi Hj.
  destruct Hci as [_ _ Hap _ _]. unfold owned in Hap.
  apply all_apart_app in Hap as (_ & Hheld & _).
  apply apart_true. by apply (all_apart_lookup (held k) i j).
Qed.

Lemma run_m_two_pages : run m_two_pages k_two_pages.
Proof.
  assert (H1 : invoke call_alloc_page m_2M = Ok (val_ptr 1075834880) m_one_page)
    by (vm_compute; reflexivity).
  assert (H2 : invoke call_alloc_page m_one_page =
               Ok (val_ptr 1075830784) m_two_pages)
    by (vm_compute; reflexivity).
  pose proof (run_ret call_alloc_page m_2M no_buffers _ _ run_m_2M I I H1)
    as Hrun1.
  exact (run_ret call_alloc_page m_one_page k_one_page _ _ Hrun1 I I H2).
Qed.

Lemma held_ranges_apart_witness :
  run m_two_pages k_two_pages /\
  (1075830784 + 4096 <= 1075834880 \/ 1075834880 + 4096 <= 1075830784).
Proof.
  split; [exact run_m_two_pages|].
  exact (held_ranges_apart m_two_pages k_two_pages 0 1
           (1075830784, 4096) (1075834880, 4096) run_m_two_pages
           ltac:(lia) eq_refl eq_refl).
Defined.

(** ** The scan of [alloc_page] *)

Lemma alloc_page_scans m :
  page_freelist (self m) = [] ->
  tot_free_hugepages (self m) <> 0 ->
  alloc_page m = alloc_page_scan 0 (shm_list (self m)) m.
Proof.
  intros Hfl Hnz. unfold alloc_page. unfold bind at 1, get at 1.
  cbn beta iota. rewrite Hfl. cbn [length Z.of_nat Z.eqb negb].
  destruct (Z.eqb_spec (tot_free_hugepages (self m)) 0); [done|].
  reflexivity.
Qed.

Lemma alloc_page_after_growth m m1 :
  page_freelist (self m) = [] ->
  tot_free_hugepages (self m) = 0 ->
  reserve_hugepages (wrap (prev_allocation_size (self m) * 2))
    (numa_node (self m))
    (with_self (set_prev_allocation_size
                  (wrap (prev_allocation_size (self m) * 2))) m) = Ok true m1 ->
  alloc_page m = alloc_page_scan 0 (shm_list (self m1)) m1.
Proof.
  intros Hfl Hz Hres. unfold alloc_page. unfold bind at 1, get at 1.
  cbn beta iota. rewrite Hfl, Hz.
  lazy beta iota zeta delta [negb length Z.of_nat Z.eqb].
  unfold bind at 1. unfold bind at 1, modify at 1. unfold bind at 1, get at 1.
  cbn beta iota.
  cbn [self set_prev_allocation_size prev_allocation_size numa_node].
  unfold with_self in Hres. rewrite Hres. reflexivity.
Qed.

(** C9: in every reachable state [tot_free_hugepages] is the sum of the
    [free_hugepages] of the regions, and [alloc_page] never reaches its final
    [exit(-1)]: with an empty freelist, when [tot_free_hugepages > 0] or
    when the reservation succeeds, the scan finds a first region with a free
    hugepage and the call returns from inside the loop. *)
Theorem alloc_page_never_falls_through m :
  reachable m ->
  tot_free_hugepages (self m) =
    sumZ (map free_hugepages (shm_list (self m))) /\
  alloc_page m <> Exit exit_alloc_page /\
  (page_freelist (self m) = [] ->
   0 < tot_free_hugepages (self m) ->
   exists i r,
     first_with 1 (shm_list (self m)) i r /\
     alloc_page m =
       Ok (cur_buf r + (kHugepageSize - kPageSize))
          (with_self (carved i r) m)) /\
  (forall m1,
     page_freelist (self m) = [] ->
     tot_free_hugepages (self m) = 0 ->
     reserve_hugepages (wrap (prev_allocation_size (self m) * 2))
       (numa_node (self m))
       (with_self (set_prev_allocation_size
                     (wrap (prev_allocation_size (self m) * 2))) m)
       = Ok true m1 ->
     exists i r,
       first_with 1 (shm_list (self m1)) i r /\
       alloc_page m =
         Ok (cur_buf r + (kHugepageSize - kPageSize))
            (with_self (carved i r) m1)).
Proof.
  intros Hreach. pose proof (reachable_invariant m Hreach) as Hinv.
  split_and!.
  - by destruct Hinv.
  - intros Hexit. pose proof (alloc_page_spec m Hinv) as Hdoes.
    rewrite Hexit in Hdoes. by inversion Hdoes.
  - intros Hfl Hpos.
    destruct (free_region_found m Hinv ltac:(lia)) as (i & r & Hfind).
    destruct (carve_found m i r Hinv Hfl Hfind) as (Hscan & Hfirst & _).
    exists i, r. split; [done|]. rewrite alloc_page_scans by (done || lia).
    done.
  - intros m1 Hfl Hz Hres.
    set (p := wrap (prev_allocation_size (self m) * 2)) in *.
    pose proof (reserve_hugepages_spec p (numa_node (self m))
      (with_self (set_prev_allocation_size p) m)) as Hspec.
    rewrite Hres in Hspec.
    destruct Hspec as (calls & c & Hlog & Hall & Hret & k & buf & Hb & Hmap & Hself & Hseg).
    assert (Hacq : acquired p m m1) by (exists k, buf, calls, c; done).
    destruct (acquired_invariant p m m1 Hinv (wrap_range _) Hacq)
      as (Hinv1 & r1 & Hl & Hfl1 & _ & _ & _ & _ & _ & Hone & _).
    destruct (free_region_found m1 Hinv1) as (i & r & Hfind).
    { destruct Hinv1 as [_ _ _ Hfree _ _]. rewrite Hfree, Hl.
      rewrite map_app, sumZ_app. sums.
      destruct Hinv as [_ _ _ Hf _ _]. rewrite <- Hf. lia. }
    rewrite Hfl in Hfl1.
    destruct (carve_found m1 i r Hinv1 Hfl1 Hfind) as (Hscan & Hfirst & _).
    exists i, r. split; [done|].
    rewrite (alloc_page_after_growth m m1 Hfl Hz Hres). done.
Qed.

Lemma alloc_page_never_falls_through_witness :
  reachable m_2M /\
  alloc_page m_2M <> Exit exit_alloc_page /\
  exists i r,
    first_with 1 (shm_list (self m_2M)) i r /\
    alloc_page m_2M =
      Ok (cur_buf r + (kHugepageSize - kPageSize)) (with_self (carved i r) m_2M).
Proof.
  assert (Hfl : page_freelist (self m_2M) = []) by (vm_compute; reflexivity).
  assert (Hpos : 0 < tot_free_hugepages (self m_2M))
    by (vm_compute; reflexivity).
  pose proof (alloc_page_never_falls_through m_2M reachable_m_2M)
    as (_ & Hexit & Hscan & _).
  exact (conj reachable_m_2M (conj Hexit (Hscan Hfl Hpos))).
Defined.

(** ** The region that growth appends *)

Lemma round_up_ceil sz :
  kHugepageSize <= sz <= kMaxAllocSize ->
  round_up sz / kHugepageSize = (sz + (kHugepageSize - 1)) / kHugepageSize.
Proof. consts. intros. Z.div_mod_to_equations. lia. Qed.

(** C10: when no region fits [alloc_huge(size)] and the reservation
    succeeds, the region appended last has at least [ceil(size / H)] free
    hugepages: the request made is at least [size] and the region is that
    request rounded up.  The assertion of [pop_hugepages] holds, no other
    assertion fails, and the count of the region does not go below zero. *)
Theorem grown_region_suffices sz m :
  reachable m ->
  kHugepageSize <= sz <= kMaxAllocSize ->
  no_region_fits (round_up sz / kHugepageSize) (shm_list (self m)) ->
  (forall a, alloc_huge sz m <> AssertFail a) /\
  alloc_huge sz m <> Undefined /\
  (forall p m',
     alloc_huge sz m = Ok p m' ->
     p <> nullptr ->
     exists q m1 r,
       acquired q m m1 /\
       last (shm_list (self m1)) = Some r /\
       sz <= q /\ q <= size r /\
       (sz + (kHugepageSize - 1)) / kHugepageSize <= free_hugepages r /\
       p = base_buf r /\
       last (shm_list (self m')) =
         Some (pop_region r (round_up sz / kHugepageSize)) /\
       free_hugepages (pop_region r (round_up sz / kHugepageSize)) =
         free_hugepages r - (sz + (kHugepageSize - 1)) / kHugepageSize /\
       0 <= free_hugepages (pop_region r (round_up sz / kHugepageSize))).
Proof.
  intros Hreach Hsz Hnone. pose proof (reachable_invariant m Hreach) as Hinv.
  pose proof (alloc_huge_spec sz m Hinv) as Hdoes.
  split_and!.
  - intros a Ha. rewrite Ha in Hdoes. by inversion Hdoes.
  - intros Hu. rewrite Hu in Hdoes. by inversion Hdoes.
  - intros p m' Hcall Hp. rewrite Hcall in Hdoes.
    inversion Hdoes as [|i r _ Hfirst
      |q m1 r _ _ Hgrows Hacq Hinv1 Hlast Hcur Hk
      |q m1 _ _ Hgrows Href| | | | |]; subst.
    + destruct (fit_or_not _ _ _ _ Hnone Hfirst).
    + destruct (hugepages_needed sz Hsz) as (Hone & Hwhole & Hrange).
      pose proof (round_up_small sz ltac:(revert Hsz; consts; lia)) as [Hup _].
      pose proof (grows_to_size_t _ _ _ Hgrows) as Hq.
      destruct (acquired_invariant q m m1 Hinv Hq Hacq)
        as (_ & r1 & Hl & _ & _ & _ & _ & Hsize & _ & _ & Hle & Hok).
      rewrite Hl, last_snoc in Hlast. injection Hlast as ->.
      destruct Hgrows as (j & _ & Hneed & _).
      destruct (region_ok_pop r (round_up sz / kHugepageSize) Hok ltac:(lia))
        as (_ & _ & Hfree).
      exists q, m1, r. rewrite <- round_up_ceil by done.
      split_and!; try done; try lia.
      * by rewrite Hl, last_snoc.
      * cbn [with_self self bumped popped set_tot_memory_allocated
          set_tot_free_hugepages set_shm_list shm_list].
        rewrite Hl, insert_app_r_alt, Nat.sub_diag by done. cbn [insert list_insert].
        by rewrite last_snoc.
    + done.
Qed.

Lemma grown_region_suffices_witness :
  reachable m_odd /\
  forall a, alloc_huge 5767168 m_odd <> AssertFail a.
Proof.
  split; [exact reachable_m_odd|].
  exact (proj1 (grown_region_suffices 5767168 m_odd reachable_m_odd
                  ltac:(unfold kHugepageSize, kMaxAllocSize; lia)
                  no_region_fits_m_odd)).
Defined.

(** ** The fuel of the growth loop *)

(** When 65 turns do not end the [while] loop of [alloc_huge], no number of
    turns does: [prev_allocation_size] has become 0. *)
Lemma grow_loop_runs_forever sz m fuel :
  0 < sz ->
  grow_loop 65 sz m = Diverge ->
  grow_loop fuel sz m = Diverge.
Proof.
  intros Hsz H65. pose proof (grow_loop_spec 65 sz m) as Hs.
  rewrite H65 in Hs.
  assert (Hall : forall i : nat,
            Nat.iter i twice (prev_allocation_size (self m)) < sz).
  { intros i. destruct (Nat.lt_ge_cases i 65) as [Hi|Hi]; [by apply Hs|].
    replace i with (S (i - 1)) by lia. rewrite Nat.iter_succ_r.
    change (twice (prev_allocation_size (self m)))
      with (wrap (prev_allocation_size (self m) * 2)).
    rewrite twice_doubled, doubled_high by lia. done. }
  pose proof (grow_loop_spec fuel sz m) as Hf.
  destruct (grow_loop fuel sz m) as [[] m'|e m'|s| | | | |]; try done.
  destruct Hf as (_ & j & _ & _ & Hle & _). specialize (Hall j). lia.
Qed.

(** * More about the allocator *)

(** ** What every reachable allocator satisfies

    A property of the allocator that the constructor establishes and that
    each of the six ways in which the code rewrites its members keeps holds
    in every reachable state. *)

Lemma acquired_shape p m m1 :
  invariant m -> is_size_t p -> acquired p m m1 ->
  exists r,
    self m1 = recorded r (set_prev_allocation_size p (self m)) /\
    region_ok r /\ cur_buf r = base_buf r /\ 1 <= free_hugepages r.
Proof.
  intros Hinv Hp (k & buf & calls & c & Hbuf & Hmap & Hself & _).
  exists (fresh_region k buf (round_up p)).
  pose proof Hmap as (Hsz & Hbuf0 & Hend & _)%mappable_spec.
  destruct (region_ok_fresh k buf (round_up p)) as [Hok Hone];
    [unfold nullptr in *; lia | done.. | apply round_up_whole |].
  done.
Qed.

Section Everywhere.

Variable P : HugeAllocator -> Prop.

Hypothesis P_init : forall initial_size numa,
  0 < initial_size <= kMaxAllocSize -> P (member_init initial_size numa).
Hypothesis P_prev : forall s q,
  P s -> is_size_t q -> P (set_prev_allocation_size q s).
Hypothesis P_recorded : forall s r,
  P s -> region_ok r -> cur_buf r = base_buf r -> P (recorded r s).
Hypothesis P_taken : forall s fl p,
  P s -> page_freelist s = fl ++ [p] -> P (page_taken fl s).
Hypothesis P_carved : forall s i r,
  P s -> page_freelist s = [] -> shm_list s !! i = Some r -> region_ok r ->
  1 <= free_hugepages r -> P (carved i r s).
Hypothesis P_bumped : forall s i r sz,
  P s -> shm_list s !! i = Some r -> region_ok r ->
  kHugepageSize <= sz <= kMaxAllocSize ->
  round_up sz / kHugepageSize <= free_hugepages r ->
  P (bumped i r (round_up sz / kHugepageSize) (round_up sz) s).
Hypothesis P_freed : forall s page,
  P s -> page mod 4096 = 0 ->
  P (set_tot_memory_allocated (wrap (tot_memory_allocated s - kPageSize))
       (set_page_freelist (page_freelist s ++ [page]) s)).

Lemma everywhere_acquired p m m1 :
  invariant m -> is_size_t p -> P (self m) -> acquired p m m1 -> P (self m1).
Proof.
  intros Hinv Hp HP Hacq.
  destruct (acquired_shape p m m1 Hinv Hp Hacq) as (r & -> & Hok & Hcur & _).
  apply P_recorded; [|done..]. by apply P_prev.
Qed.

Lemma everywhere_step c m m' :
  invariant m -> P (self m) -> after (invoke c m) = Some m' -> P (self m').
Proof.
  intros Hinv HP. destruct c as [|page|sz| | |]; cbn [invoke];
    rewrite after_ret_bind.
  - pose proof (alloc_page_spec m Hinv) as Hdoes. intros Hafter.
    destruct Hdoes as [fl p Hfl|m1 i r0 Hfl Hgrow Hinv1 (Hi & Hone & _)
      |m1 Hfl Hz (Hself & _)|e m1 Hfl Hz (Hself & _)|s Hs| |];
      cbn in Hafter; try done; injection Hafter as <-.
    + by apply (P_taken _ fl p).
    + assert (P (self m1) /\ page_freelist (self m1) = []) as [HP1 Hfl1].
      { destruct Hgrow as [[_ ->]|[_ Hacq]]; [done|]. split.
        - eapply everywhere_acquired;
            [exact Hinv|apply wrap_range|exact HP|exact Hacq].
        - pose proof (wrap_range (prev_allocation_size (self m) * 2)) as Hp.
          destruct (acquired_invariant _ m m1 Hinv Hp Hacq)
            as (_ & r1 & _ & -> & _). done. }
      apply P_carved; try done. by eapply lookup_region_ok.
    + rewrite Hself. apply P_prev; [done | apply wrap_range].
    + rewrite Hself. apply P_prev; [done | apply wrap_range].
  - destruct (Z.eq_dec (page mod 4096) 0) as [Hal|Hal].
    + rewrite free_page_ok by done. intros [= <-]. by apply P_freed.
    + by rewrite free_page_misaligned.
  - pose proof (alloc_huge_spec sz m Hinv) as Hdoes. intros Hafter.
    destruct Hdoes as [Hbad|i r0 Hsz (Hi & Hk & _)
      |q m1 r0 Hsz Hnone Hgrows Hacq Hinv1 Hlast Hcur Hk
      |q m1 Hsz Hnone Hgrows (Hself & _)
      |q e m1 Hsz Hnone Hgrows (Hself & _)|Hsz Hnone Hdiv|s Hs| |];
      cbn in Hafter; try done; injection Hafter as <-.
    + apply P_bumped; try done. by eapply lookup_region_ok.
    + pose proof (grows_to_size_t _ _ _ Hgrows) as Hq.
      destruct (acquired_invariant q m m1 Hinv Hq Hacq) as (_ & r1 & Hl & _).
      rewrite Hl, last_snoc in Hlast. injection Hlast as ->.
      assert (Hi : shm_list (self m1) !! length (shm_list (self m)) = Some r0)
        by (by rewrite Hl, lookup_app_r, Nat.sub_diag).
      apply P_bumped; try done.
      * by apply (everywhere_acquired q m m1).
      * by eapply lookup_region_ok.
    + rewrite Hself. apply P_prev; [done|]. by eapply grows_to_size_t.
    + rewrite Hself. apply P_prev; [done|]. by eapply grows_to_size_t.
  - by intros ->%(getter_same get_reserved_memory _ _ get_reserved_memory_same).
  - by intros ->%(getter_same get_allocated_memory _ _ get_allocated_memory_same).
  - by intros [= <-].
Qed.

Lemma everywhere m : reachable m -> P (self m).
Proof.
  induction 1 as [kMax initial_size numa answers m _ _ Hctor
    |c m m' Hreach IH _ Hafter].
  - apply ctor_spec in Hctor as (Hsz & _ & b & Hres).
    set (m0 := {| self := member_init initial_size numa; os := boot answers |})
      in *.
    assert (Hinv0 : invariant m0).
    { split; cbn; try done. revert Hsz. consts. lia. }
    pose proof (reserve_hugepages_spec initial_size numa m0) as Hspec.
    rewrite Hres in Hspec.
    destruct Hspec as (calls & c & Hlog & Hall & Hb). destruct b.
    + destruct Hb as (Hret & k & buf & Hbuf & Hmap & Hself & Hseg).
      pose proof Hmap as (Hpos & Hbuf0 & Hend & _)%mappable_spec.
      destruct (region_ok_fresh k buf (round_up initial_size)) as [Hok _];
        [unfold nullptr in *; lia | done.. | apply round_up_whole |].
      rewrite Hself. apply P_recorded; [|done..]. by apply P_init.
    + destruct Hb as (_ & -> & _). by apply P_init.
  - eapply everywhere_step; [|exact IH|exact Hafter].
    by apply reachable_invariant.
Qed.

End Everywhere.

(** ** The books of undisciplined callers *)

Lemma wrap_whole_page a d :
  a mod kPageSize = 0 -> d mod kPageSize = 0 -> wrap (a + d) mod kPageSize = 0.
Proof. consts. intros. Z.div_mod_to_equations. lia. Qed.

Lemma whole_hugepage_whole_page d :
  d mod kHugepageSize = 0 -> d mod kPageSize = 0.
Proof. consts. intros. Z.div_mod_to_equations. lia. Qed.

Lemma reachable_m_stray_free : reachable m_stray_free.
Proof.
  apply (reachable_call (call_free_page 4096) m_2M);
    [exact reachable_m_2M | by vm_compute | vm_compute; reflexivity].
Qed.

Lemma allocated_counter m :
  reachable m ->
  tot_memory_allocated (self m) mod kPageSize = 0 /\
  is_size_t (tot_memory_allocated (self m)).
Proof.
  revert m.
  apply (everywhere (fun s => tot_memory_allocated s mod kPageSize = 0 /\
                              is_size_t (tot_memory_allocated s))).
  - intros. cbn. by consts.
  - by intros s q.
  - by intros s r.
  - intros s fl p [Hs _] _. cbn. split; [|apply wrap_range].
    by apply wrap_whole_page.
  - intros s i r [Hs _] _ _ _ _. cbn. split; [|apply wrap_range].
    by apply wrap_whole_page.
  - intros s i r sz [Hs _] _ _ _ _. cbn. split; [|apply wrap_range].
    apply wrap_whole_page; [done|].
    apply whole_hugepage_whole_page, round_up_whole.
  - intros s page [Hs _] _. cbn. split; [|apply wrap_range].
    by apply (wrap_whole_page _ (- kPageSize)).
Qed.

Lemma get_allocated_memory_ok m :
  reachable m ->
  get_allocated_memory m = Ok (tot_memory_allocated (self m)) m.
Proof.
  intros [Hmod _]%allocated_counter.
  unfold get_allocated_memory. unfold bind at 1, get at 1.
  unfold bind at 1, assert at 1. cbn beta iota. by rewrite Hmod.
Qed.

Lemma get_reserved_memory_ok m :
  invariant m ->
  get_reserved_memory m = Ok (tot_memory_reserved (self m)) m.
Proof.
  intros [Hseg Hap Hoks _ Hres _]. rewrite Hseg in Hap.
  destruct (regions_fit _ Hoks Hap) as (_ & _ & _ & _ & Hwhole).
  unfold get_reserved_memory. unfold bind at 1, get at 1.
  unfold bind at 1, assert at 1. cbn beta iota. by rewrite Hres, Hwhole.
Qed.

(** X1: [tot_memory_allocated] is a multiple of 4 KiB below 2^64 in every
    reachable state, whatever the caller frees, so that the assertion of
    [get_allocated_memory()] never fails: it returns the counter and leaves
    the allocator as it was. *)
Theorem get_allocated_memory_never_aborts m :
  reachable m ->
  tot_memory_allocated (self m) mod kPageSize = 0 /\
  is_size_t (tot_memory_allocated (self m)) /\
  get_allocated_memory m = Ok (tot_memory_allocated (self m)) m.
Proof.
  intros Hreach. destruct (allocated_counter m Hreach) as [Hmod Hrange].
  split_and!; [done..|]. by apply get_allocated_memory_ok.
Qed.

Lemma get_allocated_memory_never_aborts_witness :
  reachable m_stray_free /\
  tot_memory_allocated (self m_stray_free) = two64 - 4096 /\
  get_allocated_memory m_stray_free =
    Ok (tot_memory_allocated (self m_stray_free)) m_stray_free.
Proof.
  split; [exact reachable_m_stray_free|].
  split; [vm_compute; reflexivity|].
  exact (proj2 (proj2 (get_allocated_memory_never_aborts m_stray_free
                         reachable_m_stray_free))).
Defined.

(** ** The NUMA node *)

(** X2: no public operation changes [numa_node]: after any call on a
    reachable allocator, [get_numa_node()] returns what it returned
    before. *)
Theorem numa_node_never_changes c m m' :
  reachable m ->
  after (invoke c m) = Some m' ->
  numa_node (self m') = numa_node (self m) /\
  get_numa_node m' = Ok (numa_node (self m)) m'.
Proof.
  intros Hreach Hafter.
  assert (H : numa_node (self m') = numa_node (self m)).
  { apply (everywhere_step (fun s => numa_node s = numa_node (self m)))
      with (c := c) (m := m); try done.
    by apply reachable_invariant. }
  split; [done|]. unfold get_numa_node, bind, get, ret. by rewrite H.
Qed.

Lemma numa_node_never_changes_witness :
  numa_node (self m_one_page) = numa_node (self m_2M) /\
  get_numa_node m_one_page = Ok (numa_node (self m_2M)) m_one_page.
Proof.
  apply (numa_node_never_changes call_alloc_page m_2M m_one_page).
  - exact reachable_m_2M.
  - vm_compute. reflexivity.
Defined.

(** ** Alignment *)

Lemma bases_aligned_insert a rs i r r' :
  rs !! i = Some r -> base_buf r' = base_buf r ->
  bases_aligned a (<[i := r']> rs) -> bases_aligned a rs.
Proof.
  unfold bases_aligned. rewrite !Forall_lookup. intros Hi Hbase Hall j y Hj.
  destruct (decide (j = i)) as [->|Hne].
  - assert (y = r) as -> by congruence. rewrite <- Hbase.
    apply (Hall i r'). apply list_lookup_insert_eq.
    by eapply lookup_lt_Some.
  - apply (Hall j y). by rewrite list_lookup_insert_ne.
Qed.

Lemma bases_aligned_inserted a rs i r r' :
  rs !! i = Some r -> base_buf r' = base_buf r ->
  bases_aligned a (<[i := r']> rs) -> base_buf r mod a = 0.
Proof.
  intros Hi Hbase Hall. unfold bases_aligned in Hall.
  rewrite Forall_lookup in Hall. rewrite <- Hbase. apply (Hall i r').
  apply list_lookup_insert_eq. by eapply lookup_lt_Some.
Qed.

Lemma cursor_whole_page r :
  region_ok r -> base_buf r mod kPageSize = 0 -> cur_buf r mod kPageSize = 0.
Proof.
  intros [_ _ _ Hw _ _ Hc] Hb. rewrite Hc. unfold consumed.
  revert Hw Hb. consts. intros. Z.div_mod_to_equations. lia.
Qed.

Lemma cursor_whole_hugepage r :
  region_ok r -> base_buf r mod kHugepageSize = 0 ->
  cur_buf r mod kHugepageSize = 0.
Proof.
  intros [_ _ _ Hw _ _ Hc] Hb. rewrite Hc. unfold consumed.
  revert Hw Hb. consts. intros. Z.div_mod_to_equations. lia.
Qed.

Lemma sub_pages_whole cur n :
  cur mod kPageSize = 0 -> Forall (fun p => p mod kPageSize = 0) (sub_pages cur n).
Proof.
  intros Hcur. unfold sub_pages. rewrite Forall_forall. intros p Hp.
  apply list_elem_of_In, in_map_iff in Hp as (j & <- & _).
  revert Hcur. consts. intros. Z.div_mod_to_equations. lia.
Qed.

Lemma freelist_whole_pages m :
  reachable m ->
  bases_aligned kPageSize (shm_list (self m)) ->
  Forall (fun p => p mod kPageSize = 0) (page_freelist (self m)).
Proof.
  revert m.
  apply (everywhere (fun s =>
    bases_aligned kPageSize (shm_list s) ->
    Forall (fun p => p mod kPageSize = 0) (page_freelist s))).
  - intros. cbn. constructor.
  - by intros s q.
  - intros s r IH _ _. cbn. unfold bases_aligned.
    rewrite Forall_app. intros [Hrs _]. by apply IH.
  - intros s fl p IH Hfl. cbn. intros Hrs. specialize (IH Hrs).
    rewrite Hfl, Forall_app in IH. by destruct IH.
  - intros s i r _ _ Hi Hok _. cbn. intros Hrs.
    apply sub_pages_whole, cursor_whole_page; [done|].
    by eapply (bases_aligned_inserted _ _ i r (pop_region r 1)).
  - intros s i r sz IH Hi _ _ _. cbn. intros Hrs. apply IH.
    by eapply (bases_aligned_insert _ _ i r (pop_region r _)).
  - intros s page IH Hpage. cbn. intros Hrs. rewrite Forall_app. split.
    + by apply IH.
    + constructor; [|constructor]. by consts.
Qed.

(** X3: when the kernel attaches every segment at a multiple of 4 KiB,
    every address on the freelist and every address that [alloc_page()]
    returns is a multiple of 4 KiB: the pages carved are, and the assertion
    of [free_page] lets nothing else in. *)
Theorem alloc_page_aligned m p m' :
  reachable m ->
  alloc_page m = Ok p m' ->
  bases_aligned kPageSize (shm_list (self m')) ->
  p mod kPageSize = 0 /\
  Forall (fun p => p mod kPageSize = 0) (page_freelist (self m')).
Proof.
  intros Hreach Hcall Hrs. split.
  - pose proof (reachable_invariant m Hreach) as Hinv.
    pose proof (alloc_page_spec m Hinv) as Hdoes. rewrite Hcall in Hdoes.
    inversion Hdoes as [fl p' Hfl|m1 i r0 Hfl Hgrow Hinv1 (Hi & Hone & _)
      |m1 Hfl Hz Href|e m1 Hfl Hz Hbr|s Hs| |]; subst.
    + cbn in Hrs. pose proof (freelist_whole_pages m Hreach Hrs) as Hall.
      rewrite Hfl, Forall_app, Forall_singleton in Hall. by destruct Hall.
    + cbn in Hrs.
      pose proof (bases_aligned_inserted _ _ i r0 (pop_region r0 1) Hi
                    eq_refl Hrs) as Hbase.
      pose proof (cursor_whole_page r0 (lookup_region_ok _ _ _ Hinv1 Hi) Hbase)
        as Hcur.
      revert Hcur. consts. intros. Z.div_mod_to_equations. lia.
    + by consts.
  - apply freelist_whole_pages; [|done].
    apply (reachable_call call_alloc_page m); [done..|].
    cbn [invoke]. rewrite after_ret_bind. by rewrite Hcall.
Qed.

Lemma alloc_page_aligned_witness :
  alloc_page m_2M = Ok 1075834880 m_one_page /\
  1075834880 mod kPageSize = 0.
Proof.
  assert (Hcall : alloc_page m_2M = Ok 1075834880 m_one_page)
    by (vm_compute; reflexivity).
  assert (Hrs : bases_aligned kPageSize (shm_list (self m_one_page))).
  { assert (Hl : shm_list (self m_one_page) =
                 [pop_region (fresh_region 5 1073741824 2097152) 1])
      by (vm_compute; reflexivity).
    rewrite Hl. constructor; [reflexivity | constructor]. }
  exact (conj Hcall
           (proj1 (alloc_page_aligned m_2M _ _ reachable_m_2M Hcall Hrs))).
Defined.

(** X4: when the kernel attaches every segment at a multiple of 2 MiB,
    every address that [alloc_huge(sz)] returns is a multiple of 2 MiB. *)
Theorem alloc_huge_aligned sz m p m' :
  reachable m ->
  alloc_huge sz m = Ok p m' ->
  bases_aligned kHugepageSize (shm_list (self m')) ->
  p mod kHugepageSize = 0.
Proof.
  intros Hreach Hcall Hrs.
  pose proof (reachable_invariant m Hreach) as Hinv.
  pose proof (alloc_huge_spec sz m Hinv) as Hdoes. rewrite Hcall in Hdoes.
  inversion Hdoes as [Hbad|i r0 Hsz (Hi & Hk & _)
    |q m1 r0 Hsz Hnone Hgrows Hacq Hinv1 Hlast Hcur Hk
    |q m1 Hsz Hnone Hgrows Href
    |q e m1 Hsz Hnone Hgrows Hbr|Hsz Hnone Hdiv|s Hs| |]; subst.
  - cbn in Hrs. apply cursor_whole_hugepage; [by eapply lookup_region_ok|].
    by eapply (bases_aligned_inserted _ _ i r0 (pop_region r0 _)).
  - cbn in Hrs.
    pose proof (grows_to_size_t _ _ _ Hgrows) as Hq.
    destruct (acquired_invariant q m m1 Hinv Hq Hacq) as (_ & r1 & Hl & _).
    rewrite Hl, last_snoc in Hlast. injection Hlast as ->.
    assert (Hi : shm_list (self m1) !! length (shm_list (self m)) = Some r0)
      by (by rewrite Hl, lookup_app_r, Nat.sub_diag).
    rewrite Hcur.
    by eapply (bases_aligned_inserted _ _ _ r0 (pop_region r0 _)).
  - by consts.
Qed.


Lemma alloc_huge_aligned_witness :
  alloc_huge 2097152 m_2M =
    Ok 1073741824 (left_by (alloc_huge 2097152 m_2M) nowhere) /\
  1073741824 mod kHugepageSize = 0.
Proof.
  set (m' := left_by (alloc_huge 2097152 m_2M) nowhere).
  assert (Hcall : alloc_huge 2097152 m_2M = Ok 1073741824 m')
    by (vm_compute; reflexivity).
  assert (Hrs : bases_aligned kHugepageSize (shm_list (self m'))).
  { assert (Hl : shm_list (self m') =
                 [pop_region (fresh_region 5 1073741824 2097152) 1])
      by (vm_compute; reflexivity).
    rewrite Hl. constructor; [reflexivity | constructor]. }
  exact (conj Hcall (alloc_huge_aligned _ m_2M _ _ reachable_m_2M Hcall Hrs)).
Defined.

(** ** Where the memory of a caller lies *)

Lemma cursor_inside r : region_ok r -> cur_buf r <= base_buf r + size r.
Proof.
  intros [_ _ _ _ Hf _ Hc]. rewrite Hc. unfold consumed.
  revert Hf. consts. lia.
Qed.

(** X5: whatever a caller that frees only what it holds holds, a page or a
    huge buffer, lies inside one region of the allocator, between its base
    and its cursor. *)
Theorem held_inside_regions m k x :
  run m k -> x ∈ held k ->
  exists r, r ∈ shm_list (self m) /\
    0 < x.2 /\ base_buf r <= x.1 /\ x.1 + x.2 <= cur_buf r /\
    cur_buf r <= base_buf r + size r.
Proof.
  intros [Hinv Hin _ _ _]%run_client_invariant Hx.
  rewrite Forall_forall in Hin.
  destruct (Hin x) as (Hpos & i & r & Hi & Hlo & Hhi).
  { unfold owned. unfold held in Hx. rewrite elem_of_app. by right. }
  exists r. split_and!; try done.
  - by eapply list_elem_of_lookup_2.
  - apply cursor_inside. by eapply lookup_region_ok.
Qed.

Lemma held_inside_regions_witness :
  exists r, r ∈ shm_list (self m_two_pages) /\
    0 < 4096 /\ base_buf r <= 1075830784 /\
    1075830784 + 4096 <= cur_buf r /\ cur_buf r <= base_buf r + size r.
Proof.
  assert (Hx : (1075830784, 4096) ∈ held k_two_pages).
  { unfold held, k_two_pages. cbn. apply list_elem_of_here. }
  exact (held_inside_regions m_two_pages k_two_pages (1075830784, 4096)
           run_m_two_pages Hx).
Defined.

(** ** Exceptions *)

Lemma reachable_m_spent : reachable m_spent.
Proof.
  apply (reachable_call (call_alloc_huge 2097152)
           (left_by (HugeAllocator_ctor 8 2097152 0
                       (boot [grant 1073741824; no_access])) nowhere)).
  - apply (reachable_ctor 8 2097152 0 [grant 1073741824; no_access]);
      [by vm_compute..|]. by vm_compute.
  - by vm_compute.
  - vm_compute. reflexivity.
Qed.

(** X6: only [alloc_page] and [alloc_huge] throw, and the exception leaves
    the allocator as it was but for [prev_allocation_size], which keeps the
    grown value: no region is recorded, no segment attached, the freelist
    and the counters are untouched. *)
Theorem throw_changes_only_the_growth_size c m e m' :
  reachable m ->
  invoke c m = Throw e m' ->
  (c = call_alloc_page \/ exists sz, c = call_alloc_huge sz) /\
  self m' =
    set_prev_allocation_size (prev_allocation_size (self m')) (self m) /\
  segments (os m') = segments (os m).
Proof.
  intros Hinv%reachable_invariant Hcall%invoke_throw.
  destruct c as [|page|sz| | |].
  - pose proof (alloc_page_spec m Hinv) as Hdoes. rewrite Hcall in Hdoes.
    inversion Hdoes as [| | |e' m1 Hfl Hz (Hself & Hseg & _)| | |]; subst.
    split_and!; [by left| |done]. by rewrite Hself.
  - destruct (Z.eq_dec (page mod 4096) 0) as [Hal|Hal].
    + by rewrite free_page_ok in Hcall.
    + by rewrite free_page_misaligned in Hcall.
  - pose proof (alloc_huge_spec sz m Hinv) as Hdoes. rewrite Hcall in Hdoes.
    inversion Hdoes as [| | | |q e' m1 Hsz Hnone Hgrows (Hself & Hseg & _)| | | |];
      subst.
    split_and!; [right; by exists sz| |done]. by rewrite Hself.
  - pose proof (get_reserved_memory_same m) as H. by rewrite Hcall in H.
  - pose proof (get_allocated_memory_same m) as H. by rewrite Hcall in H.
  - done.
Qed.

Lemma throw_changes_only_the_growth_size_witness :
  exists m',
    invoke call_alloc_page m_spent = Throw insufficient_permissions m' /\
    self m' =
      set_prev_allocation_size (prev_allocation_size (self m')) (self m_spent) /\
    segments (os m') = segments (os m_spent).
Proof.
  set (m' := left_by (invoke call_alloc_page m_spent) nowhere).
  assert (Hcall : invoke call_alloc_page m_spent =
                  Throw insufficient_permissions m')
    by (vm_compute; reflexivity).
  exists m'.
  exact (conj Hcall
           (proj2 (throw_changes_only_the_growth_size call_alloc_page m_spent
                     insufficient_permissions m' reachable_m_spent Hcall))).
Defined.

(** ** Assertions *)

Lemma invoke_abort c m a :
  invoke c m = AssertFail a ->
  match c with
  | call_alloc_page => alloc_page m = AssertFail a
  | call_alloc_huge sz => alloc_huge sz m = AssertFail a
  | call_free_page page => free_page page m = AssertFail a
  | call_get_reserved_memory => get_reserved_memory m = AssertFail a
  | call_get_allocated_memory => get_allocated_memory m = AssertFail a
  | call_get_numa_node => False
  end.
Proof.
  destruct c; cbn [invoke]; unfold bind at 1.
  - destruct (alloc_page m); try done; by intros [= ->].
  - destruct (free_page page m); try done; by intros [= ->].
  - destruct (alloc_huge sz m); try done; by intros [= ->].
  - destruct (get_reserved_memory m); try done; by intros [= ->].
  - destruct (get_allocated_memory m); try done; by intros [= ->].
  - done.
Qed.

Lemma invoke_undefined c m :
  invoke c m = Undefined ->
  match c with
  | call_alloc_page => alloc_page m = Undefined
  | call_alloc_huge sz => alloc_huge sz m = Undefined
  | call_free_page page => free_page page m = Undefined
  | call_get_reserved_memory => get_reserved_memory m = Undefined
  | call_get_allocated_memory => get_allocated_memory m = Undefined
  | call_get_numa_node => False
  end.
Proof.
  destruct c; cbn [invoke]; unfold bind at 1.
  - destruct (alloc_page m); try done; by intros [= ->].
  - destruct (free_page page m); try done; by intros [= ->].
  - destruct (alloc_huge sz m); try done; by intros [= ->].
  - destruct (get_reserved_memory m); try done; by intros [= ->].
  - destruct (get_allocated_memory m); try done; by intros [= ->].
  - done.
Qed.

(** X7: on a reachable allocator the only assertions that can fail are the
    two on arguments, the alignment of [free_page] and the size range of
    [alloc_huge]; the assertions of [pop_hugepages], of the constructor of
    [shm_region_t], of the carving and of the two counters hold, and no
    call reads [back()] of an empty vector. *)
Theorem only_argument_checks_fail c m :
  reachable m ->
  (forall a, invoke c m = AssertFail a ->
     (exists page, c = call_free_page page /\ page mod 4096 <> 0 /\
                   a = assert_page_aligned) \/
     (exists sz, c = call_alloc_huge sz /\
                 ~ (kHugepageSize <= sz <= kMaxAllocSize) /\
                 a = assert_huge_size)) /\
  invoke c m <> Undefined.
Proof.
  intros Hreach. pose proof (reachable_invariant m Hreach) as Hinv. split.
  - intros a Hcall%invoke_abort. destruct c as [|page|sz| | |].
    + pose proof (alloc_page_spec m Hinv) as Hdoes. rewrite Hcall in Hdoes.
      inversion Hdoes.
    + left. exists page. destruct (Z.eq_dec (page mod 4096) 0) as [Hal|Hal].
      * by rewrite free_page_ok in Hcall.
      * rewrite free_page_misaligned in Hcall by done.
        injection Hcall as <-. done.
    + right. exists sz.
      pose proof (alloc_huge_spec sz m Hinv) as Hdoes. rewrite Hcall in Hdoes.
      inversion Hdoes as [Hbad| | | | | | | |]. done.
    + by rewrite get_reserved_memory_ok in Hcall.
    + by rewrite get_allocated_memory_ok in Hcall.
    + done.
  - intros Hcall%invoke_undefined. destruct c as [|page|sz| | |].
    + pose proof (alloc_page_spec m Hinv) as Hdoes. rewrite Hcall in Hdoes.
      inversion Hdoes.
    + destruct (Z.eq_dec (page mod 4096) 0) as [Hal|Hal].
      * by rewrite free_page_ok in Hcall.
      * by rewrite free_page_misaligned in Hcall.
    + pose proof (alloc_huge_spec sz m Hinv) as Hdoes. rewrite Hcall in Hdoes.
      inversion Hdoes.
    + by rewrite get_reserved_memory_ok in Hcall.
    + by rewrite get_allocated_memory_ok in Hcall.
    + done.
Qed.

Lemma only_argument_checks_fail_witness :
  invoke (call_free_page 1) m_2M = AssertFail assert_page_aligned /\
  ((exists page, call_free_page 1 = call_free_page page /\
                 page mod 4096 <> 0 /\
                 assert_page_aligned = assert_page_aligned) \/
   (exists sz, call_free_page 1 = call_alloc_huge sz /\
               ~ (kHugepageSize <= sz <= kMaxAllocSize) /\
               assert_page_aligned = assert_huge_size)).
Proof.
  assert (Hcall : invoke (call_free_page 1) m_2M =
                  AssertFail assert_page_aligned) by reflexivity.
  exact (conj Hcall
           (proj1 (only_argument_checks_fail (call_free_page 1) m_2M
                     reachable_m_2M) assert_page_aligned Hcall)).
Defined.

(** ** Nothing goes back to the kernel *)

Lemma extents_insert rs i r n :
  rs !! i = Some r ->
  map extent (<[i := pop_region r n]> rs) = map extent rs.
Proof.
  intros Hi. rewrite map_insert.
  change (extent (pop_region r n)) with (extent r).
  apply list_insert_id. by apply map_lookup.
Qed.

Lemma extents_sizes rs : map snd (map extent rs) = map size rs.
Proof. rewrite map_map. reflexivity. Qed.

Lemma sizes_nonneg rs : Forall region_ok rs -> 0 <= sumZ (map size rs).
Proof.
  induction 1 as [|r rs [_ Hs _ _ _ _ _] _ IH]; sums; lia.
Qed.

(** X8: no public operation detaches a segment or forgets a region: the
    list of attached segments after a call is the list before it, possibly
    with segments added at the end, and [tot_memory_reserved] never goes
    down. *)
Theorem reservations_only_grow c m m' :
  reachable m ->
  after (invoke c m) = Some m' ->
  (exists more, segments (os m') = segments (os m) ++ more) /\
  tot_memory_reserved (self m) <= tot_memory_reserved (self m').
Proof.
  intros Hreach Hafter. pose proof (reachable_invariant m Hreach) as Hinv.
  assert (Hinv' : invariant m') by (by eapply invoke_invariant).
  assert (Hext : exists more,
            map extent (shm_list (self m')) =
            map extent (shm_list (self m)) ++ more).
  { apply (everywhere_step (fun s => exists more,
             map extent (shm_list s) = map extent (shm_list (self m)) ++ more))
      with (c := c) (m := m); try done.
    - intros s r [more Hs] _ _. cbn. exists (more ++ [extent r]).
      by rewrite map_app, Hs, <- app_assoc.
    - intros s i r [more Hs] _ Hi _ _. cbn. exists more.
      by rewrite extents_insert.
    - intros s i r sz [more Hs] Hi _ _ _. cbn. exists more.
      by rewrite extents_insert.
    - exists []. by rewrite app_nil_r. }
  destruct Hext as [more Hmore]. split.
  - exists more. by rewrite (inv_segments m'), (inv_segments m).
  - rewrite (inv_reserved m'), (inv_reserved m) by done.
    rewrite <- !extents_sizes, Hmore, map_app, sumZ_app.
    assert (0 <= sumZ (map snd more)); [|lia].
    pose proof (inv_regions m' Hinv') as Hoks.
    assert (Hall : Forall (fun x => 0 < x.2) (map extent (shm_list (self m')))).
    { rewrite Forall_forall. intros x Hx.
      apply list_elem_of_In, in_map_iff in Hx as (r & <- & Hr).
      rewrite Forall_forall in Hoks.
      apply list_elem_of_In, Hoks in Hr. by destruct Hr. }
    rewrite Hmore, Forall_app in Hall. destruct Hall as [_ Hall].
    clear -Hall. induction Hall as [|x l Hx _ IH]; sums; lia.
Qed.

Lemma reservations_only_grow_witness :
  (exists more, segments (os m_one_page) = segments (os m_2M) ++ more) /\
  tot_memory_reserved (self m_2M) <= tot_memory_reserved (self m_one_page).
Proof.
  assert (Hafter : after (invoke call_alloc_page m_2M) = Some m_one_page)
    by (vm_compute; reflexivity).
  exact (reservations_only_grow call_alloc_page m_2M m_one_page
           reachable_m_2M Hafter).
Defined.

(** ** The loop of [alloc_huge] *)

Lemma no_region_fits_none k rs :
  no_region_fits k rs ->
  list_find (fun r => k <= free_hugepages r) rs = None.
Proof.
  intros Hnone. apply list_find_None. eapply Forall_impl; [exact Hnone|].
  intros r Hr. cbn in *. lia.
Qed.

Lemma reachable_alloc_pages n m :
  reachable m -> reachable (Nat.iter n (fun m => left_by (alloc_page m) m) m).
Proof.
  intros Hreach. induction n as [|n IH]; [done|].
  rewrite Nat.iter_succ. set (m1 := Nat.iter n _ m) in *.
  unfold left_by. destruct (after (alloc_page m1)) as [m2|] eqn:Hafter; [|done].
  apply (reachable_call call_alloc_page m1); [done..|].
  cbn [invoke]. by rewrite after_ret_bind.
Qed.

Lemma reachable_m_wrapped : reachable m_wrapped.
Proof.
  apply reachable_alloc_pages.
  apply (reachable_ctor 8 274877906944 0 (repeat deny 27));
    [by vm_compute..|]. by vm_compute.
Qed.

(** X9: [alloc_huge(sz)] never returns exactly when no region fits and all
    the doublings of [prev_allocation_size] stay below the rounded size,
    which happens once [prev_allocation_size] has wrapped to 0: the [while]
    loop doubles 0 for ever.  Such a state is reached by a 256 GiB allocator
    after 26 calls of [alloc_page] that met a kernel without hugepages. *)
Theorem alloc_huge_loops_forever sz m :
  reachable m ->
  alloc_huge sz m = Diverge <->
  kHugepageSize <= sz <= kMaxAllocSize /\
  no_region_fits (round_up sz / kHugepageSize) (shm_list (self m)) /\
  forall j, doubled (prev_allocation_size (self m)) j < round_up sz.
Proof.
  intros Hinv%reachable_invariant. split.
  - intros Hcall. pose proof (alloc_huge_spec sz m Hinv) as Hdoes.
    rewrite Hcall in Hdoes. by inversion Hdoes.
  - intros (Hsz & Hnone & Hall). unfold alloc_huge.
    unfold bind at 1, assert at 1.
    destruct (Z.leb_spec kHugepageSize sz); cbn [andb]; [|lia].
    destruct (Z.leb_spec sz kMaxAllocSize); [|lia].
    unfold bind at 1, get at 1. cbn beta iota. unfold bind at 1.
    rewrite alloc_huge_scan_find, (no_region_fits_none _ _ Hnone).
    unfold bind at 1, modify at 1.
    set (m0 := {| self := _; os := os m |}).
    unfold bind at 1. pose proof (grow_loop_spec 65 (round_up sz) m0) as Hgrow.
    change (prev_allocation_size (self m0))
      with (wrap (prev_allocation_size (self m) * 2)) in Hgrow.
    destruct (grow_loop 65 (round_up sz) m0) as [[] m0'|e m0'|s| | | | |];
      try done.
    destruct Hgrow as (_ & j & _ & _ & Hle & _).
    rewrite twice_doubled in Hle. specialize (Hall j). lia.
Qed.

Lemma alloc_huge_loops_forever_witness :
  reachable m_wrapped /\ alloc_huge 2097152 m_wrapped = Diverge.
Proof.
  split; [exact reachable_m_wrapped|].
  assert (Hprev : prev_allocation_size (self m_wrapped) = 0)
    by (vm_compute; reflexivity).
  assert (Hl : shm_list (self m_wrapped) = []) by (vm_compute; reflexivity).
  apply (proj2 (alloc_huge_loops_forever 2097152 m_wrapped reachable_m_wrapped)).
  split; [unfold kHugepageSize, kMaxAllocSize; lia|].
  split; [rewrite Hl; constructor|].
  intros j. rewrite Hprev. unfold doubled. rewrite Z.mul_0_l.
  vm_compute. reflexivity.
Defined.

(** ** Calls that the allocator serves alone *)

(** X10: with a page on the freelist or a free hugepage in some region,
    [alloc_page()] returns without asking the kernel: the world, the
    reservation and [prev_allocation_size] are as before. *)
Theorem alloc_page_without_kernel m :
  reachable m ->
  page_freelist (self m) <> [] \/ tot_free_hugepages (self m) <> 0 ->
  exists p m',
    alloc_page m = Ok p m' /\ os m' = os m /\
    prev_allocation_size (self m') = prev_allocation_size (self m) /\
    tot_memory_reserved (self m') = tot_memory_reserved (self m).
Proof.
  intros Hinv%reachable_invariant Hhas.
  destruct (page_freelist (self m)) as [|p0 fl0] eqn:Hfl.
  - destruct Hhas as [|Hnz]; [done|].
    destruct (free_region_found m Hinv Hnz) as (i & r & Hfind).
    destruct (carve_found m i r Hinv Hfl Hfind) as (Hscan & _).
    exists (cur_buf r + (kHugepageSize - kPageSize)), (with_self (carved i r) m).
    by rewrite alloc_page_scans.
  - destruct (exists_last (l := p0 :: fl0)) as (fl & p & Hlast); [done|].
    rewrite Hlast in Hfl.
    exists p, (with_self (page_taken fl) m). by rewrite (alloc_page_pop fl p).
Qed.

Lemma alloc_page_without_kernel_witness :
  exists p m',
    alloc_page m_2M = Ok p m' /\ os m' = os m_2M /\
    prev_allocation_size (self m') = prev_allocation_size (self m_2M) /\
    tot_memory_reserved (self m') = tot_memory_reserved (self m_2M).
Proof.
  assert (Hfree : tot_free_hugepages (self m_2M) <> 0)
    by (vm_compute; discriminate).
  exact (alloc_page_without_kernel m_2M reachable_m_2M (or_intror Hfree)).
Defined.

(** X11: [alloc_huge(sz)] is first fit: when some region has the hugepages
    asked for, the call takes them at the cursor of the first such region,
    asks the kernel for nothing and leaves every other region as it was. *)
Theorem alloc_huge_first_fit sz m i r :
  kHugepageSize <= sz <= kMaxAllocSize ->
  first_with (round_up sz / kHugepageSize) (shm_list (self m)) i r ->
  exists m',
    alloc_huge sz m = Ok (cur_buf r) m' /\ os m' = os m /\
    prev_allocation_size (self m') = prev_allocation_size (self m) /\
    shm_list (self m') =
      <[i := pop_region r (round_up sz / kHugepageSize)]> (shm_list (self m)).
Proof.
  intros Hsz (Hi & Hk & Hbefore).
  exists (with_self (bumped i r (round_up sz / kHugepageSize) (round_up sz)) m).
  split; [|done]. unfold alloc_huge. unfold bind at 1, assert at 1.
  destruct (Z.leb_spec kHugepageSize sz); cbn [andb]; [|lia].
  destruct (Z.leb_spec sz kMaxAllocSize); [|lia].
  unfold bind at 1, get at 1. cbn beta iota. unfold bind at 1.
  rewrite alloc_huge_scan_find.
  assert (Hfind : list_find (fun r => round_up sz / kHugepageSize <=
                                      free_hugepages r) (shm_list (self m)) =
                  Some (i, r)).
  { apply list_find_Some. split_and!; [done..|].
    intros j y Hj Hlt. specialize (Hbefore j y Hj Hlt). lia. }
  rewrite Hfind. cbn [Nat.add]. unfold bind at 1.
  by rewrite (bump_ok i r _ _ m Hi Hk).
Qed.

Lemma alloc_huge_first_fit_witness :
  exists m',
    alloc_huge 2097152 m_2M = Ok 1073741824 m' /\ os m' = os m_2M /\
    prev_allocation_size (self m') = prev_allocation_size (self m_2M) /\
    shm_list (self m') =
      <[0%nat := pop_region (fresh_region 5 1073741824 2097152)
                   (round_up 2097152 / kHugepageSize)]> (shm_list (self m_2M)).
Proof.
  assert (Hl : shm_list (self m_2M) = [fresh_region 5 1073741824 2097152])
    by (vm_compute; reflexivity).
  assert (Hfirst : first_with (round_up 2097152 / kHugepageSize)
                     (shm_list (self m_2M)) 0
                     (fresh_region 5 1073741824 2097152)).
  { rewrite Hl. split; [reflexivity|]. split; [vm_compute; discriminate|].
    intros j y _ Hj. lia. }
  assert (Hsz : kHugepageSize <= 2097152 <= kMaxAllocSize)
    by (unfold kHugepageSize, kMaxAllocSize; lia).
  exact (alloc_huge_first_fit 2097152 m_2M 0
           (fresh_region 5 1073741824 2097152) Hsz Hfirst).
Defined.

(** ** The freelist is a stack *)

Lemma free_pages_ok pages : forall m,
  Forall (fun p => p mod 4096 = 0) pages ->
  exists m1,
    free_pages pages m = Ok tt m1 /\
    page_freelist (self m1) = page_freelist (self m) ++ pages /\
    shm_list (self m1) = shm_list (self m) /\ os m1 = os m.
Proof.
  induction pages as [|page pages IH]; intros m Hal.
  - exists m. by rewrite app_nil_r.
  - inversion Hal as [|? ? Hpage Hrest]; subst.
    cbn [free_pages]. unfold bind at 1. rewrite free_page_ok by done.
    destruct (IH (with_self (fun s =>
      set_tot_memory_allocated (wrap (tot_memory_allocated s - kPageSize))
        (set_page_freelist (page_freelist s ++ [page]) s)) m) Hrest)
      as (m1 & -> & Hfl & Hl & Hos).
    exists m1. split_and!; [done| |done..].
    rewrite Hfl. cbn. by rewrite <- app_assoc.
Qed.

Lemma alloc_pages_pop taken : forall m fl,
  page_freelist (self m) = fl ++ taken ->
  exists m2,
    alloc_pages (length taken) m = Ok (rev taken) m2 /\
    page_freelist (self m2) = fl /\
    shm_list (self m2) = shm_list (self m) /\ os m2 = os m.
Proof.
  induction taken as [|p taken IH] using rev_ind; intros m fl Hfl.
  - exists m. rewrite app_nil_r in Hfl. done.
  - rewrite length_app, Nat.add_1_r, rev_unit. cbn [alloc_pages].
    rewrite app_assoc in Hfl.
    unfold bind at 1. rewrite (alloc_page_pop _ p m Hfl).
    destruct (IH (with_self (page_taken (fl ++ taken)) m) fl eq_refl)
      as (m2 & Hcall & Hfl2 & Hl & Hos).
    exists m2. unfold bind at 1. rewrite Hcall. done.
Qed.

(** X12: the freelist is a stack that checks nothing but alignment: after
    [free_page] on each of a list of 4 KiB-aligned addresses, held or not,
    repeated or not, as many calls of [alloc_page] return these addresses
    last freed first and leave the freelist as it was at the start, without
    touching a region or the kernel. *)
Theorem freed_pages_come_back_reversed pages m :
  Forall (fun p => p mod 4096 = 0) pages ->
  exists m1 m2,
    free_pages pages m = Ok tt m1 /\
    alloc_pages (length pages) m1 = Ok (rev pages) m2 /\
    page_freelist (self m2) = page_freelist (self m) /\
    shm_list (self m2) = shm_list (self m) /\ os m2 = os m.
Proof.
  intros Hal. destruct (free_pages_ok pages m Hal) as (m1 & Hfree & Hfl & Hl & Hos).
  destruct (alloc_pages_pop pages m1 _ Hfl) as (m2 & Hcall & Hfl2 & Hl2 & Hos2).
  exists m1, m2. split_and!; [done..| |]; congruence.
Qed.

Lemma freed_pages_come_back_reversed_witness :
  exists m1 m2,
    free_pages [4096; 8192; 4096] m_2M = Ok tt m1 /\
    alloc_pages 3 m1 = Ok [4096; 8192; 4096] m2 /\
    page_freelist (self m2) = page_freelist (self m_2M) /\
    shm_list (self m2) = shm_list (self m_2M) /\ os m2 = os m_2M.
Proof.
  apply (freed_pages_come_back_reversed [4096; 8192; 4096] m_2M).
  repeat constructor.
Defined.

(** ** Teardown *)

Lemma delete_shm_removes k buf a :
  removes a ->
  delete_shm k buf a =
    ([shmget_call k; shmctl_call (rm_shmget a); shmdt_call buf], None).
Proof.
  intros (Hget & Hctl & Hdt). unfold delete_shm.
  destruct (Z.eqb_spec (rm_shmget a) (-1)); [done|].
  by rewrite Hctl, Hdt.
Qed.

Lemma delete_shm_fails k buf a :
  ~ removes a ->
  exists calls s,
    delete_shm k buf a = (shmget_call k :: calls, Some s) /\
    keys_asked calls = [].
Proof.
  intros Hnot. unfold delete_shm.
  destruct (Z.eqb_spec (rm_shmget a) (-1)) as [Hget|Hget]; [by eexists [], _|].
  destruct (Z.eqb_spec (rm_shmctl a) 0) as [Hctl|Hctl]; cbn [negb];
    [|by eexists [_], _].
  destruct (Z.eqb_spec (rm_shmdt a) 0) as [Hdt|Hdt]; cbn [negb];
    [|by eexists [_; _], _].
  by destruct Hnot.
Qed.

Lemma keys_asked_app l l' :
  keys_asked (l ++ l') = keys_asked l ++ keys_asked l'.
Proof. apply omap_app. Qed.

Lemma bufs_detached_app l l' :
  bufs_detached (l ++ l') = bufs_detached l ++ bufs_detached l'.
Proof. apply omap_app. Qed.

Lemma dtor_loop_removes rs : forall answers,
  (length rs <= length answers)%nat ->
  Forall removes answers ->
  exists calls,
    dtor_loop rs answers = (calls, torn_down) /\
    keys_asked calls = map key rs /\
    bufs_detached calls = map base_buf rs.
Proof.
  induction rs as [|r rs IH]; intros answers Hlen Hall; [by exists []|].
  destruct Hall as [|a answers Ha Hall]; [cbn in Hlen; lia|].
  cbn [dtor_loop]. rewrite delete_shm_removes by done.
  destruct (IH answers) as (calls & -> & Hkeys & Hbufs);
    [cbn in Hlen; lia | done |].
  eexists. split; [reflexivity|].
  rewrite keys_asked_app, bufs_detached_app, Hkeys, Hbufs. done.
Qed.

(** X13: when the kernel finds, removes and detaches every segment, the
    destructor returns after one [delete_shm] for each region, in the order
    of creation: it looks up the key of every region and hands to [shmdt]
    the address of every segment attached, each once. *)
Theorem teardown_detaches_every_segment m answers :
  reachable m ->
  (length (shm_list (self m)) <= length answers)%nat ->
  Forall removes answers ->
  exists calls,
    HugeAllocator_dtor (self m) answers = (calls, torn_down) /\
    keys_asked calls = map key (shm_list (self m)) /\
    bufs_detached calls = map fst (segments (os m)).
Proof.
  intros Hinv%reachable_invariant Hlen Hall.
  destruct (dtor_loop_removes (shm_list (self m)) answers Hlen Hall)
    as (calls & Hcall & Hkeys & Hbufs).
  exists calls. split_and!; [done..|].
  rewrite Hbufs, (inv_segments m Hinv), map_map. reflexivity.
Qed.

Lemma teardown_detaches_every_segment_witness :
  exists calls,
    HugeAllocator_dtor (self m_two_regions) [removing; removing] =
      (calls, torn_down) /\
    keys_asked calls = map key (shm_list (self m_two_regions)) /\
    bufs_detached calls = map fst (segments (os m_two_regions)).
Proof.
  assert (Hreach : reachable m_two_regions).
  { apply (reachable_call (call_alloc_huge 4194304) m_2M);
      [exact reachable_m_2M | by vm_compute | vm_compute; reflexivity]. }
  assert (Hlen : (length (shm_list (self m_two_regions)) <=
                  length [removing; removing])%nat)
    by (vm_compute; lia).
  assert (Hall : Forall removes [removing; removing]).
  { repeat constructor; vm_compute; discriminate. }
  exact (teardown_detaches_every_segment m_two_regions [removing; removing]
           Hreach Hlen Hall).
Defined.

(** X14: the first [delete_shm] that the kernel does not carry through ends
    the process inside the destructor: the regions after it are never
    looked up, so that their segments stay in the kernel. *)
Theorem teardown_stops_at_the_first_failure s goods bad rest :
  Forall removes goods ->
  ~ removes bad ->
  (length goods < length (shm_list s))%nat ->
  exists calls why,
    HugeAllocator_dtor s (goods ++ bad :: rest) = (calls, torn_exit why) /\
    keys_asked calls = map key (take (S (length goods)) (shm_list s)).
Proof.
  unfold HugeAllocator_dtor. generalize (shm_list s) as rs.
  intros rs Hgoods Hbad. revert rs.
  induction Hgoods as [|a goods Ha _ IH]; intros [|r rs] Hlen;
    try (cbn in Hlen; lia).
  - cbn [app dtor_loop].
    destruct (delete_shm_fails (key r) (base_buf r) bad Hbad)
      as (calls & why & -> & Hkeys).
    exists (shmget_call (key r) :: calls), why. split; [done|].
    change (keys_asked (shmget_call (key r) :: calls))
      with (key r :: keys_asked calls).
    rewrite Hkeys. reflexivity.
  - cbn [app dtor_loop]. rewrite delete_shm_removes by done.
    destruct (IH rs) as (calls & why & -> & Hkeys); [cbn in Hlen; lia|].
    eexists _, why. split; [reflexivity|].
    rewrite keys_asked_app, Hkeys. reflexivity.
Qed.

Lemma teardown_stops_at_the_first_failure_witness :
  exists calls why,
    HugeAllocator_dtor (self m_two_regions) ([] ++ missing :: [removing]) =
      (calls, torn_exit why) /\
    keys_asked calls = map key (take 1 (shm_list (self m_two_regions))).
Proof.
  apply (teardown_stops_at_the_first_failure (self m_two_regions) [] missing
           [removing]).
  - constructor.
  - intros (Hget & _). by apply Hget.
  - vm_compute. lia.
Defined.

(** ** The acquirer and the kernel *)

Lemma shmget_loop_throws sz answers : forall m e m',
  shmget_loop sz answers m = Throw e m' ->
  self m' = self m /\
  exists calls c,
    shm_log (os m') = shm_log (os m) ++ calls ++ [c] /\
    Forall (fun c => call_ret c = -1 /\ call_errno c = EEXIST) calls /\
    call_ret c = -1 /\ call_size c = sz /\ tells e sz (call_errno c).
Proof.
  induction answers as [|a rest IH]; intros m e m'; [done|].
  cbn [shmget_loop]. unfold bind at 1, sys_shmget at 1.
  set (c0 := {| call_key := _; call_size := sz |}).
  set (m1 := {| self := self m |}).
  assert (Hone : shm_log (os m1) = shm_log (os m) ++ [] ++ [c0]) by done.
  destruct (Z.eqb_spec (att_shmget a) (-1)) as [Hret|Hret].
  - destruct (Z.eqb_spec (att_errno a) EEXIST) as [Hex|Hex].
    { intros (Hself & calls & c & Hlog & Hall & Hc)%IH. split; [done|].
      exists (c0 :: calls), c.
      split; [by rewrite Hlog, Hone, <- app_assoc|].
      split; [|done]. by constructor. }
    destruct (Z.eqb_spec (att_errno a) EACCES) as [Hac|Hac].
    { intros [= <- <-]. split; [done|]. by exists [], c0. }
    destruct (Z.eqb_spec (att_errno a) EINVAL) as [Hin|Hin].
    { intros [= <- <-]. split; [done|]. by exists [], c0. }
    destruct (Z.eqb_spec (att_errno a) ENOMEM) as [Hno|Hno]; [done|].
    intros [= <- <-]. split; [done|]. by exists [], c0.
  - by destruct (sz =? 0).
Qed.

(** X15: an exception of [reserve_hugepages] means that [shmget], after
    any number of calls that found the key taken, returned -1 with an
    [errno] other than EEXIST and ENOMEM: EACCES for "Insufficient
    permissions", EINVAL for "SHMMAX/SHMIN mismatch", which reports the
    rounded size, and any other value for "Unexpected SHM malloc error";
    the allocator is as it was at entry. *)
Theorem reserve_hugepages_throws sz numa m e m' :
  reserve_hugepages sz numa m = Throw e m' ->
  self m' = self m /\
  exists calls c,
    shm_log (os m') = shm_log (os m) ++ calls ++ [c] /\
    Forall (fun c => call_ret c = -1 /\ call_errno c = EEXIST) calls /\
    call_ret c = -1 /\ call_size c = round_up sz /\
    tells e (round_up sz) (call_errno c).
Proof.
  unfold reserve_hugepages. unfold bind at 1.
  destruct (shmget_loop (round_up sz) (script (os m)) m)
    as [[[[k id] a]|] m1|e1 m1|s| | | | |] eqn:Hloop; try done.
  - destruct (negb _); [done|]. destruct (att_shmat a =? nullptr); [done|].
    destruct (negb _); [done|].
    unfold bind at 1, sys_attach at 1. destruct (mappable _ _ _); [|done].
    unfold bind at 1, shm_region_t_ctor at 1, bind at 1, assert at 1.
    by destruct (_ =? 0).
  - intros [= <- <-]. by apply shmget_loop_throws in Hloop.
Qed.

Lemma reserve_hugepages_throws_witness :
  exists m',
    reserve_hugepages 2883584 0
      {| self := member_init 2883584 0; os := boot [taken; no_access] |} =
      Throw insufficient_permissions m' /\
    self m' = member_init 2883584 0 /\
    exists calls c,
      shm_log (os m') = [] ++ calls ++ [c] /\
      Forall (fun c => call_ret c = -1 /\ call_errno c = EEXIST) calls /\
      call_ret c = -1 /\ call_size c = round_up 2883584 /\
      tells insufficient_permissions (round_up 2883584) (call_errno c).
Proof.
  set (m := {| self := member_init 2883584 0; os := boot [taken; no_access] |}).
  set (m' := left_by (reserve_hugepages 2883584 0 m) nowhere).
  assert (Hcall : reserve_hugepages 2883584 0 m =
                  Throw insufficient_permissions m')
    by (vm_compute; reflexivity).
  exists m'.
  exact (conj Hcall
           (reserve_hugepages_throws 2883584 0 m insufficient_permissions m'
              Hcall)).
Defined.

(** *** Keys that are taken *)

Lemma forget_log_eq m1 m2 :
  self m1 = self m2 -> script (os m1) = script (os m2) ->
  segments (os m1) = segments (os m2) -> forget_log m1 = forget_log m2.
Proof. unfold forget_log. by intros -> -> ->. Qed.

Lemma forget_log_inv m1 m2 :
  forget_log m1 = forget_log m2 ->
  self m1 = self m2 /\ script (os m1) = script (os m2) /\
  segments (os m1) = segments (os m2).
Proof. unfold forget_log. by intros [= -> -> ->]. Qed.

Lemma shmget_loop_log sz answers : forall m1 m2,
  self m1 = self m2 -> segments (os m1) = segments (os m2) ->
  res_map forget_log (shmget_loop sz answers m1) =
  res_map forget_log (shmget_loop sz answers m2).
Proof.
  induction answers as [|a rest IH]; intros m1 m2 Hself Hseg; [done|].
  cbn [shmget_loop]. unfold bind, sys_shmget.
  destruct (att_shmget a =? -1).
  - destruct (att_errno a =? EEXIST); [by apply IH|].
    destruct (att_errno a =? EACCES);
      [unfold throw; cbn; f_equal; by apply forget_log_eq|].
    destruct (att_errno a =? EINVAL);
      [unfold throw; cbn; f_equal; by apply forget_log_eq|].
    destruct (att_errno a =? ENOMEM);
      [unfold ret; cbn; f_equal; by apply forget_log_eq|].
    unfold throw; cbn; f_equal; by apply forget_log_eq.
  - destruct (sz =? 0); [done|].
    unfold ret; cbn; f_equal; by apply forget_log_eq.
Qed.

Lemma collisions_skipped sz cs rest : forall m1 m2,
  Forall collision cs ->
  self m1 = self m2 -> segments (os m1) = segments (os m2) ->
  res_map forget_log (shmget_loop sz (cs ++ rest) m1) =
  res_map forget_log (shmget_loop sz rest m2).
Proof.
  induction cs as [|a cs IH]; intros m1 m2 Hcs Hself Hseg.
  - by apply shmget_loop_log.
  - inversion Hcs as [|? ? [Hret Herr] Hrest]; subst.
    cbn [app shmget_loop]. unfold bind at 1, sys_shmget at 1.
    rewrite Hret, Herr. cbn [Z.eqb Pos.eqb EEXIST]. by apply IH.
Qed.

Lemma log_blind_bind {A B} (c1 c2 : M A) (k : A -> M B) m1 m2 :
  res_map forget_log (c1 m1) = res_map forget_log (c2 m2) ->
  (forall a, log_blind (k a)) ->
  res_map forget_log ((do x <- c1; k x) m1) =
  res_map forget_log ((do x <- c2; k x) m2).
Proof.
  intros Hc Hk. unfold bind.
  destruct (c1 m1) as [a1 n1|e1 n1|s1|a1| | | |],
           (c2 m2) as [a2 n2|e2 n2|s2|a2| | | |];
    cbn [res_map] in *; try done.
  - assert (a1 = a2) as -> by congruence.
    apply Hk. congruence.
  - assert (e1 = e2) as -> by congruence.
    assert (forget_log n1 = forget_log n2) as -> by congruence. done.
  - assert (s1 = s2) as -> by congruence. done.
  - assert (a1 = a2) as -> by congruence. done.
Qed.

(** X16: answers of [shmget] that say the key is taken change nothing but
    the log: [reserve_hugepages] draws another key and goes on, and ends as
    it would have ended without them. *)
Theorem taken_keys_are_skipped sz numa cs rest m :
  Forall collision cs ->
  res_map forget_log (reserve_hugepages sz numa (with_script (cs ++ rest) m)) =
  res_map forget_log (reserve_hugepages sz numa (with_script rest m)).
Proof.
  intros Hcs. unfold reserve_hugepages. apply log_blind_bind.
  - cbn [with_script os script]. by apply collisions_skipped.
  - intros found m1 m2 (Hself & Hscript & Hseg)%forget_log_inv.
    destruct found as [[[k id] a]|];
      [|unfold ret; cbn [res_map]; f_equal; by apply forget_log_eq].
    destruct (negb _); [done|]. destruct (att_shmat a =? nullptr); [done|].
    destruct (negb _); [done|].
    unfold bind, sys_attach. rewrite Hseg.
    destruct (mappable _ _ _); [|done].
    unfold shm_region_t_ctor, bind, assert. destruct (_ =? 0); [|done].
    unfold modify, ret. cbn. f_equal. apply forget_log_eq; cbn; congruence.
Qed.

Lemma taken_keys_are_skipped_witness :
  res_map forget_log
    (reserve_hugepages 2097152 0
       (with_script ([taken; taken] ++ [grant 1073741824]) nowhere)) =
  res_map forget_log
    (reserve_hugepages 2097152 0 (with_script [grant 1073741824] nowhere)).
Proof.
  apply (taken_keys_are_skipped 2097152 0 [taken; taken] [grant 1073741824]
           nowhere).
  repeat constructor.
Defined.

(** ** Construction *)

(** X17: the constructor aborts exactly when one of its two assertions on
    the arguments fails, the size first; a node equal to [kMaxNumaNodes]
    passes.  Nothing that the kernel answers makes an assertion fail:
    [reserve_hugepages] builds its region from the rounded size. *)
Theorem ctor_aborts_on_arguments_only kMaxNumaNodes initial_size numa w a :
  HugeAllocator_ctor kMaxNumaNodes initial_size numa w = AssertFail a <->
  a = assert_initial_size /\ ~ (0 < initial_size <= kMaxAllocSize) \/
  a = assert_numa_node /\ 0 < initial_size <= kMaxAllocSize /\
    kMaxNumaNodes < numa.
Proof.
  unfold HugeAllocator_ctor. unfold bind at 1, assert at 1.
  destruct (Z.ltb_spec 0 initial_size); cbn [andb].
  2:{ split; [intros [= <-]; left; split; [done|lia]|].
      intros [[-> _]|(_ & ? & _)]; [done|lia]. }
  destruct (Z.leb_spec initial_size kMaxAllocSize).
  2:{ split; [intros [= <-]; left; split; [done|lia]|].
      intros [[-> _]|(_ & ? & _)]; [done|lia]. }
  unfold bind at 1, assert at 1.
  destruct (Z.leb_spec numa kMaxNumaNodes).
  2:{ split; [intros [= <-]; right; split; [done|lia]|].
      intros [[_ ?]|(-> & _)]; [lia|done]. }
  unfold bind at 1.
  pose proof (reserve_hugepages_spec initial_size numa
                {| self := member_init initial_size numa; os := w |}) as Hspec.
  destruct (reserve_hugepages _ _ _) as [b m1|e m1|s|a1| | | |]; try done;
    (split; [done|]; intros [[_ ?]|(_ & _ & ?)]; lia).
Qed.

(** X18: an allocator that the constructor returned has its node and
    [prev_allocation_size] as given, an empty freelist and nothing
    allocated; it has either no region, nothing reserved and no segment,
    or one untouched region of the rounded initial size, attached where
    the kernel put it. *)
Theorem fresh_allocator kMaxNumaNodes initial_size numa answers m :
  HugeAllocator_ctor kMaxNumaNodes initial_size numa (boot answers) = Ok tt m ->
  numa_node (self m) = numa /\
  prev_allocation_size (self m) = initial_size /\
  page_freelist (self m) = [] /\
  tot_memory_allocated (self m) = 0 /\
  (shm_list (self m) = [] /\ segments (os m) = [] /\
   tot_memory_reserved (self m) = 0 /\ tot_free_hugepages (self m) = 0 \/
   exists k buf,
     shm_list (self m) = [fresh_region k buf (round_up initial_size)] /\
     segments (os m) = [(buf, round_up initial_size)] /\
     tot_memory_reserved (self m) = round_up initial_size /\
     tot_free_hugepages (self m) = round_up initial_size / kHugepageSize /\
     initial_size <= round_up initial_size).
Proof.
  intros (Hsz & _ & b & Hres)%ctor_spec.
  pose proof (reserve_hugepages_spec initial_size numa
                {| self := member_init initial_size numa; os := boot answers |})
    as Hspec.
  rewrite Hres in Hspec. destruct Hspec as (calls & c & _ & _ & Hb).
  destruct b.
  - destruct Hb as (_ & k & buf & _ & _ & Hself & Hseg). rewrite Hself.
    split_and!; try done. right. exists k, buf. cbn.
    pose proof (round_up_small initial_size) as Hr.
    pose proof (round_up_range initial_size) as Hrange.
    split_and!; try done.
    + apply wrap_small. lia.
    + apply wrap_small. revert Hr Hsz Hrange. consts. intros.
      Z.div_mod_to_equations. lia.
    + apply Hr. lia.
  - destruct Hb as (_ & Hself & Hseg). rewrite Hself.
    split_and!; try done. by left.
Qed.

Lemma fresh_allocator_witness :
  numa_node (self m_2M) = 0 /\
  prev_allocation_size (self m_2M) = 2097152 /\
  page_freelist (self m_2M) = [] /\
  tot_memory_allocated (self m_2M) = 0 /\
  (shm_list (self m_2M) = [] /\ segments (os m_2M) = [] /\
   tot_memory_reserved (self m_2M) = 0 /\ tot_free_hugepages (self m_2M) = 0 \/
   exists k buf,
     shm_list (self m_2M) = [fresh_region k buf (round_up 2097152)] /\
     segments (os m_2M) = [(buf, round_up 2097152)] /\
     tot_memory_reserved (self m_2M) = round_up 2097152 /\
     tot_free_hugepages (self m_2M) = round_up 2097152 / kHugepageSize /\
     2097152 <= round_up 2097152).
Proof.
  assert (Hctor : HugeAllocator_ctor 8 2097152 0
                    (boot [grant 1073741824; grant 2147483648; deny]) =
                  Ok tt m_2M) by (vm_compute; reflexivity).
  exact (fresh_allocator 8 2097152 0 _ m_2M Hctor).
Defined.
